(** * Nether fortress quad-crossing finder: a shallow embedding

  The development follows the Python sources module by module:
  - [RandomSource]     : random_source.py   (48-bit LCG, nextInt, nextLong, seed derivations)
  - [FortressLocator]  : fortress_locator.py (region candidate, Fortress/Bastion classifier)
  - [FortressGenerator]: fortress_generator.py (the piece generator)
  - [CrossingDetector] : crossing_detector.py (the 2x2 matcher, the connected groups)
  - [Main]             : main.py (the search over a range, without the printing)

  Python integers are unbounded, so every integer is a [Z]; the masks and
  sign conversions the source writes out are written out here as well.
  Bitwise operators on [Z] agree with Python's on negative numbers
  (both are two's complement with infinite sign extension). *)

From Stdlib Require Import ZArith List Bool Lia.
Import ListNotations.
Local Open Scope Z_scope.

(** ** Outcome of a call

  A Python call either returns or raises.  The only exceptions the modelled
  code can raise are [ValueError] (nextInt with a non-positive bound) and
  [IndexError] (list.pop out of range).  [OutOfFuel] is the model running
  out of the iteration budget given to an unbounded [while] loop. *)

Inductive result (A : Type) : Type :=
| Ok (a : A)
| ValueError
| IndexError
| OutOfFuel.

Arguments Ok {A} a.
Arguments ValueError {A}.
Arguments IndexError {A}.
Arguments OutOfFuel {A}.

Definition rbind {A B : Type} (r : result A) (k : A -> result B) : result B :=
  match r with
  | Ok a => k a
  | ValueError => ValueError
  | IndexError => IndexError
  | OutOfFuel => OutOfFuel
  end.

(* ===================================================================== *)
(** ** random_source.py *)
(* ===================================================================== *)

Module RandomSource.

Definition MODULUS_BITS : Z := 48.
Definition MODULUS_MASK : Z := Z.shiftl 1 48 - 1.
Definition MULTIPLIER : Z := 25214903917.
Definition INCREMENT : Z := 11.

(** The generator object has a single field, [_seed]; a generator state is
    that integer. *)
Definition rng : Type := Z.

(** [set_seed]: [self._seed = (seed ^ MULTIPLIER) & MODULUS_MASK]. *)
Definition set_seed (seed : Z) : rng :=
  Z.land (Z.lxor seed MULTIPLIER) MODULUS_MASK.

(** [next(bits)]: advance, return [(value, new state)]. *)
Definition next (bits : Z) (s : rng) : Z * rng :=
  let s' := Z.land (s * MULTIPLIER + INCREMENT) MODULUS_MASK in
  (Z.shiftr s' (48 - bits), s').

Definition _to_signed_int (value : Z) : Z :=
  if value >=? Z.shiftl 1 31 then value - Z.shiftl 1 32 else value.

Definition _to_signed_long (value : Z) : Z :=
  if value >=? Z.shiftl 1 63 then value - Z.shiftl 1 64 else value.

(** The [while True] loop of [next_int(bound)], with an iteration budget. *)
Fixpoint next_int_loop (fuel : nat) (bound : Z) (s : rng) : result (Z * rng) :=
  match fuel with
  | O => OutOfFuel
  | S fuel' =>
      let '(bits, s1) := next 31 s in
      let val := bits mod bound in
      if bits - val + (bound - 1) >=? 0 then Ok (val, s1)
      else next_int_loop fuel' bound s1
  end.

(** [next_int(bound)] for a given bound ([bound is None] is [next_int_unbounded]). *)
Definition next_int (fuel : nat) (bound : Z) (s : rng) : result (Z * rng) :=
  if bound <=? 0 then ValueError
  else if Z.land bound (bound - 1) =? 0 then
    let '(bits, s1) := next 31 s in
    Ok (Z.shiftr (bound * bits) 31, s1)
  else next_int_loop fuel bound s.

Definition next_int_unbounded (s : rng) : Z * rng :=
  let '(v, s1) := next 32 s in (_to_signed_int v, s1).

(** [next_long]. *)
Definition next_long (s : rng) : Z * rng :=
  let '(high, s1) := next 32 s in
  let '(low, s2) := next 32 s1 in
  let low_signed := _to_signed_int low in
  let result := Z.shiftl high 32 + low_signed in
  (_to_signed_long (Z.land result (Z.shiftl 1 64 - 1)), s2).

Definition mask64 : Z := Z.shiftl 1 64 - 1.

(** [WorldgenRandom.set_large_feature_seed]. *)
Definition set_large_feature_seed (world_seed x z : Z) : rng :=
  let s := set_seed world_seed in
  let '(m, s) := next_long s in
  let '(n, s) := next_long s in
  let xm := _to_signed_long (Z.land (x * m) mask64) in
  let zn := _to_signed_long (Z.land (z * n) mask64) in
  let seed := Z.lxor (Z.lxor xm zn) world_seed in
  let seed := _to_signed_long (Z.land seed mask64) in
  set_seed seed.

(** [WorldgenRandom.set_large_feature_with_salt]. *)
Definition set_large_feature_with_salt (world_seed x z salt : Z) : rng :=
  let seed := x * 341873128712 + z * 132897987541 + world_seed + salt in
  let seed := _to_signed_long (Z.land seed mask64) in
  set_seed seed.

(** [WorldgenRandom.set_decoration_seed]: returns the seed it computed, which
    is a Python integer and is not reduced to 64 bits. *)
Definition set_decoration_seed (world_seed x z : Z) : Z * rng :=
  let s := set_seed world_seed in
  let '(m, s) := next_long s in
  let m := Z.lor m 1 in
  let '(n, s) := next_long s in
  let n := Z.lor n 1 in
  let seed := Z.lxor (x * m + z * n) world_seed in
  (seed, set_seed seed).

(** [WorldgenRandom.set_feature_seed]. *)
Definition set_feature_seed (world_seed x z : Z) : rng :=
  let seed := world_seed + x + 10000 * z in
  set_seed seed.

(** [get_random_horizontal_direction]. *)
Definition get_random_horizontal_direction (fuel : nat) (s : rng) : result (Z * rng) :=
  next_int fuel 4 s.

(** Reading of a 32-bit signed sum as the host language computes it: keep
    the low 32 bits, then reinterpret (the idiom the source itself uses for
    64 bits in [set_large_feature_seed]). *)
Definition wrap32 (v : Z) : Z := _to_signed_int (Z.land v (Z.shiftl 1 32 - 1)).
Definition wrap64 (v : Z) : Z := _to_signed_long (Z.land v mask64).

End RandomSource.

(* ===================================================================== *)
(** ** fortress_locator.py *)
(* ===================================================================== *)

Module FortressLocator.
Import RandomSource.

Definition SPACING : Z := 27.
Definition SEPARATION : Z := 4.
Definition SALT : Z := 30084232.
Definition FORTRESS_WEIGHT : Z := 2.
Definition BASTION_WEIGHT : Z := 3.
Definition TOTAL_WEIGHT : Z := FORTRESS_WEIGHT + BASTION_WEIGHT.

(** [math.floor(chunk / SPACING)].  The source divides in floating point and
    floors the quotient.  For a chunk coordinate of at most 32 bits (the
    range of chunk coordinates) the correctly rounded quotient lies in the
    same unit interval as the exact one (a non-integer quotient is at least
    1/27 away from every integer), so the floor is the integer floor
    division written here.  The theorems about this function carry that
    range as a hypothesis. *)
Definition region_of (chunk : Z) : Z := chunk / SPACING.

(** [_is_fortress_at_chunk]: a fresh generator, large-feature seeded. *)
Definition _is_fortress_at_chunk (fuel : nat) (world_seed chunk_x chunk_z : Z)
  : result bool :=
  let selection_random := set_large_feature_seed world_seed chunk_x chunk_z in
  rbind (next_int fuel TOTAL_WEIGHT selection_random) (fun '(selected, _) =>
  Ok (selected <? FORTRESS_WEIGHT)).

(** [get_potential_fortress_chunk].  The locator's own generator is reseeded
    at the start of the call, so its previous state does not matter and is
    not an argument. *)
Definition get_potential_fortress_chunk (fuel : nat) (world_seed chunk_x chunk_z : Z)
  : result (Z * Z) :=
  let region_x := region_of chunk_x in
  let region_z := region_of chunk_z in
  let random := set_large_feature_with_salt world_seed region_x region_z SALT in
  let offset_range := SPACING - SEPARATION in
  rbind (next_int fuel offset_range random) (fun '(offset_x, random) =>
  rbind (next_int fuel offset_range random) (fun '(offset_z, random) =>
  let fortress_chunk_x := region_x * SPACING + offset_x in
  let fortress_chunk_z := region_z * SPACING + offset_z in
  Ok (fortress_chunk_x, fortress_chunk_z))).

(** [is_fortress_chunk]. *)
Definition is_fortress_chunk (fuel : nat) (world_seed chunk_x chunk_z : Z)
  : result bool :=
  rbind (get_potential_fortress_chunk fuel world_seed chunk_x chunk_z)
    (fun potential_chunk =>
  Ok ((fst potential_chunk =? chunk_x) && (snd potential_chunk =? chunk_z))).

(** [range(lo, hi)]. *)
Definition py_range (lo hi : Z) : list Z :=
  map (fun i => lo + Z.of_nat i) (seq 0 (Z.to_nat (hi - lo))).

(** A [for] loop whose body may raise: the accumulator is threaded through
    the iterations, the first exception ends the loop. *)
Fixpoint for_each {A B : Type} (l : list A) (acc : B) (body : B -> A -> result B)
  : result B :=
  match l with
  | [] => Ok acc
  | a :: l' => rbind (body acc a) (fun acc' => for_each l' acc' body)
  end.

(** The structure position of one region, as computed in the loop body of
    [find_fortresses_in_range]. *)
Definition structure_chunk_of_region (fuel : nat) (world_seed region_x region_z : Z)
  : result (Z * Z) :=
  let random := set_large_feature_with_salt world_seed region_x region_z SALT in
  let offset_range := SPACING - SEPARATION in
  rbind (next_int fuel offset_range random) (fun '(offset_x, random) =>
  rbind (next_int fuel offset_range random) (fun '(offset_z, random) =>
  let structure_chunk_x := region_x * SPACING + offset_x in
  let structure_chunk_z := region_z * SPACING + offset_z in
  Ok (structure_chunk_x, structure_chunk_z))).

(** [find_fortresses_in_range]: here, and only here, a candidate is kept
    only when [_is_fortress_at_chunk] says Fortress. *)
Definition find_fortresses_in_range (fuel : nat) (world_seed : Z)
    (center_chunk_x center_chunk_z radius_chunks : Z) : result (list (Z * Z)) :=
  let min_region_x := region_of (center_chunk_x - radius_chunks) in
  let max_region_x := region_of (center_chunk_x + radius_chunks) in
  let min_region_z := region_of (center_chunk_z - radius_chunks) in
  let max_region_z := region_of (center_chunk_z + radius_chunks) in
  for_each (py_range min_region_x (max_region_x + 1)) [] (fun fortresses region_x =>
  for_each (py_range min_region_z (max_region_z + 1)) fortresses (fun fortresses region_z =>
    rbind (structure_chunk_of_region fuel world_seed region_x region_z)
      (fun '(structure_chunk_x, structure_chunk_z) =>
    if (Z.abs (structure_chunk_x - center_chunk_x) <=? radius_chunks) &&
       (Z.abs (structure_chunk_z - center_chunk_z) <=? radius_chunks)
    then
      rbind (_is_fortress_at_chunk fuel world_seed structure_chunk_x structure_chunk_z)
        (fun is_fortress =>
      if is_fortress
      then Ok (fortresses ++ [(structure_chunk_x, structure_chunk_z)])
      else Ok fortresses)
    else Ok fortresses))).

(** [chunk_to_block]: the block coordinates of the chunk's corner. *)
Definition chunk_to_block (chunk_x chunk_z : Z) : Z * Z :=
  (chunk_x * 16, chunk_z * 16).

(** [block_to_chunk]; [>>] on Python integers is the arithmetic shift. *)
Definition block_to_chunk (block_x block_z : Z) : Z * Z :=
  (Z.shiftr block_x 4, Z.shiftr block_z 4).

End FortressLocator.

(* ===================================================================== *)
(** ** fortress_generator.py *)
(* ===================================================================== *)

Module FortressGenerator.
Import RandomSource.

Inductive Direction : Type := NORTH | EAST | SOUTH | WEST.

(** [Direction(v)]: the enum's lookup by value; raises ValueError for a value
    that is not a member. *)
Definition Direction_of_value (v : Z) : result Direction :=
  if v =? 0 then Ok NORTH
  else if v =? 1 then Ok EAST
  else if v =? 2 then Ok SOUTH
  else if v =? 3 then Ok WEST
  else ValueError.

Definition Direction_eqb (a b : Direction) : bool :=
  match a, b with
  | NORTH, NORTH | EAST, EAST | SOUTH, SOUTH | WEST, WEST => true
  | _, _ => false
  end.

Inductive PieceType : Type :=
| BRIDGE_STRAIGHT
| BRIDGE_CROSSING
| ROOM_CROSSING
| STAIRS_ROOM
| MONSTER_THRONE
| CASTLE_ENTRANCE
| BRIDGE_END_FILLER
| CASTLE_SMALL_CORRIDOR
| CASTLE_SMALL_CORRIDOR_CROSSING
| CASTLE_SMALL_CORRIDOR_RIGHT_TURN
| CASTLE_SMALL_CORRIDOR_LEFT_TURN
| CASTLE_CORRIDOR_STAIRS
| CASTLE_CORRIDOR_T_BALCONY
| CASTLE_STALK_ROOM
| START_PIECE.

Definition PieceType_eq_dec (a b : PieceType) : {a = b} + {a <> b}.
Proof. decide equality. Defined.

Definition PieceType_eqb (a b : PieceType) : bool :=
  if PieceType_eq_dec a b then true else false.

Record BoundingBox : Type := mkBox {
  min_x : Z; min_y : Z; min_z : Z;
  max_x : Z; max_y : Z; max_z : Z
}.

Definition BoundingBox_eqb (a b : BoundingBox) : bool :=
  (min_x a =? min_x b) && (min_y a =? min_y b) && (min_z a =? min_z b) &&
  (max_x a =? max_x b) && (max_y a =? max_y b) && (max_z a =? max_z b).

(** [BoundingBox.intersects]. *)
Definition intersects (self other : BoundingBox) : bool :=
  (max_x self >=? min_x other) && (min_x self <=? max_x other) &&
  (max_z self >=? min_z other) && (min_z self <=? max_z other) &&
  (max_y self >=? min_y other) && (min_y self <=? max_y other).

(** [BoundingBox.orient_box]. *)
Definition orient_box (x y z offset_x offset_y offset_z width height depth : Z)
    (direction : Direction) : BoundingBox :=
  match direction with
  | NORTH =>
      mkBox (x + offset_x) (y + offset_y) (z - depth + 1 + offset_z)
            (x + width - 1 + offset_x) (y + height - 1 + offset_y) (z + offset_z)
  | SOUTH =>
      mkBox (x + offset_x) (y + offset_y) (z + offset_z)
            (x + width - 1 + offset_x) (y + height - 1 + offset_y) (z + depth - 1 + offset_z)
  | WEST =>
      mkBox (x - depth + 1 + offset_z) (y + offset_y) (z + offset_x)
            (x + offset_z) (y + height - 1 + offset_y) (z + width - 1 + offset_x)
  | EAST =>
      mkBox (x + offset_z) (y + offset_y) (z + offset_x)
            (x + depth - 1 + offset_z) (y + height - 1 + offset_y) (z + width - 1 + offset_x)
  end.

(** [BoundingBox.make_bounding_box] (start piece only). *)
Definition make_bounding_box (x y z : Z) (direction : Direction)
    (width height depth : Z) : BoundingBox :=
  match direction with
  | NORTH | SOUTH => mkBox x y z (x + width - 1) (y + height - 1) (z + depth - 1)
  | EAST | WEST => mkBox x y z (x + depth - 1) (y + height - 1) (z + width - 1)
  end.

Record PieceWeight : Type := mkWeight {
  pw_piece_type : PieceType;
  weight : Z;
  max_place_count : Z;
  allow_in_row : bool;
  place_count : Z
}.

(** The dataclass's generated [__eq__]: field by field. *)
Definition PieceWeight_eqb (a b : PieceWeight) : bool :=
  PieceType_eqb (pw_piece_type a) (pw_piece_type b) &&
  (weight a =? weight b) && (max_place_count a =? max_place_count b) &&
  Bool.eqb (allow_in_row a) (allow_in_row b) && (place_count a =? place_count b).

Definition do_place (self : PieceWeight) (depth : Z) : bool :=
  (max_place_count self =? 0) || (place_count self <? max_place_count self).

Definition is_valid (self : PieceWeight) : bool :=
  (max_place_count self =? 0) || (place_count self <? max_place_count self).

Record StructurePiece : Type := mkPiece {
  piece_type : PieceType;
  bounding_box : BoundingBox;
  direction : Direction;
  gen_depth : Z
}.

Definition StructurePiece_eqb (a b : StructurePiece) : bool :=
  PieceType_eqb (piece_type a) (piece_type b) &&
  BoundingBox_eqb (bounding_box a) (bounding_box b) &&
  Direction_eqb (direction a) (direction b) &&
  (gen_depth a =? gen_depth b).

(** [StructurePiece.get_center]; [//] is floor division, as [Z.div]. *)
Definition get_center (self : StructurePiece) : Z * Z * Z :=
  ((min_x (bounding_box self) + max_x (bounding_box self)) / 2,
   (min_y (bounding_box self) + max_y (bounding_box self)) / 2,
   (min_z (bounding_box self) + max_z (bounding_box self)) / 2).

Definition MAX_DEPTH : Z := 30.
Definition LOWEST_Y_POSITION : Z := 10.
Definition MAGIC_START_Y : Z := 64.

Definition BRIDGE_PIECE_WEIGHTS : list PieceWeight :=
  [ mkWeight BRIDGE_STRAIGHT 30 0 true 0;
    mkWeight BRIDGE_CROSSING 10 4 false 0;
    mkWeight ROOM_CROSSING 10 4 false 0;
    mkWeight STAIRS_ROOM 10 3 false 0;
    mkWeight MONSTER_THRONE 5 2 false 0;
    mkWeight CASTLE_ENTRANCE 5 1 false 0 ].

Definition CASTLE_PIECE_WEIGHTS : list PieceWeight :=
  [ mkWeight CASTLE_SMALL_CORRIDOR 25 0 true 0;
    mkWeight CASTLE_SMALL_CORRIDOR_CROSSING 15 5 false 0;
    mkWeight CASTLE_SMALL_CORRIDOR_RIGHT_TURN 5 10 false 0;
    mkWeight CASTLE_SMALL_CORRIDOR_LEFT_TURN 5 10 false 0;
    mkWeight CASTLE_CORRIDOR_STAIRS 10 3 true 0;
    mkWeight CASTLE_CORRIDOR_T_BALCONY 7 2 false 0;
    mkWeight CASTLE_STALK_ROOM 5 2 false 0 ].

(** [PIECE_DIMENSIONS.get(piece_type)]: (width, height, depth). *)
Definition PIECE_DIMENSIONS (t : PieceType) : option (Z * Z * Z) :=
  match t with
  | BRIDGE_STRAIGHT => Some (5, 10, 19)
  | BRIDGE_CROSSING => Some (19, 10, 19)
  | ROOM_CROSSING => Some (7, 9, 7)
  | STAIRS_ROOM => Some (7, 11, 7)
  | MONSTER_THRONE => Some (7, 8, 9)
  | CASTLE_ENTRANCE => Some (13, 14, 13)
  | BRIDGE_END_FILLER => Some (5, 10, 8)
  | CASTLE_SMALL_CORRIDOR => Some (5, 7, 5)
  | CASTLE_SMALL_CORRIDOR_CROSSING => Some (5, 7, 5)
  | CASTLE_SMALL_CORRIDOR_RIGHT_TURN => Some (5, 7, 5)
  | CASTLE_SMALL_CORRIDOR_LEFT_TURN => Some (5, 7, 5)
  | CASTLE_CORRIDOR_STAIRS => Some (5, 14, 10)
  | CASTLE_CORRIDOR_T_BALCONY => Some (9, 7, 9)
  | CASTLE_STALK_ROOM => Some (13, 14, 13)
  | START_PIECE => Some (19, 10, 19)
  end.

(** [PIECE_OFFSETS.get(piece_type)]: (offset_x, offset_y, offset_z). *)
Definition PIECE_OFFSETS (t : PieceType) : option (Z * Z * Z) :=
  match t with
  | BRIDGE_STRAIGHT => Some (-1, -3, 0)
  | BRIDGE_CROSSING => Some (-8, -3, 0)
  | ROOM_CROSSING => Some (-2, 0, 0)
  | STAIRS_ROOM => Some (-2, 0, 0)
  | MONSTER_THRONE => Some (-2, 0, 0)
  | CASTLE_ENTRANCE => Some (-5, -3, 0)
  | BRIDGE_END_FILLER => Some (-1, -3, 0)
  | CASTLE_SMALL_CORRIDOR => Some (-1, 0, 0)
  | CASTLE_SMALL_CORRIDOR_CROSSING => Some (-1, 0, 0)
  | CASTLE_SMALL_CORRIDOR_RIGHT_TURN => Some (-1, 0, 0)
  | CASTLE_SMALL_CORRIDOR_LEFT_TURN => Some (-1, 0, 0)
  | CASTLE_CORRIDOR_STAIRS => Some (-1, -7, 0)
  | CASTLE_CORRIDOR_T_BALCONY => Some (-3, 0, 0)
  | CASTLE_STALK_ROOM => Some (-5, -3, 0)
  | START_PIECE => Some (-8, -3, 0)
  end.

(** *** The generator object

    The mutable fields of [FortressGenerator].  [previous_piece] refers to
    one of the weight objects; that object is only ever mutated
    ([place_count += 1]) immediately before [previous_piece] is set to it
    again, so the field always equals the object's current value and is
    kept here as that value.  It is only used through [==], which compares
    fields. *)
Record Generator : Type := mkGenerator {
  world_seed : Z;
  chunk_x : Z;
  chunk_z : Z;
  random : rng;
  pieces : list StructurePiece;
  pending_children : list StructurePiece;
  bridge_weights : list PieceWeight;
  castle_weights : list PieceWeight;
  previous_piece : option PieceWeight;
  start_bounding_box : option BoundingBox
}.

(** [__init__]; [WorldgenRandom(0)] seeds with 0. *)
Definition init (world_seed chunk_x chunk_z : Z) : Generator :=
  mkGenerator world_seed chunk_x chunk_z (set_seed 0) [] []
    (map (fun pw => mkWeight (pw_piece_type pw) (weight pw) (max_place_count pw)
                      (allow_in_row pw) 0) BRIDGE_PIECE_WEIGHTS)
    (map (fun pw => mkWeight (pw_piece_type pw) (weight pw) (max_place_count pw)
                      (allow_in_row pw) 0) CASTLE_PIECE_WEIGHTS)
    None None.

Definition set_random (r : rng) (g : Generator) : Generator :=
  mkGenerator (world_seed g) (chunk_x g) (chunk_z g) r (pieces g)
    (pending_children g) (bridge_weights g) (castle_weights g)
    (previous_piece g) (start_bounding_box g).

Definition set_pieces (l : list StructurePiece) (g : Generator) : Generator :=
  mkGenerator (world_seed g) (chunk_x g) (chunk_z g) (random g) l
    (pending_children g) (bridge_weights g) (castle_weights g)
    (previous_piece g) (start_bounding_box g).

Definition set_pending_children (l : list StructurePiece) (g : Generator) : Generator :=
  mkGenerator (world_seed g) (chunk_x g) (chunk_z g) (random g) (pieces g)
    l (bridge_weights g) (castle_weights g)
    (previous_piece g) (start_bounding_box g).

Definition set_previous_piece (p : option PieceWeight) (g : Generator) : Generator :=
  mkGenerator (world_seed g) (chunk_x g) (chunk_z g) (random g) (pieces g)
    (pending_children g) (bridge_weights g) (castle_weights g)
    p (start_bounding_box g).

Definition set_start_bounding_box (b : option BoundingBox) (g : Generator) : Generator :=
  mkGenerator (world_seed g) (chunk_x g) (chunk_z g) (random g) (pieces g)
    (pending_children g) (bridge_weights g) (castle_weights g)
    (previous_piece g) b.

(** [weights = self.castle_weights if is_castle else self.bridge_weights]:
    the list is passed by reference and mutated in place, so the model
    passes the flag that names it. *)
Definition weights_of (is_castle : bool) (g : Generator) : list PieceWeight :=
  if is_castle then castle_weights g else bridge_weights g.

Definition set_weights (is_castle : bool) (l : list PieceWeight) (g : Generator)
  : Generator :=
  if is_castle then
    mkGenerator (world_seed g) (chunk_x g) (chunk_z g) (random g) (pieces g)
      (pending_children g) (bridge_weights g) l
      (previous_piece g) (start_bounding_box g)
  else
    mkGenerator (world_seed g) (chunk_x g) (chunk_z g) (random g) (pieces g)
      (pending_children g) l (castle_weights g)
      (previous_piece g) (start_bounding_box g).

(** *** Stateful calls: a state-and-exception monad over [Generator]. *)
Definition M (A : Type) : Type := Generator -> result (A * Generator).

Definition ret {A : Type} (a : A) : M A := fun g => Ok (a, g).

Definition bind {A B : Type} (m : M A) (k : A -> M B) : M B :=
  fun g => match m g with
           | Ok (a, g') => k a g'
           | ValueError => ValueError
           | IndexError => IndexError
           | OutOfFuel => OutOfFuel
           end.

Notation "x <- m ;; k" := (bind m (fun x => k))
  (at level 61, m at next level, right associativity).
Notation "m ;;; k" := (bind m (fun _ => k))
  (at level 61, right associativity).

(** [list.pop(idx)]: negative indices count from the end; out of range
    raises IndexError. *)
Definition list_pop {A : Type} (l : list A) (idx : Z) : result (A * list A) :=
  let n := Z.of_nat (length l) in
  let i := if idx <? 0 then idx + n else idx in
  if (i <? 0) || (n <=? i) then IndexError
  else match nth_error l (Z.to_nat i) with
       | Some a => Ok (a, firstn (Z.to_nat i) l ++ skipn (S (Z.to_nat i)) l)
       | None => IndexError
       end.

(** [list.remove(x)]: drops the first element equal ([==]) to [x]; raises
    ValueError when there is none. *)
Fixpoint list_remove (x : PieceWeight) (l : list PieceWeight)
  : result (list PieceWeight) :=
  match l with
  | [] => ValueError
  | y :: l' => if PieceWeight_eqb y x then Ok l'
               else rbind (list_remove x l') (fun r => Ok (y :: r))
  end.

Section Generate.

(** Iteration budget handed to every [next_int] rejection loop. *)
Variable rf : nat.

(** [self.random.next_int(bound)]. *)
Definition random_next_int (bound : Z) : M Z :=
  fun g => match next_int rf bound (random g) with
           | Ok (v, r) => Ok (v, set_random r g)
           | ValueError => ValueError
           | IndexError => IndexError
           | OutOfFuel => OutOfFuel
           end.

Definition _is_ok_box (box : BoundingBox) : bool :=
  min_y box >? LOWEST_Y_POSITION.

Definition _find_collision (box : BoundingBox) (g : Generator) : bool :=
  existsb (fun piece => intersects (bounding_box piece) box) (pieces g).

Definition _create_piece (piece_type : PieceType) (x y z : Z)
    (direction : Direction) (depth : Z) (g : Generator) : option StructurePiece :=
  match PIECE_DIMENSIONS piece_type, PIECE_OFFSETS piece_type with
  | Some (d0, d1, d2), Some (o0, o1, o2) =>
      let box := orient_box x y z o0 o1 o2 d0 d1 d2 direction in
      if negb (_is_ok_box box) then None
      else if _find_collision box g then None
      else Some (mkPiece piece_type box direction depth)
  | _, _ => None
  end.

Definition _create_end_filler (x y z : Z) (direction : Direction) (depth : Z)
    (g : Generator) : option StructurePiece :=
  let box := orient_box x y z (-1) (-3) 0 5 10 8 direction in
  if negb (_is_ok_box box) then None
  else if _find_collision box g then None
  else Some (mkPiece BRIDGE_END_FILLER box direction depth).

(** [_update_piece_weight]. *)
Fixpoint _update_piece_weight_loop (weights : list PieceWeight)
    (has_valid : bool) (total : Z) : bool * Z :=
  match weights with
  | [] => (has_valid, total)
  | pw :: rest =>
      let has_valid :=
        if (max_place_count pw >? 0) && (place_count pw <? max_place_count pw)
        then true else has_valid in
      _update_piece_weight_loop rest has_valid (total + weight pw)
  end.

Definition _update_piece_weight (weights : list PieceWeight) : Z :=
  let '(has_valid, total) := _update_piece_weight_loop weights false 0 in
  if has_valid then total else -1.

(** [pw == self.previous_piece]. *)
Definition is_previous_piece (pw : PieceWeight) (g : Generator) : bool :=
  match previous_piece g with
  | Some prev => PieceWeight_eqb pw prev
  | None => false
  end.

(** The [for pw in weights] loop of [_generate_piece].  [seen] are the
    entries already passed, [todo] the rest, so that the list object is
    [seen ++ todo].  The result is [Some piece] when the loop body executes
    [return piece], and [None] when the loop is left by [break] or runs to
    its end. *)
Fixpoint for_weights (is_castle : bool) (seen todo : list PieceWeight)
    (target : Z) (x y z : Z) (direction : Direction) (depth : Z)
  : M (option StructurePiece) :=
  match todo with
  | [] => ret None
  | pw :: todo' =>
      let target := target - weight pw in
      if target <? 0 then
        if negb (do_place pw depth) then ret None
        else fun g =>
          if is_previous_piece pw g && negb (allow_in_row pw) then Ok (None, g)
          else match _create_piece (pw_piece_type pw) x y z direction depth g with
               | Some piece =>
                   let pw' := mkWeight (pw_piece_type pw) (weight pw)
                                (max_place_count pw) (allow_in_row pw)
                                (place_count pw + 1) in
                   let weights := seen ++ pw' :: todo' in
                   let g := set_previous_piece (Some pw') g in
                   if negb (is_valid pw') then
                     rbind (list_remove pw' weights) (fun weights =>
                     Ok (Some piece, set_weights is_castle weights g))
                   else Ok (Some piece, set_weights is_castle weights g)
               | None => Ok (None, g)
               end
      else for_weights is_castle (seen ++ [pw]) todo' target x y z direction depth
  end.

(** The [while attempts < 5 and can_place] loop, entered with [can_place]
    true; [remaining] is [5 - attempts]. *)
Fixpoint attempts_loop (remaining : nat) (is_castle : bool) (total_weight : Z)
    (x y z : Z) (direction : Direction) (depth : Z)
  : M (option StructurePiece) :=
  match remaining with
  | O => ret None
  | S remaining' =>
      target <- random_next_int total_weight ;;
      fun g =>
        (r <- for_weights is_castle [] (weights_of is_castle g) target
                x y z direction depth ;;
         match r with
         | Some piece => ret (Some piece)
         | None => attempts_loop remaining' is_castle total_weight
                     x y z direction depth
         end) g
  end.

(** [_generate_piece]. *)
Definition _generate_piece (is_castle : bool) (x y z : Z)
    (direction : Direction) (depth : Z) : M (option StructurePiece) :=
  fun g =>
    let total_weight := _update_piece_weight (weights_of is_castle g) in
    let can_place := (total_weight >? 0) && (depth <=? MAX_DEPTH) in
    (r <- (if can_place
           then attempts_loop 5 is_castle total_weight x y z direction depth
           else ret None) ;;
     match r with
     | Some piece => ret (Some piece)
     | None => fun g => Ok (_create_end_filler x y z direction depth g, g)
     end) g.

(** [_generate_and_add_piece]. *)
Definition _generate_and_add_piece (x y z : Z) (direction : Direction)
    (depth : Z) (is_castle : bool) : M (option StructurePiece) :=
  fun g =>
    let too_far :=
      match start_bounding_box g with
      | Some anchor =>
          (Z.abs (x - min_x anchor) >? 112) || (Z.abs (z - min_z anchor) >? 112)
      | None => false
      end in
    if too_far then Ok (None, g)
    else
      (piece <- _generate_piece is_castle x y z direction (depth + 1) ;;
       match piece with
       | Some p =>
           fun g =>
             let g := set_pieces (pieces g ++ [p]) g in
             let g := set_pending_children (pending_children g ++ [p]) g in
             Ok (Some p, g)
       | None => ret None
       end) g.

Definition _generate_child_forward (piece : StructurePiece)
    (offset_i offset_j : Z) (is_castle : bool) : M unit :=
  let direction := direction piece in
  let box := bounding_box piece in
  let '(x, y, z) :=
    match direction with
    | NORTH => (min_x box + offset_i, min_y box + offset_j, min_z box - 1)
    | SOUTH => (min_x box + offset_i, min_y box + offset_j, max_z box + 1)
    | WEST => (min_x box - 1, min_y box + offset_j, min_z box + offset_i)
    | EAST => (max_x box + 1, min_y box + offset_j, min_z box + offset_i)
    end in
  _generate_and_add_piece x y z direction (gen_depth piece) is_castle ;;; ret tt.

Definition _generate_child_left (piece : StructurePiece)
    (offset_i offset_j : Z) (is_castle : bool) : M unit :=
  let direction := direction piece in
  let box := bounding_box piece in
  let '(x, y, z, new_direction) :=
    match direction with
    | NORTH => (min_x box - 1, min_y box + offset_i, min_z box + offset_j, WEST)
    | SOUTH => (min_x box - 1, min_y box + offset_i, min_z box + offset_j, WEST)
    | WEST => (min_x box + offset_j, min_y box + offset_i, min_z box - 1, NORTH)
    | EAST => (min_x box + offset_j, min_y box + offset_i, min_z box - 1, NORTH)
    end in
  _generate_and_add_piece x y z new_direction (gen_depth piece) is_castle ;;; ret tt.

Definition _generate_child_right (piece : StructurePiece)
    (offset_i offset_j : Z) (is_castle : bool) : M unit :=
  let direction := direction piece in
  let box := bounding_box piece in
  let '(x, y, z, new_direction) :=
    match direction with
    | NORTH => (max_x box + 1, min_y box + offset_i, min_z box + offset_j, EAST)
    | SOUTH => (max_x box + 1, min_y box + offset_i, min_z box + offset_j, EAST)
    | WEST => (min_x box + offset_j, min_y box + offset_i, max_z box + 1, SOUTH)
    | EAST => (min_x box + offset_j, min_y box + offset_i, max_z box + 1, SOUTH)
    end in
  _generate_and_add_piece x y z new_direction (gen_depth piece) is_castle ;;; ret tt.

Definition _add_children_for_crossing (piece : StructurePiece) : M unit :=
  _generate_child_forward piece 8 3 false ;;;
  _generate_child_left piece 3 8 false ;;;
  _generate_child_right piece 3 8 false.

Definition _add_children_for_bridge_straight (piece : StructurePiece) : M unit :=
  _generate_child_forward piece 1 3 false.

Definition _add_children_for_room_crossing (piece : StructurePiece) : M unit :=
  _generate_child_forward piece 2 0 false ;;;
  _generate_child_left piece 0 2 false ;;;
  _generate_child_right piece 0 2 false.

Definition _add_children_for_stairs_room (piece : StructurePiece) : M unit :=
  _generate_child_right piece 6 2 false.

Definition _add_children_for_castle_entrance (piece : StructurePiece) : M unit :=
  _generate_child_forward piece 5 3 true.

Definition _add_children_for_castle_small_corridor (piece : StructurePiece) : M unit :=
  _generate_child_forward piece 1 0 true.

Definition _add_children_for_castle_small_corridor_crossing
    (piece : StructurePiece) : M unit :=
  _generate_child_forward piece 1 0 true ;;;
  _generate_child_left piece 0 1 true ;;;
  _generate_child_right piece 0 1 true.

Definition _add_children_for_castle_right_turn (piece : StructurePiece) : M unit :=
  _generate_child_right piece 0 1 true.

Definition _add_children_for_castle_left_turn (piece : StructurePiece) : M unit :=
  _generate_child_left piece 0 1 true.

Definition _add_children_for_castle_corridor_stairs (piece : StructurePiece) : M unit :=
  _generate_child_forward piece 1 0 true.

Definition _add_children_for_castle_t_balcony (piece : StructurePiece) : M unit :=
  let i := match direction piece with
           | WEST | NORTH => 5
           | _ => 1
           end in
  a <- random_next_int 8 ;;
  _generate_child_left piece 0 i (a >? 0) ;;;
  b <- random_next_int 8 ;;
  _generate_child_right piece 0 i (b >? 0).

Definition _add_children_for_castle_stalk_room (piece : StructurePiece) : M unit :=
  _generate_child_forward piece 5 3 true ;;;
  _generate_child_forward piece 5 11 true.

(** [_add_children]: the [if]/[elif] chain; a type with no branch
    (MonsterThrone, BridgeEndFiller) falls through and does nothing. *)
Definition _add_children (piece : StructurePiece) : M unit :=
  match piece_type piece with
  | START_PIECE | BRIDGE_CROSSING => _add_children_for_crossing piece
  | BRIDGE_STRAIGHT => _add_children_for_bridge_straight piece
  | ROOM_CROSSING => _add_children_for_room_crossing piece
  | STAIRS_ROOM => _add_children_for_stairs_room piece
  | CASTLE_ENTRANCE => _add_children_for_castle_entrance piece
  | CASTLE_SMALL_CORRIDOR => _add_children_for_castle_small_corridor piece
  | CASTLE_SMALL_CORRIDOR_CROSSING =>
      _add_children_for_castle_small_corridor_crossing piece
  | CASTLE_SMALL_CORRIDOR_RIGHT_TURN => _add_children_for_castle_right_turn piece
  | CASTLE_SMALL_CORRIDOR_LEFT_TURN => _add_children_for_castle_left_turn piece
  | CASTLE_CORRIDOR_STAIRS => _add_children_for_castle_corridor_stairs piece
  | CASTLE_CORRIDOR_T_BALCONY => _add_children_for_castle_t_balcony piece
  | CASTLE_STALK_ROOM => _add_children_for_castle_stalk_room piece
  | MONSTER_THRONE | BRIDGE_END_FILLER => ret tt
  end.

(** [_set_structure_seed]. *)
Definition _set_structure_seed (g : Generator) : Generator :=
  set_random (set_large_feature_seed (world_seed g) (chunk_x g) (chunk_z g)) g.

(** The [while self.pending_children] loop of [generate]; [fuel] bounds the
    number of iterations. *)
Fixpoint process_pending (fuel : nat) : M unit :=
  fun g =>
    match pending_children g with
    | [] => Ok (tt, g)
    | _ :: _ =>
        match fuel with
        | O => OutOfFuel
        | S fuel' =>
            (idx <- random_next_int (Z.of_nat (length (pending_children g))) ;;
             fun g =>
               match list_pop (pending_children g) idx with
               | Ok (piece, rest) =>
                   (_add_children piece ;;; process_pending fuel')
                     (set_pending_children rest g)
               | ValueError => ValueError
               | IndexError => IndexError
               | OutOfFuel => OutOfFuel
               end) g
        end
    end.

(** [generate], run on a freshly constructed generator; the result is
    [self.pieces]. *)
Definition generate_from (fuel : nat) (g : Generator) : result (list StructurePiece * Generator) :=
  let g := _set_structure_seed g in
  let start_x := chunk_x g * 16 + 2 in
  let start_z := chunk_z g * 16 + 2 in
  match get_random_horizontal_direction rf (random g) with
  | Ok (v, r) =>
      let g := set_random r g in
      rbind (Direction_of_value v) (fun start_direction =>
      let start_box :=
        make_bounding_box start_x MAGIC_START_Y start_z start_direction 19 10 19 in
      let start_piece := mkPiece START_PIECE start_box start_direction 0 in
      let g := set_pieces (pieces g ++ [start_piece]) g in
      let g := set_start_bounding_box (Some start_box) g in
      (_add_children_for_crossing start_piece ;;;
       process_pending fuel ;;;
       fun g => Ok (pieces g, g)) g)
  | ValueError => ValueError
  | IndexError => IndexError
  | OutOfFuel => OutOfFuel
  end.

End Generate.

(** [FortressGenerator(world_seed, chunk_x, chunk_z).generate()].  One budget
    serves both the main loop and the rejection loops of [next_int]. *)
Definition generate (fuel : nat) (world_seed chunk_x chunk_z : Z)
  : result (list StructurePiece) :=
  rbind (generate_from fuel fuel (init world_seed chunk_x chunk_z))
    (fun '(ps, _) => Ok ps).

(** [get_bridge_crossings], on a list of pieces. *)
Definition get_bridge_crossings (ps : list StructurePiece) : list StructurePiece :=
  filter (fun p => match piece_type p with
                   | BRIDGE_CROSSING | START_PIECE => true
                   | _ => false
                   end) ps.

End FortressGenerator.

(* ===================================================================== *)
(** ** crossing_detector.py *)
(* ===================================================================== *)

Module CrossingDetector.
Import FortressGenerator.

(** The detector receives a Python list of piece objects and distinguishes
    them both by value ([==], the dataclass's field-wise equality) and by
    identity ([id(c)]).  A list entry is therefore a reference: the address
    of the object together with the value stored there. *)
Record Ref : Type := mkRef {
  id : nat;
  obj : StructurePiece
}.

Definition box (c : Ref) : BoundingBox := bounding_box (obj c).

Record QuadCrossing : Type := mkQuad {
  crossings : list Ref;
  center : Z * Z * Z;
  quad_bounding_box : BoundingBox
}.

Definition CROSSING_SIZE : Z := 19.

(** [_is_directly_adjacent_x]. *)
Definition _is_directly_adjacent_x (box1 box2 : BoundingBox) : bool :=
  if negb (min_z box1 =? min_z box2) || negb (max_z box1 =? max_z box2) then false
  else if negb (min_y box1 =? min_y box2) || negb (max_y box1 =? max_y box2) then false
  else if min_x box2 =? max_x box1 + 1 then true
  else if min_x box1 =? max_x box2 + 1 then true
  else false.

(** [_is_directly_adjacent_z]. *)
Definition _is_directly_adjacent_z (box1 box2 : BoundingBox) : bool :=
  if negb (min_x box1 =? min_x box2) || negb (max_x box1 =? max_x box2) then false
  else if negb (min_y box1 =? min_y box2) || negb (max_y box1 =? max_y box2) then false
  else if min_z box2 =? max_z box1 + 1 then true
  else if min_z box1 =? max_z box2 + 1 then true
  else false.

Definition center_x (c : Z * Z * Z) : Z := fst (fst c).
Definition center_z (c : Z * Z * Z) : Z := snd c.

(** First loop of [_find_quad_from_corner]: one iteration updates
    [neighbors['right']] and [neighbors['down']]. *)
Definition neighbor_step (corner_crossing : Ref)
    (nb : option Ref * option Ref) (entry : (Z * Z * Z) * Ref)
  : option Ref * option Ref :=
  let '(nb_right, nb_down) := nb in
  let '(center, crossing) := entry in
  let corner_center := get_center (obj corner_crossing) in
  let corner_box := box corner_crossing in
  if StructurePiece_eqb (obj crossing) (obj corner_crossing) then (nb_right, nb_down)
  else
    let dx := center_x center - center_x corner_center in
    let dz := center_z center - center_z corner_center in
    let nb_right :=
      if (dx >? 0) && _is_directly_adjacent_x corner_box (box crossing) then
        match nb_right with
        | None => Some crossing
        | Some r =>
            if dx <? center_x (get_center (obj r)) - center_x corner_center
            then Some crossing else nb_right
        end
      else nb_right in
    let nb_down :=
      if (dz >? 0) && _is_directly_adjacent_z corner_box (box crossing) then
        match nb_down with
        | None => Some crossing
        | Some d =>
            if dz <? center_z (get_center (obj d)) - center_z corner_center
            then Some crossing else nb_down
        end
      else nb_down in
    (nb_right, nb_down).

(** Second loop: the first entry that is none of the three found so far and
    is directly adjacent to both the right and the down neighbour. *)
Fixpoint find_diagonal (corner_crossing nb_right nb_down : Ref)
    (all_crossings : list ((Z * Z * Z) * Ref)) : option Ref :=
  match all_crossings with
  | [] => None
  | (_, crossing) :: rest =>
      if existsb (fun c => StructurePiece_eqb (obj crossing) (obj c))
           [corner_crossing; nb_right; nb_down]
      then find_diagonal corner_crossing nb_right nb_down rest
      else if _is_directly_adjacent_z (box nb_right) (box crossing) &&
              _is_directly_adjacent_x (box nb_down) (box crossing)
      then Some crossing
      else find_diagonal corner_crossing nb_right nb_down rest
  end.

(** [min(... for c in crossings)] and [max(...)] over a non-empty list. *)
Definition py_min (first : Z) (rest : list Z) : Z := fold_left Z.min rest first.
Definition py_max (first : Z) (rest : list Z) : Z := fold_left Z.max rest first.

(** [_find_quad_from_corner]. *)
Definition _find_quad_from_corner (corner_crossing : Ref)
    (all_crossings : list ((Z * Z * Z) * Ref)) : option QuadCrossing :=
  let '(nb_right, nb_down) :=
    fold_left (neighbor_step corner_crossing) all_crossings (None, None) in
  match nb_right, nb_down with
  | Some nb_right, Some nb_down =>
      match find_diagonal corner_crossing nb_right nb_down all_crossings with
      | Some diagonal =>
          let cs := [nb_right; nb_down; diagonal] in
          let min_x' := py_min (min_x (box corner_crossing)) (map (fun c => min_x (box c)) cs) in
          let min_y' := py_min (min_y (box corner_crossing)) (map (fun c => min_y (box c)) cs) in
          let min_z' := py_min (min_z (box corner_crossing)) (map (fun c => min_z (box c)) cs) in
          let max_x' := py_max (max_x (box corner_crossing)) (map (fun c => max_x (box c)) cs) in
          let max_y' := py_max (max_y (box corner_crossing)) (map (fun c => max_y (box c)) cs) in
          let max_z' := py_max (max_z (box corner_crossing)) (map (fun c => max_z (box c)) cs) in
          let overall_box := mkBox min_x' min_y' min_z' max_x' max_y' max_z' in
          let center := ((min_x' + max_x') / 2, (min_y' + max_y') / 2,
                         (min_z' + max_z') / 2) in
          Some (mkQuad (corner_crossing :: cs) center overall_box)
      | None => None
      end
  | _, _ => None
  end.

(** [existing_set == new_set] on sets of object identities. *)
Definition id_set_eqb (a b : list nat) : bool :=
  forallb (fun i => existsb (Nat.eqb i) b) a &&
  forallb (fun i => existsb (Nat.eqb i) a) b.

(** [_is_duplicate_quad]. *)
Definition _is_duplicate_quad (quad : QuadCrossing) (existing : list QuadCrossing)
  : bool :=
  existsb (fun existing_quad =>
             id_set_eqb (map id (crossings existing_quad)) (map id (crossings quad)))
          existing.

(** [find_quad_crossings], for a detector built on [crossings]. *)
Definition find_quad_crossings (crossings : list Ref) : list QuadCrossing :=
  if (length crossings <? 4)%nat then []
  else
    let crossing_centers := map (fun c => (get_center (obj c), c)) crossings in
    fold_left (fun quad_crossings '(_, crossing1) =>
                 match _find_quad_from_corner crossing1 crossing_centers with
                 | Some quad =>
                     if negb (_is_duplicate_quad quad quad_crossings)
                     then quad_crossings ++ [quad]
                     else quad_crossings
                 | None => quad_crossings
                 end)
              crossing_centers [].

(** [_is_adjacent_x]: the looser test used for connectivity. *)
Definition _is_adjacent_x (box1 box2 : BoundingBox) : bool :=
  let z_overlap := (min_z box1 <=? max_z box2) && (max_z box1 >=? min_z box2) in
  if negb z_overlap then false
  else
    let gap := Z.min (Z.abs (max_x box1 - min_x box2))
                     (Z.abs (max_x box2 - min_x box1)) in
    gap <=? 25.

(** [_is_adjacent_z]. *)
Definition _is_adjacent_z (box1 box2 : BoundingBox) : bool :=
  let x_overlap := (min_x box1 <=? max_x box2) && (max_x box1 >=? min_x box2) in
  if negb x_overlap then false
  else
    let gap := Z.min (Z.abs (max_z box1 - min_z box2))
                     (Z.abs (max_z box2 - min_z box1)) in
    gap <=? 25.

(** [_are_connected]. *)
Definition _are_connected (c1 c2 : Ref) : bool :=
  _is_adjacent_x (box c1) (box c2) || _is_adjacent_z (box c1) (box c2).

(** [id(c) in visited]. *)
Definition in_visited (c : Ref) (visited : list nat) : bool :=
  existsb (Nat.eqb (id c)) visited.

(** [_dfs_connected].  [visited] and [group] are mutated in place and shared
    by all the recursive calls, so the pair is threaded through them.  The
    budget is the number of nested calls the interpreter allows: running out
    of it is Python's RecursionError. *)
Fixpoint _dfs_connected (depth : nat) (crossings : list Ref) (crossing : Ref)
    (st : list nat * list Ref) : result (list nat * list Ref) :=
  match depth with
  | O => OutOfFuel
  | S depth' =>
      let '(visited, group) := st in
      if in_visited crossing visited then Ok (visited, group)
      else
        FortressLocator.for_each crossings
          (id crossing :: visited, group ++ [crossing])
          (fun '(visited, group) other =>
             if in_visited other visited then Ok (visited, group)
             else if _are_connected crossing other
             then _dfs_connected depth' crossings other (visited, group)
             else Ok (visited, group))
  end.

(** [find_connected_crossings]. *)
Definition find_connected_crossings (depth : nat) (crossings : list Ref)
  : result (list (list Ref)) :=
  match crossings with
  | [] => Ok []
  | _ =>
      rbind (FortressLocator.for_each crossings ([], [])
               (fun '(visited, groups) crossing =>
                  if in_visited crossing visited then Ok (visited, groups)
                  else
                    rbind (_dfs_connected depth crossings crossing (visited, []))
                      (fun '(visited, group) =>
                    if (2 <=? length group)%nat
                    then Ok (visited, groups ++ [group])
                    else Ok (visited, groups))))
        (fun '(_, groups) => Ok groups)
  end.

(** The dictionary returned by [analyze_fortress_crossings]. *)
Record Analysis : Type := mkAnalysis {
  total_crossings : nat;
  quad_crossings : list QuadCrossing;
  connected_groups : list (list Ref);
  has_quad : bool
}.

(** [analyze_fortress_crossings]. *)
Definition analyze_fortress_crossings (depth : nat) (crossings : list Ref)
  : result Analysis :=
  let quads := find_quad_crossings crossings in
  rbind (find_connected_crossings depth crossings) (fun groups =>
  Ok (mkAnalysis (length crossings) quads groups (0 <? length quads)%nat)).

End CrossingDetector.

(* ===================================================================== *)
(** ** main.py *)
(* ===================================================================== *)

Module Main.
Import RandomSource FortressLocator FortressGenerator CrossingDetector.

(** The piece list of a generator as objects: every piece is created by its
    own constructor call and appended once, so the entries are distinct
    objects; the [k]-th one is given the address [n + k]. *)
Fixpoint objects_from (n : nat) (ps : list StructurePiece) : list Ref :=
  match ps with
  | [] => []
  | p :: ps' => mkRef n p :: objects_from (S n) ps'
  end.

(** [generator.get_bridge_crossings()]: the list comprehension returns the
    objects of [self.pieces] themselves. *)
Definition crossing_objects (ps : list StructurePiece) : list Ref :=
  filter (fun c => match piece_type (obj c) with
                   | BRIDGE_CROSSING | START_PIECE => true
                   | _ => false
                   end) (objects_from 0 ps).

(** One entry of the list returned by [find_quad_crossings_for_seed]. *)
Record QuadResult : Type := mkResult {
  fortress_chunk : Z * Z;
  fortress_block : Z * Z;
  quad_crossing : QuadCrossing;
  result_total_crossings : nat
}.

(** [find_quad_crossings_for_seed], without the printing.  [fuel] bounds the
    loops of the locator and the generator, [depth] the recursion of the
    detector. *)
Definition find_quad_crossings_for_seed (fuel depth : nat)
    (world_seed search_range center_x center_z : Z) : result (list QuadResult) :=
  let center_chunk_x := Z.shiftr center_x 4 in
  let center_chunk_z := Z.shiftr center_z 4 in
  let range_chunks := Z.shiftr search_range 4 in
  rbind (find_fortresses_in_range fuel world_seed center_chunk_x center_chunk_z
           range_chunks) (fun fortresses =>
  for_each fortresses [] (fun results '(chunk_x, chunk_z) =>
    rbind (generate fuel world_seed chunk_x chunk_z) (fun pieces =>
    let crossings := crossing_objects pieces in
    rbind (analyze_fortress_crossings depth crossings) (fun analysis =>
    if has_quad analysis then
      Ok (results ++
          map (fun quad =>
                 let block_x := chunk_x * 16 in
                 let block_z := chunk_z * 16 in
                 mkResult (chunk_x, chunk_z) (block_x, block_z) quad
                          (total_crossings analysis))
              (quad_crossings analysis))
    else Ok results)))).

End Main.

(* ===================================================================== *)
(** * Properties of the random source *)
(* ===================================================================== *)

Module RandomSourceProps.
Import RandomSource.

Lemma mask_mod (v : Z) : Z.land v MODULUS_MASK = v mod 2 ^ 48.
Proof.
  unfold MODULUS_MASK. change (Z.shiftl 1 48 - 1) with (Z.ones 48).
  apply Z.land_ones. lia.
Qed.

Lemma mask64_mod (v : Z) : Z.land v mask64 = v mod 2 ^ 64.
Proof.
  unfold mask64. change (Z.shiftl 1 64 - 1) with (Z.ones 64).
  apply Z.land_ones. lia.
Qed.

Lemma next_range (bits : Z) (s : rng) :
  0 <= bits <= 48 -> 0 <= fst (next bits s) < 2 ^ bits.
Proof.
  intros Hb. unfold next. cbn [fst]. rewrite mask_mod.
  rewrite Z.shiftr_div_pow2 by lia.
  assert (Hm : 0 <= (s * MULTIPLIER + INCREMENT) mod 2 ^ 48 < 2 ^ 48)
    by (apply Z.mod_pos_bound; lia).
  assert (Hp : 0 < 2 ^ (48 - bits)) by (apply Z.pow_pos_nonneg; lia).
  split.
  - apply Z.div_pos; lia.
  - apply Z.div_lt_upper_bound; [lia|].
    rewrite <- Z.pow_add_r by lia.
    replace (48 - bits + bits) with 48 by lia. lia.
Qed.

(** The rejection test of the source is evaluated on unbounded integers:
    with [0 <= val <= bits] and [bound >= 1] it can never fail, so the loop
    returns in its first iteration whatever the bound. *)
Lemma next_int_loop_first (fuel : nat) (bound : Z) (s : rng) :
  0 < bound ->
  next_int_loop (S fuel) bound s
  = Ok (fst (next 31 s) mod bound, snd (next 31 s)).
Proof.
  intros Hb. cbn [next_int_loop].
  pose proof (next_range 31 s ltac:(lia)) as Hr.
  destruct (next 31 s) as [bits s1]. cbn [fst snd] in *.
  pose proof (Z.mod_pos_bound bits bound Hb) as Hm.
  assert (Hle : bits mod bound <= bits) by (apply Z.mod_le; lia).
  destruct (Z.geb_spec (bits - bits mod bound + (bound - 1)) 0); [reflexivity | lia].
Qed.

(** With a positive bound and a non-empty budget [next_int] returns a value
    in [[0, bound)]. *)
Lemma next_int_ok (fuel : nat) (bound : Z) (s : rng) :
  0 < bound ->
  exists v s', next_int (S fuel) bound s = Ok (v, s') /\ 0 <= v < bound.
Proof.
  intros Hb. unfold next_int.
  destruct (Z.leb_spec bound 0); [lia|].
  destruct (Z.land bound (bound - 1) =? 0).
  - pose proof (next_range 31 s ltac:(lia)) as Hr.
    destruct (next 31 s) as [bits s1]. cbn [fst] in Hr.
    eexists _, _. split; [reflexivity|].
    rewrite Z.shiftr_div_pow2 by lia. split.
    + apply Z.div_pos; [nia | lia].
    + apply Z.div_lt_upper_bound; [lia | nia].
  - rewrite next_int_loop_first by assumption.
    eexists _, _. split; [reflexivity|]. apply Z.mod_pos_bound. assumption.
Qed.

(** Whatever the budget, [next_int] with a positive bound raises nothing; it
    can only stop for lack of budget when the budget is zero. *)
Lemma next_int_safe (fuel : nat) (bound : Z) (s : rng) :
  0 < bound ->
  match next_int fuel bound s with
  | Ok (v, _) => 0 <= v < bound
  | OutOfFuel => fuel = O
  | ValueError | IndexError => False
  end.
Proof.
  intros Hb. destruct fuel as [|n].
  - unfold next_int. destruct (Z.leb_spec bound 0); [lia|].
    destruct (Z.land bound (bound - 1) =? 0); [|reflexivity].
    pose proof (next_range 31 s ltac:(lia)) as Hr.
    destruct (next 31 s) as [bits s1]. cbn [fst] in Hr.
    rewrite Z.shiftr_div_pow2 by lia. split.
    + apply Z.div_pos; [nia | lia].
    + apply Z.div_lt_upper_bound; [lia | nia].
  - destruct (next_int_ok n bound s Hb) as (v & s' & -> & Hv). exact Hv.
Qed.

Lemma wrap64_range (v : Z) : - 2 ^ 63 <= wrap64 v < 2 ^ 63.
Proof.
  unfold wrap64, _to_signed_long. rewrite mask64_mod.
  pose proof (Z.mod_pos_bound v (2 ^ 64) ltac:(lia)) as H.
  change (Z.shiftl 1 63) with (2 ^ 63). change (Z.shiftl 1 64) with (2 ^ 64).
  destruct (Z.geb_spec (v mod 2 ^ 64) (2 ^ 63)); lia.
Qed.

Lemma wrap64_mod (v : Z) : wrap64 v mod 2 ^ 64 = v mod 2 ^ 64.
Proof.
  unfold wrap64, _to_signed_long. rewrite mask64_mod.
  change (Z.shiftl 1 63) with (2 ^ 63). change (Z.shiftl 1 64) with (2 ^ 64).
  destruct (Z.geb_spec (v mod 2 ^ 64) (2 ^ 63)).
  - replace (v mod 2 ^ 64 - 2 ^ 64) with (v mod 2 ^ 64 + (-1) * 2 ^ 64) by lia.
    rewrite Z.mod_add by lia. apply Z.mod_mod. lia.
  - apply Z.mod_mod. lia.
Qed.

Lemma wrap64_congr (a b : Z) :
  a mod 2 ^ 64 = b mod 2 ^ 64 -> wrap64 a = wrap64 b.
Proof.
  intros H. unfold wrap64. rewrite !mask64_mod, H. reflexivity.
Qed.

(** The rejection loop as the specification words it: the sum
    [bits - val + (bound - 1)] is read as a wrapping signed 32-bit integer,
    and a negative reading rejects the draw. *)
Fixpoint next_int_loop_int32 (fuel : nat) (bound : Z) (s : rng) : result (Z * rng) :=
  match fuel with
  | O => OutOfFuel
  | S fuel' =>
      let '(bits, s1) := next 31 s in
      let val := bits mod bound in
      if wrap32 (bits - val + (bound - 1)) >=? 0 then Ok (val, s1)
      else next_int_loop_int32 fuel' bound s1
  end.

(** C3 (fails on the code).  On the generator seeded with 142379987759401 the
    first [next(31)] is 2147483647; for [bound = 5] the sum
    [bits - val + (bound - 1)] is 2147483649, negative as a 32-bit integer.
    The 32-bit rule rejects this draw and returns the next one (value 3), but
    [next_int] accepts it and returns 2, one draw earlier. *)
Theorem next_int_accepts_where_int32_rejects :
  let s0 := set_seed 142379987759401 in
  let bits := fst (next 31 s0) in
  let val := bits mod 5 in
  bits = 2147483647 /\
  wrap32 (bits - val + (5 - 1)) < 0 /\
  next_int 2 5 s0 = Ok (val, snd (next 31 s0)) /\
  next_int_loop_int32 2 5 s0
    = Ok (fst (next 31 (snd (next 31 s0))) mod 5, snd (next 31 (snd (next 31 s0)))) /\
  next_int 2 5 s0 <> next_int_loop_int32 2 5 s0.
Proof.
  cbv zeta. repeat split; try (vm_compute; reflexivity).
  vm_compute. discriminate.
Qed.

(** C4.  [next_long] draws [high = next(32)] and then [low = next(32)], and
    returns the wrapping signed 64-bit sum of [high] (as a signed 32-bit
    integer widened to 64 bits) shifted left by 32 and [low] sign-extended;
    the value lies in the signed 64-bit range, and differs from what
    zero-extending [low] gives whenever [low] has its top bit set. *)
Theorem next_long_sign_extends (s : rng) :
  let high := fst (next 32 s) in
  let s1 := snd (next 32 s) in
  let low := fst (next 32 s1) in
  let s2 := snd (next 32 s1) in
  next_long s
    = (wrap64 (wrap64 (Z.shiftl (_to_signed_int high) 32) + _to_signed_int low), s2) /\
  - 2 ^ 63 <= fst (next_long s) < 2 ^ 63 /\
  (2 ^ 31 <= low -> fst (next_long s) <> wrap64 (Z.shiftl high 32 + low)).
Proof.
  cbv zeta. unfold next_long.
  destruct (next 32 s) as [high s1] eqn:E1. cbn [fst snd].
  destruct (next 32 s1) as [low s2] eqn:E2. cbn [fst snd].
  fold mask64. fold (wrap64 (Z.shiftl high 32 + _to_signed_int low)).
  assert (Hcongr :
    wrap64 (Z.shiftl high 32 + _to_signed_int low)
    = wrap64 (wrap64 (Z.shiftl (_to_signed_int high) 32) + _to_signed_int low)).
  { apply wrap64_congr.
    rewrite (Z.add_mod (wrap64 _)) by lia. rewrite wrap64_mod.
    rewrite <- Z.add_mod by lia.
    rewrite !Z.shiftl_mul_pow2 by lia.
    unfold _to_signed_int. change (Z.shiftl 1 31) with (2 ^ 31).
    change (Z.shiftl 1 32) with (2 ^ 32).
    destruct (high >=? 2 ^ 31); [|reflexivity].
    replace ((high - 2 ^ 32) * 2 ^ 32 + (if low >=? 2 ^ 31 then low - 2 ^ 32 else low))
      with (high * 2 ^ 32 + (if low >=? 2 ^ 31 then low - 2 ^ 32 else low)
            + (-1) * 2 ^ 64) by lia.
    rewrite Z.mod_add by lia. reflexivity. }
  split; [rewrite Hcongr; reflexivity|].
  split; [apply wrap64_range|].
  intros Hlow Heq.
  apply (f_equal (fun v => v mod 2 ^ 64)) in Heq. rewrite !wrap64_mod in Heq.
  unfold _to_signed_int in Heq. change (Z.shiftl 1 31) with (2 ^ 31) in Heq.
  change (Z.shiftl 1 32) with (2 ^ 32) in Heq.
  destruct (Z.geb_spec low (2 ^ 31)); [|lia].
  set (a := Z.shiftl high 32 + low) in *.
  replace (Z.shiftl high 32 + (low - 2 ^ 32)) with (a - 2 ^ 32) in Heq by (unfold a; lia).
  pose proof (Z.div_mod a (2 ^ 64) ltac:(lia)) as Ha.
  pose proof (Z.div_mod (a - 2 ^ 32) (2 ^ 64) ltac:(lia)) as Hb.
  rewrite Heq in Hb.
  assert (H32 : 2 ^ 32 = 2 ^ 64 * (a / 2 ^ 64 - (a - 2 ^ 32) / 2 ^ 64)) by lia.
  assert (Hzz : a / 2 ^ 64 - (a - 2 ^ 32) / 2 ^ 64 = 0 \/
                a / 2 ^ 64 - (a - 2 ^ 32) / 2 ^ 64 <> 0) by lia.
  destruct Hzz as [Hz | Hz]; [rewrite Hz in H32; lia | nia].
Qed.

(** On the generator seeded with 0 the second draw is 3571011896, with its
    top bit set: the result differs from the zero-extended sum. *)
Lemma next_long_sign_extends_witness :
  let s := set_seed 0 in
  2 ^ 31 <= fst (next 32 (snd (next 32 s))) /\
  fst (next_long s)
    <> wrap64 (Z.shiftl (fst (next 32 s)) 32 + fst (next 32 (snd (next 32 s)))).
Proof.
  cbv zeta. split.
  - vm_compute. discriminate.
  - apply (next_long_sign_extends (set_seed 0)). vm_compute. discriminate.
Defined.

Example next_long_seed0 :
  next_long (set_seed 0) = (-4962768465676381896, 234029835660143).
Proof. vm_compute. reflexivity. Qed.

End RandomSourceProps.

(* ===================================================================== *)
(** * Properties of the locator *)
(* ===================================================================== *)

Module FortressLocatorProps.
Import RandomSource FortressLocator.

(** Chunk coordinates are signed 32-bit integers. *)
Definition chunk_coordinate (c : Z) : Prop := - 2 ^ 31 <= c < 2 ^ 31.

Definition chunk_eqb (a b : Z * Z) : bool :=
  (fst a =? fst b) && (snd a =? snd b).

Lemma chunk_eqb_eq (a b : Z * Z) : chunk_eqb a b = true <-> a = b.
Proof.
  destruct a as [a1 a2], b as [b1 b2]. unfold chunk_eqb. cbn [fst snd].
  rewrite andb_true_iff, !Z.eqb_eq. split.
  - intros [-> ->]. reflexivity.
  - intros H. injection H as -> ->. split; reflexivity.
Qed.

(** The candidate of a region is always produced, and lies in the first
    23 x 23 chunks of the region. *)
Lemma structure_chunk_of_region_ok (fuel : nat) (world_seed rx rz : Z) :
  exists ox oz,
    structure_chunk_of_region (S fuel) world_seed rx rz
      = Ok (rx * SPACING + ox, rz * SPACING + oz) /\
    0 <= ox < 23 /\ 0 <= oz < 23.
Proof.
  unfold structure_chunk_of_region.
  set (r0 := set_large_feature_with_salt world_seed rx rz SALT).
  destruct (RandomSourceProps.next_int_ok fuel (SPACING - SEPARATION) r0 ltac:(reflexivity))
    as (ox & r1 & E1 & Hx).
  rewrite E1. cbn [rbind].
  destruct (RandomSourceProps.next_int_ok fuel (SPACING - SEPARATION) r1 ltac:(reflexivity))
    as (oz & r2 & E2 & Hz).
  rewrite E2. cbn [rbind].
  exists ox, oz. unfold SPACING, SEPARATION in *. repeat split; lia.
Qed.

(** C10.  For a chunk [(cx, cz)], [is_fortress_chunk] returns, and returns
    True exactly when the salted candidate chunk of the region containing
    the chunk is [(cx, cz)] itself.  The Fortress-versus-Bastion classifier
    has no part in it: the answer is True also when the classifier labels
    that candidate Bastion. *)
Theorem is_fortress_chunk_iff_candidate (fuel : nat) (world_seed cx cz : Z)
    (Hx : chunk_coordinate cx) (Hz : chunk_coordinate cz) :
  (exists candidate,
     structure_chunk_of_region (S fuel) world_seed (region_of cx) (region_of cz)
       = Ok candidate /\
     is_fortress_chunk (S fuel) world_seed cx cz = Ok (chunk_eqb candidate (cx, cz)) /\
     (is_fortress_chunk (S fuel) world_seed cx cz = Ok true <-> candidate = (cx, cz))) /\
  (structure_chunk_of_region (S fuel) world_seed (region_of cx) (region_of cz)
     = Ok (cx, cz) ->
   _is_fortress_at_chunk (S fuel) world_seed cx cz = Ok false ->
   is_fortress_chunk (S fuel) world_seed cx cz = Ok true).
Proof.
  assert (Hget : get_potential_fortress_chunk (S fuel) world_seed cx cz
                 = structure_chunk_of_region (S fuel) world_seed
                     (region_of cx) (region_of cz)) by reflexivity.
  destruct (structure_chunk_of_region_ok fuel world_seed (region_of cx) (region_of cz))
    as (ox & oz & E & _ & _).
  assert (His : is_fortress_chunk (S fuel) world_seed cx cz
                = Ok (chunk_eqb (region_of cx * SPACING + ox,
                                 region_of cz * SPACING + oz) (cx, cz))).
  { unfold is_fortress_chunk. rewrite Hget, E. reflexivity. }
  split.
  - eexists. split; [exact E|]. split; [exact His|].
    rewrite His. rewrite <- chunk_eqb_eq. split.
    + intros H. injection H as H. exact H.
    + intros ->. reflexivity.
  - intros Hc _. rewrite His. rewrite E in Hc. injection Hc as -> ->.
    unfold chunk_eqb. cbn [fst snd]. rewrite !Z.eqb_refl. reflexivity.
Qed.

(** World seed 12345: the candidate of region (0, 0) is chunk (12, 20), which
    the classifier labels Bastion. *)
Lemma is_fortress_chunk_iff_candidate_witness :
  _is_fortress_at_chunk 1 12345 12 20 = Ok false /\
  is_fortress_chunk 1 12345 12 20 = Ok true.
Proof.
  split; [vm_compute; reflexivity|].
  apply (is_fortress_chunk_iff_candidate 0 12345 12 20).
  - unfold chunk_coordinate. lia.
  - unfold chunk_coordinate. lia.
  - vm_compute. reflexivity.
  - vm_compute. reflexivity.
Defined.

(** The candidate chunk of every region passes [is_fortress_chunk]. *)
Lemma candidate_is_fortress_chunk (fuel : nat) (world_seed rx rz cx cz : Z) :
  structure_chunk_of_region (S fuel) world_seed rx rz = Ok (cx, cz) ->
  is_fortress_chunk (S fuel) world_seed cx cz = Ok true.
Proof.
  intros Hc.
  destruct (structure_chunk_of_region_ok fuel world_seed rx rz)
    as (ox & oz & E & Hox & Hoz).
  rewrite E in Hc. injection Hc as <- <-.
  assert (Hrx : region_of (rx * SPACING + ox) = rx).
  { unfold region_of, SPACING. symmetry. apply (Z.div_unique _ 27 rx ox); lia. }
  assert (Hrz : region_of (rz * SPACING + oz) = rz).
  { unfold region_of, SPACING. symmetry. apply (Z.div_unique _ 27 rz oz); lia. }
  unfold is_fortress_chunk, get_potential_fortress_chunk.
  rewrite Hrx, Hrz.
  unfold structure_chunk_of_region in E.
  destruct (next_int (S fuel) (SPACING - SEPARATION)
              (set_large_feature_with_salt world_seed rx rz SALT))
    as [[v1 r1]| | |]; try discriminate.
  cbn [rbind] in *.
  destruct (next_int (S fuel) (SPACING - SEPARATION) r1)
    as [[v2 r2]| | |]; try discriminate.
  cbn [rbind fst snd] in *. injection E as E1 E2.
  rewrite E1, E2, !Z.eqb_refl. reflexivity.
Qed.

End FortressLocatorProps.

(* ===================================================================== *)
(** * Properties of the generator *)
(* ===================================================================== *)

Module FortressGeneratorProps.
Import RandomSource FortressGenerator.

(** ** Outcomes of stateful calls

    [safe rf r Post]: the call returned and [Post] holds of its value and
    final state, or it ran out of budget, which only happens when the
    [next_int] budget [rf] is zero.  No exception is raised. *)
Definition safe {A : Type} (rf : nat) (r : result (A * Generator))
    (Post : A -> Generator -> Prop) : Prop :=
  match r with
  | Ok (a, g') => Post a g'
  | OutOfFuel => rf = O
  | ValueError | IndexError => False
  end.

Lemma safe_bind {A B : Type} (rf : nat) (m : M A) (k : A -> M B) (g : Generator)
    (P : A -> Generator -> Prop) (Q : B -> Generator -> Prop) :
  safe rf (m g) P ->
  (forall a g', P a g' -> safe rf (k a g') Q) ->
  safe rf (bind m k g) Q.
Proof.
  intros Hm Hk. unfold bind. unfold safe in Hm.
  destruct (m g) as [[a g'] | | |]; cbn; auto.
Qed.

Lemma safe_weaken {A : Type} (rf : nat) (r : result (A * Generator))
    (P Q : A -> Generator -> Prop) :
  safe rf r P -> (forall a g', P a g' -> Q a g') -> safe rf r Q.
Proof.
  unfold safe. destruct r as [[a g'] | | |]; auto.
Qed.

Lemma safe_ok {A : Type} (rf : nat) (r : result (A * Generator))
    (P : A -> Generator -> Prop) :
  safe (S rf) r P -> exists a g', r = Ok (a, g') /\ P a g'.
Proof.
  unfold safe. destruct r as [[a g'] | | |]; try contradiction; try discriminate.
  intros H. exists a, g'. auto.
Qed.

Lemma safe_inv {A : Type} (rf : nat) (r : result (A * Generator))
    (P : A -> Generator -> Prop) (a : A) (g' : Generator) :
  safe rf r P -> r = Ok (a, g') -> P a g'.
Proof. intros H ->. exact H. Qed.

(** ** Frame: what a call leaves alone *)

(** The piece list, the pending list and the anchor are untouched. *)
Definition same_lists (g g' : Generator) : Prop :=
  pieces g' = pieces g /\
  pending_children g' = pending_children g /\
  start_bounding_box g' = start_bounding_box g.

Lemma same_lists_refl (g : Generator) : same_lists g g.
Proof. repeat split. Qed.

Lemma same_lists_trans (g1 g2 g3 : Generator) :
  same_lists g1 g2 -> same_lists g2 g3 -> same_lists g1 g3.
Proof.
  unfold same_lists. intros (A1 & A2 & A3) (B1 & B2 & B3).
  repeat split; congruence.
Qed.

Lemma random_next_int_safe (rf : nat) (bound : Z) (g : Generator) :
  0 < bound ->
  safe rf (random_next_int rf bound g)
    (fun v g' => 0 <= v < bound /\ g' = set_random (random g') g).
Proof.
  intros Hb. unfold random_next_int.
  pose proof (RandomSourceProps.next_int_safe rf bound (random g) Hb) as H.
  destruct (next_int rf bound (random g)) as [[v s'] | | |]; cbn; auto.
Qed.

Lemma set_random_same_lists (r : rng) (g : Generator) : same_lists g (set_random r g).
Proof. repeat split. Qed.

(** ** Equality tests *)

Lemma PieceType_eqb_refl (t : PieceType) : PieceType_eqb t t = true.
Proof. unfold PieceType_eqb. destruct (PieceType_eq_dec t t); congruence. Qed.

Lemma PieceWeight_eqb_refl (pw : PieceWeight) : PieceWeight_eqb pw pw = true.
Proof.
  unfold PieceWeight_eqb.
  rewrite PieceType_eqb_refl, !Z.eqb_refl, Bool.eqb_reflx. reflexivity.
Qed.

Lemma list_remove_member (x : PieceWeight) (l1 l2 : list PieceWeight) :
  exists l', list_remove x (l1 ++ x :: l2) = Ok l'.
Proof.
  induction l1 as [|y l1 IH]; cbn [app list_remove].
  - rewrite PieceWeight_eqb_refl. eauto.
  - destruct (PieceWeight_eqb y x); [eauto|].
    destruct IH as [l' ->]. cbn. eauto.
Qed.

(** ** Piece creation *)

Lemma _find_collision_false (b : BoundingBox) (g : Generator) :
  _find_collision b g = false <->
  forall q, In q (pieces g) -> intersects (bounding_box q) b = false.
Proof.
  unfold _find_collision. split.
  - intros H q Hq. destruct (intersects (bounding_box q) b) eqn:E; [|reflexivity].
    assert (Hex : existsb (fun piece => intersects (bounding_box piece) b) (pieces g) = true)
      by (apply existsb_exists; eauto).
    congruence.
  - intros H. destruct (existsb _ (pieces g)) eqn:E; [|reflexivity].
    apply existsb_exists in E. destruct E as (q & Hq & Hi).
    rewrite (H q Hq) in Hi. discriminate.
Qed.

Lemma _create_piece_some (t : PieceType) (x y z : Z) (d : Direction) (depth : Z)
    (g : Generator) (p : StructurePiece) :
  _create_piece t x y z d depth g = Some p ->
  piece_type p = t /\ gen_depth p = depth /\ direction p = d /\
  _is_ok_box (bounding_box p) = true /\
  _find_collision (bounding_box p) g = false.
Proof.
  unfold _create_piece.
  destruct (PIECE_DIMENSIONS t) as [[[d0 d1] d2]|]; [|discriminate].
  destruct (PIECE_OFFSETS t) as [[[o0 o1] o2]|]; [|discriminate].
  destruct (_is_ok_box _) eqn:Eok; cbn [negb]; [|discriminate].
  destruct (_find_collision _ g) eqn:Ec; [discriminate|].
  intros H. injection H as <-. cbn. auto.
Qed.

Lemma _create_end_filler_some (x y z : Z) (d : Direction) (depth : Z)
    (g : Generator) (p : StructurePiece) :
  _create_end_filler x y z d depth g = Some p ->
  piece_type p = BRIDGE_END_FILLER /\ gen_depth p = depth /\ direction p = d /\
  _is_ok_box (bounding_box p) = true /\
  _find_collision (bounding_box p) g = false.
Proof.
  unfold _create_end_filler.
  destruct (_is_ok_box _) eqn:Eok; cbn [negb]; [|discriminate].
  destruct (_find_collision _ g) eqn:Ec; [discriminate|].
  intros H. injection H as <-. cbn. auto.
Qed.

(** The collision test only reads the piece list. *)
Lemma _find_collision_same (b : BoundingBox) (g g' : Generator) :
  pieces g' = pieces g -> _find_collision b g' = _find_collision b g.
Proof. unfold _find_collision. intros ->. reflexivity. Qed.

Lemma _create_piece_same (t : PieceType) (x y z : Z) (d : Direction) (depth : Z)
    (g g' : Generator) :
  pieces g' = pieces g ->
  _create_piece t x y z d depth g' = _create_piece t x y z d depth g.
Proof.
  intros H. unfold _create_piece.
  destruct (PIECE_DIMENSIONS t) as [[[d0 d1] d2]|]; [|reflexivity].
  destruct (PIECE_OFFSETS t) as [[[o0 o1] o2]|]; [|reflexivity].
  rewrite (_find_collision_same _ g g' H). reflexivity.
Qed.

Lemma _create_end_filler_same (x y z : Z) (d : Direction) (depth : Z)
    (g g' : Generator) :
  pieces g' = pieces g ->
  _create_end_filler x y z d depth g' = _create_end_filler x y z d depth g.
Proof.
  intros H. unfold _create_end_filler.
  rewrite (_find_collision_same _ g g' H). reflexivity.
Qed.

(** One scan of the weight list: it never raises; when it places nothing the
    generator is exactly as before; when it places a piece, that piece was
    created against the current piece list, and only the weight list and the
    last-placed entry change. *)
Lemma for_weights_safe (rf : nat) (is_castle : bool) (x y z : Z) (d : Direction)
    (depth : Z) (todo : list PieceWeight) :
  forall (seen : list PieceWeight) (target : Z) (g : Generator),
  safe rf (for_weights is_castle seen todo target x y z d depth g)
    (fun r g' =>
       same_lists g g' /\ random g' = random g /\
       match r with
       | Some p => exists pw, In pw todo /\
                     _create_piece (pw_piece_type pw) x y z d depth g = Some p
       | None => g' = g
       end).
Proof.
  induction todo as [|pw todo IH]; intros seen target g; cbn [for_weights].
  - cbn. auto using same_lists_refl.
  - destruct (target - weight pw <? 0).
    + destruct (negb (do_place pw depth)); [cbn; auto using same_lists_refl|].
      destruct (is_previous_piece pw g && negb (allow_in_row pw));
        [cbn; auto using same_lists_refl|].
      destruct (_create_piece (pw_piece_type pw) x y z d depth g) as [p|] eqn:Ec;
        [|cbn; auto using same_lists_refl].
      set (pw' := mkWeight _ _ _ _ _).
      assert (Hpost : forall ws,
                same_lists g (set_weights is_castle ws (set_previous_piece (Some pw') g)) /\
                random (set_weights is_castle ws (set_previous_piece (Some pw') g)) = random g).
      { intros ws. destruct is_castle; repeat split. }
      destruct (negb (is_valid pw')).
      * destruct (list_remove_member pw' seen todo) as [l' ->]. cbn [rbind safe].
        destruct (Hpost l') as [H1 H2]. repeat split; try apply H1; try exact H2.
        exists pw. split; [left; reflexivity | exact Ec].
      * cbn [safe]. destruct (Hpost (seen ++ pw' :: todo)) as [H1 H2].
        repeat split; try apply H1; try exact H2.
        exists pw. split; [left; reflexivity | exact Ec].
    + eapply safe_weaken; [apply IH|]. cbn beta.
      intros r g' (H1 & H2 & H3). repeat split; try apply H1; try exact H2.
      destruct r as [p|]; [|exact H3].
      destruct H3 as (pw0 & Hin & Hc). exists pw0. split; [right; exact Hin | exact Hc].
Qed.

(** What is known of a piece returned for a request at depth [depth]: it
    carries that depth, it came from the weighted selection only if
    [depth <= 30], and it was tested against the piece list. *)
Definition fresh_piece (depth : Z) (g : Generator) (p : StructurePiece) : Prop :=
  gen_depth p = depth /\
  (depth <= MAX_DEPTH \/ piece_type p = BRIDGE_END_FILLER) /\
  _find_collision (bounding_box p) g = false.

Lemma attempts_loop_safe (rf : nat) (is_castle : bool) (total : Z) (x y z : Z)
    (d : Direction) (depth : Z) (remaining : nat) :
  0 < total -> depth <= MAX_DEPTH ->
  forall g : Generator,
  safe rf (attempts_loop rf remaining is_castle total x y z d depth g)
    (fun r g' =>
       same_lists g g' /\
       match r with
       | Some p => fresh_piece depth g p
       | None => True
       end).
Proof.
  intros Ht Hd. induction remaining as [|n IH]; intros g; cbn [attempts_loop].
  - cbn. auto using same_lists_refl.
  - eapply safe_bind; [apply random_next_int_safe; exact Ht|]. cbn beta.
    intros target g1 (_ & Hg1).
    assert (S1 : same_lists g g1) by (rewrite Hg1; apply set_random_same_lists).
    eapply safe_bind; [apply for_weights_safe|]. cbn beta.
    intros r g2 (S2 & _ & Hr). destruct r as [p|].
    + cbn. split; [eapply same_lists_trans; eassumption|].
      destruct Hr as (pw & _ & Hc).
      apply _create_piece_some in Hc. destruct Hc as (_ & Hdep & _ & _ & Hcol).
      repeat split; auto.
      rewrite <- Hcol. symmetry. apply _find_collision_same. apply S1.
    + subst g2. eapply safe_weaken; [apply IH|]. cbn beta.
      intros r g3 (S3 & Hp). split; [eapply same_lists_trans; eassumption|].
      destruct r as [p|]; [|exact I].
      destruct Hp as (A & B & C). repeat split; auto.
      rewrite <- C. symmetry. apply _find_collision_same. apply S1.
Qed.

Lemma _generate_piece_safe (rf : nat) (is_castle : bool) (x y z : Z)
    (d : Direction) (depth : Z) (g : Generator) :
  safe rf (_generate_piece rf is_castle x y z d depth g)
    (fun r g' =>
       same_lists g g' /\
       match r with
       | Some p => fresh_piece depth g p
       | None => True
       end).
Proof.
  unfold _generate_piece.
  set (total := _update_piece_weight (weights_of is_castle g)).
  assert (Hfill : forall g1, same_lists g g1 ->
            safe rf (Ok (_create_end_filler x y z d depth g1, g1))
              (fun r g' => same_lists g g' /\
                 match r with Some p => fresh_piece depth g p | None => True end)).
  { intros g1 S1. cbn. split; [exact S1|].
    destruct (_create_end_filler x y z d depth g1) as [p|] eqn:E; [|exact I].
    apply _create_end_filler_some in E. destruct E as (Ht & Hdep & _ & _ & Hcol).
    repeat split; auto.
    rewrite <- Hcol. symmetry. apply _find_collision_same. apply S1. }
  destruct ((total >? 0) && (depth <=? MAX_DEPTH)) eqn:Ecan.
  - apply andb_true_iff in Ecan. destruct Ecan as [E1 E2].
    apply Z.gtb_lt in E1. apply Z.leb_le in E2.
    eapply safe_bind; [apply attempts_loop_safe; assumption|]. cbn beta.
    intros r g1 (S1 & Hr). destruct r as [p|].
    + cbn. auto.
    + apply Hfill. exact S1.
  - eapply (safe_bind _ _ _ _ (fun r g1 => r = None /\ same_lists g g1));
      [cbn; split; [reflexivity | apply same_lists_refl]|]. cbn beta.
    intros r g1 [-> S1]. apply Hfill. exact S1.
Qed.

(** ** Growth of the piece list *)

(** No two entries of the list, at different positions, intersect. *)
Definition pairwise_disjoint (l : list StructurePiece) : Prop :=
  forall (i j : nat) (a b : StructurePiece),
    i <> j -> nth_error l i = Some a -> nth_error l j = Some b ->
    intersects (bounding_box a) (bounding_box b) = false.

Lemma intersects_sym (a b : BoundingBox) : intersects a b = intersects b a.
Proof.
  unfold intersects.
  rewrite !Z.geb_leb.
  destruct (min_x b <=? max_x a), (min_x a <=? max_x b),
           (min_z b <=? max_z a), (min_z a <=? max_z b),
           (min_y b <=? max_y a), (min_y a <=? max_y b); reflexivity.
Qed.

Lemma pairwise_disjoint_snoc (l : list StructurePiece) (p : StructurePiece) :
  pairwise_disjoint l ->
  (forall q, In q l -> intersects (bounding_box q) (bounding_box p) = false) ->
  pairwise_disjoint (l ++ [p]).
Proof.
  intros Hl Hp i j a b Hij Ha Hb.
  destruct (Nat.lt_ge_cases i (length l)) as [Hi | Hi];
    destruct (Nat.lt_ge_cases j (length l)) as [Hj | Hj].
  - rewrite nth_error_app1 in Ha, Hb by assumption. eapply Hl; eassumption.
  - rewrite nth_error_app1 in Ha by assumption.
    rewrite nth_error_app2 in Hb by assumption.
    destruct (j - length l)%nat as [|k]; cbn in Hb; [|destruct k; discriminate].
    injection Hb as <-. apply Hp. eapply nth_error_In; eassumption.
  - rewrite nth_error_app2 in Ha by assumption.
    rewrite nth_error_app1 in Hb by assumption.
    destruct (i - length l)%nat as [|k]; cbn in Ha; [|destruct k; discriminate].
    injection Ha as <-. rewrite intersects_sym. apply Hp.
    eapply nth_error_In; eassumption.
  - rewrite nth_error_app2 in Ha, Hb by assumption.
    destruct (i - length l)%nat as [|k] eqn:Ei; cbn in Ha; [|destruct k; discriminate].
    destruct (j - length l)%nat as [|k] eqn:Ej; cbn in Hb; [|destruct k; discriminate].
    lia.
Qed.

(** A piece that answers a request made by a parent of depth [d]. *)
Definition child_of (d : Z) (p : StructurePiece) : Prop :=
  gen_depth p = d + 1 /\ (d + 1 <= MAX_DEPTH \/ piece_type p = BRIDGE_END_FILLER).

(** [grows d k g g']: from [g] to [g'] at most [k] pieces were appended, the
    same ones to the piece list and to the pending list, each a child of a
    parent of depth [d], and none of them intersects a piece placed before
    it. *)
Definition grows (d : Z) (k : nat) (g g' : Generator) : Prop :=
  start_bounding_box g' = start_bounding_box g /\
  exists new,
    pieces g' = pieces g ++ new /\
    pending_children g' = pending_children g ++ new /\
    (length new <= k)%nat /\
    Forall (child_of d) new /\
    (pairwise_disjoint (pieces g) -> pairwise_disjoint (pieces g')).

Lemma grows_same (d : Z) (g g' : Generator) : same_lists g g' -> grows d 0 g g'.
Proof.
  intros (H1 & H2 & H3). split; [exact H3|]. exists [].
  rewrite !app_nil_r. repeat split; auto. rewrite H1. auto.
Qed.

Lemma grows_trans (d : Z) (k1 k2 : nat) (g1 g2 g3 : Generator) :
  grows d k1 g1 g2 -> grows d k2 g2 g3 -> grows d (k1 + k2) g1 g3.
Proof.
  intros (A0 & n1 & A1 & A2 & A3 & A4 & A5) (B0 & n2 & B1 & B2 & B3 & B4 & B5).
  split; [congruence|]. exists (n1 ++ n2).
  rewrite B1, B2, A1, A2, <- !app_assoc. repeat split; auto.
  - rewrite length_app. lia.
  - apply Forall_app. auto.
  - intros H. rewrite app_assoc, <- A1, <- B1. auto.
Qed.

Lemma grows_le (d : Z) (k k' : nat) (g g' : Generator) :
  (k <= k')%nat -> grows d k g g' -> grows d k' g g'.
Proof.
  intros Hk (A0 & n & A1 & A2 & A3 & A4 & A5).
  split; [exact A0|]. exists n. repeat split; auto. lia.
Qed.

Lemma _generate_and_add_piece_safe (rf : nat) (x y z : Z) (d : Direction)
    (depth : Z) (is_castle : bool) (g : Generator) :
  safe rf (_generate_and_add_piece rf x y z d depth is_castle g)
    (fun _ g' => grows depth 1 g g').
Proof.
  unfold _generate_and_add_piece.
  match goal with |- context [if ?c then _ else _] => destruct c end.
  - cbn. apply grows_le with (k := 0%nat); [lia|]. apply grows_same, same_lists_refl.
  - eapply safe_bind; [apply _generate_piece_safe|]. cbn beta.
    intros r g1 ((S1 & S2 & S3) & Hr). destruct r as [p|]; cbn.
    + destruct Hr as (Hdep & Hcap & Hcol).
      split; [exact S3|]. exists [p]. rewrite S1, S2. repeat split; auto.
      * constructor; [|constructor]. split; [exact Hdep | exact Hcap].
      * intros Hpd. apply pairwise_disjoint_snoc; [exact Hpd|].
        apply _find_collision_false. exact Hcol.
    + apply grows_le with (k := 0%nat); [lia|]. apply grows_same. repeat split; auto.
Qed.

Lemma _generate_child_forward_safe (rf : nat) (piece : StructurePiece)
    (i j : Z) (is_castle : bool) (g : Generator) :
  safe rf (_generate_child_forward rf piece i j is_castle g)
    (fun _ g' => grows (gen_depth piece) 1 g g').
Proof.
  unfold _generate_child_forward.
  destruct (direction piece);
    (eapply safe_bind; [apply _generate_and_add_piece_safe|]; cbn; auto).
Qed.

Lemma _generate_child_left_safe (rf : nat) (piece : StructurePiece)
    (i j : Z) (is_castle : bool) (g : Generator) :
  safe rf (_generate_child_left rf piece i j is_castle g)
    (fun _ g' => grows (gen_depth piece) 1 g g').
Proof.
  unfold _generate_child_left.
  destruct (direction piece);
    (eapply safe_bind; [apply _generate_and_add_piece_safe|]; cbn; auto).
Qed.

Lemma _generate_child_right_safe (rf : nat) (piece : StructurePiece)
    (i j : Z) (is_castle : bool) (g : Generator) :
  safe rf (_generate_child_right rf piece i j is_castle g)
    (fun _ g' => grows (gen_depth piece) 1 g g').
Proof.
  unfold _generate_child_right.
  destruct (direction piece);
    (eapply safe_bind; [apply _generate_and_add_piece_safe|]; cbn; auto).
Qed.

(** Sequencing two calls that each append children of the same parent. *)
Lemma safe_seq_grows (rf : nat) (d : Z) (k1 k2 : nat) (m : M unit) (k : M unit)
    (g : Generator) :
  safe rf (m g) (fun _ g' => grows d k1 g g') ->
  (forall g1, safe rf (k g1) (fun _ g' => grows d k2 g1 g')) ->
  safe rf (bind m (fun _ => k) g) (fun _ g' => grows d (k1 + k2) g g').
Proof.
  intros Hm Hk. eapply safe_bind; [exact Hm|]. cbn beta.
  intros _ g1 H1. eapply safe_weaken; [apply Hk|]. cbn beta.
  intros _ g2 H2. eapply grows_trans; eassumption.
Qed.

Lemma random_next_int_grows (rf : nat) (d : Z) (bound : Z) (g : Generator) :
  0 < bound ->
  safe rf (random_next_int rf bound g) (fun _ g' => grows d 0 g g').
Proof.
  intros Hb. eapply safe_weaken; [apply random_next_int_safe; exact Hb|].
  cbn beta. intros v g' [_ ->]. apply grows_same, set_random_same_lists.
Qed.

Ltac child_steps :=
  repeat first
    [ apply _generate_child_forward_safe
    | apply _generate_child_left_safe
    | apply _generate_child_right_safe
    | eapply (safe_seq_grows _ _ 1 _); [|intros ?] ].

(** Popping a piece and spawning its children appends at most three pieces,
    all children of the popped piece; a BridgeEndFiller or a MonsterThrone
    spawns nothing and leaves the generator as it is. *)
Lemma _add_children_safe (rf : nat) (piece : StructurePiece) (g : Generator) :
  safe rf (_add_children rf piece g)
    (fun _ g' => grows (gen_depth piece) 3 g g').
Proof.
  set (d := gen_depth piece).
  assert (H3 : safe rf (_add_children_for_crossing rf piece g)
                 (fun _ g' => grows d 3 g g')).
  { unfold _add_children_for_crossing. change 3%nat with (1 + (1 + 1))%nat. child_steps. }
  assert (H1 : forall m : M unit,
             safe rf (m g) (fun _ g' => grows d 1 g g') ->
             safe rf (m g) (fun _ g' => grows d 3 g g')).
  { intros m Hm. eapply safe_weaken; [exact Hm|]. cbn beta.
    intros _ g'. apply grows_le. lia. }
  unfold _add_children. destruct (piece_type piece); try exact H3.
  - apply H1. apply _generate_child_forward_safe.
  - unfold _add_children_for_room_crossing. change 3%nat with (1 + (1 + 1))%nat. child_steps.
  - apply H1. apply _generate_child_right_safe.
  - cbn. apply grows_le with (k := 0%nat); [lia|]. apply grows_same, same_lists_refl.
  - apply H1. apply _generate_child_forward_safe.
  - cbn. apply grows_le with (k := 0%nat); [lia|]. apply grows_same, same_lists_refl.
  - apply H1. apply _generate_child_forward_safe.
  - unfold _add_children_for_castle_small_corridor_crossing.
    change 3%nat with (1 + (1 + 1))%nat. child_steps.
  - apply H1. apply _generate_child_right_safe.
  - apply H1. apply _generate_child_left_safe.
  - apply H1. apply _generate_child_forward_safe.
  - unfold _add_children_for_castle_t_balcony.
    eapply safe_weaken with (P := fun _ g' => grows d (0 + (1 + (0 + 1))) g g');
      [|cbn beta; intros _ g'; apply grows_le; lia].
    eapply safe_bind; [apply (random_next_int_grows rf d 8 g); lia|]. cbn beta.
    intros a g1 G1.
    eapply safe_weaken with (P := fun _ g' => grows d (1 + (0 + 1)) g1 g');
      [|cbn beta; intros _ g'; apply (grows_trans d 0 _ g g1 g'); exact G1].
    eapply (safe_seq_grows _ _ 1 _); [apply _generate_child_left_safe|]. intros g2.
    eapply safe_bind; [apply (random_next_int_grows rf d 8 g2); lia|]. cbn beta.
    intros b g3 G3.
    eapply safe_weaken; [apply _generate_child_right_safe|]. cbn beta.
    intros _ g4 G4. apply (grows_trans d 0 1 g2 g3 g4); assumption.
  - unfold _add_children_for_castle_stalk_room.
    eapply safe_weaken with (P := fun _ g' => grows d (1 + 1) g g');
      [|cbn beta; intros _ g'; apply grows_le; lia].
    child_steps.
Qed.

Lemma _add_children_no_branch (rf : nat) (piece : StructurePiece) (g : Generator) :
  piece_type piece = BRIDGE_END_FILLER \/ piece_type piece = MONSTER_THRONE ->
  _add_children rf piece g = Ok (tt, g).
Proof.
  unfold _add_children. intros [-> | ->]; reflexivity.
Qed.

(** ** The pending list as a measure *)

(** Weight of a pending piece: a piece of depth [d] may spawn three pieces
    of depth [d + 1], so it counts for four of them. *)
Definition piece_measure (p : StructurePiece) : Z := 4 ^ (31 - gen_depth p).

Fixpoint pending_measure (l : list StructurePiece) : Z :=
  match l with
  | [] => 0
  | p :: l' => piece_measure p + pending_measure l'
  end.

Lemma pending_measure_app (l1 l2 : list StructurePiece) :
  pending_measure (l1 ++ l2) = pending_measure l1 + pending_measure l2.
Proof. induction l1 as [|p l1 IH]; cbn [app pending_measure]; lia. Qed.

(** A pending piece is a weighted piece (depth at most 30) or a filler
    (depth at most 31). *)
Definition pending_ok (p : StructurePiece) : Prop :=
  gen_depth p <= MAX_DEPTH \/
  (piece_type p = BRIDGE_END_FILLER /\ gen_depth p <= MAX_DEPTH + 1).

Lemma pending_ok_depth (p : StructurePiece) : pending_ok p -> gen_depth p <= 31.
Proof. unfold pending_ok, MAX_DEPTH. lia. Qed.

Lemma piece_measure_pos (p : StructurePiece) :
  gen_depth p <= 31 -> 1 <= piece_measure p.
Proof.
  intros H. unfold piece_measure.
  assert (0 < 4 ^ (31 - gen_depth p)) by (apply Z.pow_pos_nonneg; lia). lia.
Qed.

Lemma pending_measure_nonneg (l : list StructurePiece) :
  Forall pending_ok l -> 0 <= pending_measure l.
Proof.
  induction 1 as [|p l Hp _ IH]; cbn [pending_measure]; [lia|].
  pose proof (piece_measure_pos p (pending_ok_depth p Hp)). lia.
Qed.

Lemma children_measure (d : Z) (new : list StructurePiece) :
  d <= 30 -> Forall (child_of d) new ->
  pending_measure new = Z.of_nat (length new) * 4 ^ (30 - d).
Proof.
  intros Hd. induction 1 as [|p l [Hp _] _ IH]; cbn [pending_measure length]; [lia|].
  rewrite IH. unfold piece_measure. rewrite Hp.
  replace (31 - (d + 1)) with (30 - d) by lia. lia.
Qed.

Lemma child_pending_ok (d : Z) (p : StructurePiece) :
  d <= 30 -> child_of d p -> pending_ok p.
Proof. unfold child_of, pending_ok, MAX_DEPTH. intros Hd [H1 [H2 | H2]]; lia || (right; split; [exact H2 | lia]). Qed.

(** ** [list.pop] *)

Lemma nth_error_split_at {A : Type} (l : list A) :
  forall (i : nat) (a : A),
  nth_error l i = Some a -> l = firstn i l ++ a :: skipn (S i) l.
Proof.
  induction l as [|b l IH]; intros [|i] a H; cbn in *; try discriminate.
  - injection H as ->. reflexivity.
  - f_equal. apply IH. exact H.
Qed.

Lemma list_pop_ok {A : Type} (l : list A) (idx : Z) :
  0 <= idx < Z.of_nat (length l) ->
  exists a l1 l2, list_pop l idx = Ok (a, l1 ++ l2) /\ l = l1 ++ a :: l2.
Proof.
  intros H. unfold list_pop.
  destruct (Z.ltb_spec idx 0); [lia|].
  destruct (Z.ltb_spec idx 0); [lia|].
  destruct (Z.leb_spec (Z.of_nat (length l)) idx); [lia|]. cbn [orb].
  destruct (nth_error l (Z.to_nat idx)) as [a|] eqn:E.
  - exists a, (firstn (Z.to_nat idx) l), (skipn (S (Z.to_nat idx)) l).
    split; [reflexivity|]. apply nth_error_split_at. exact E.
  - apply nth_error_None in E. lia.
Qed.

(** ** The invariant of a run *)

Record Inv (g : Generator) : Prop := mkInv {
  inv_disjoint : pairwise_disjoint (pieces g);
  inv_pending : Forall pending_ok (pending_children g);
  inv_depth : exists start rest,
      pieces g = start :: rest /\
      piece_type start = START_PIECE /\ gen_depth start = 0 /\
      Forall (fun p => gen_depth p <= MAX_DEPTH + 1) rest
}.

Lemma Inv_frame (g g' : Generator) :
  pieces g' = pieces g -> pending_children g' = pending_children g ->
  Inv g -> Inv g'.
Proof.
  intros H1 H2 [A B C]. constructor; rewrite ?H1, ?H2; assumption.
Qed.

(** Appending children of a parent of depth at most 30 keeps the invariant
    and adds less to the measure than the parent counted for. *)
Lemma Inv_grows (d : Z) (k : nat) (g g' : Generator) :
  d <= 30 -> Inv g -> grows d k g g' ->
  Inv g' /\
  pending_measure (pending_children g')
    <= pending_measure (pending_children g) + Z.of_nat k * 4 ^ (30 - d).
Proof.
  intros Hd [A B C] (_ & new & G1 & G2 & G3 & G4 & G5).
  assert (Hok : Forall pending_ok new).
  { eapply Forall_impl; [|exact G4]. intros p. apply child_pending_ok. exact Hd. }
  split.
  - constructor.
    + auto.
    + rewrite G2. apply Forall_app. auto.
    + destruct C as (start & rest & C1 & C2 & C3 & C4).
      exists start, (rest ++ new). rewrite G1, C1. repeat split; auto.
      apply Forall_app. split; [exact C4|].
      eapply Forall_impl; [|exact Hok]. intros p Hp.
      pose proof (pending_ok_depth p Hp). unfold MAX_DEPTH. lia.
  - rewrite G2, pending_measure_app, (children_measure d new Hd G4).
    assert (0 < 4 ^ (30 - d)) by (apply Z.pow_pos_nonneg; lia). nia.
Qed.

(** ** The main loop *)

(** One iteration of the [while self.pending_children] loop: the draw, the
    pop and the children of the popped piece. *)
Definition iteration (rf : nat) : M unit :=
  fun g =>
    bind (random_next_int rf (Z.of_nat (length (pending_children g))))
      (fun idx g1 =>
         match list_pop (pending_children g1) idx with
         | Ok (piece, rest) => _add_children rf piece (set_pending_children rest g1)
         | ValueError => ValueError
         | IndexError => IndexError
         | OutOfFuel => OutOfFuel
         end) g.

Lemma process_pending_step (rf fuel : nat) (g : Generator) :
  pending_children g <> [] ->
  process_pending rf (S fuel) g
  = bind (iteration rf) (fun _ => process_pending rf fuel) g.
Proof.
  intros Hne. cbn [process_pending].
  destruct (pending_children g) as [|q l] eqn:E; [congruence|].
  unfold iteration, bind. rewrite E.
  destruct (random_next_int rf _ g) as [[idx g1] | | |]; try reflexivity.
  destruct (list_pop (pending_children g1) idx) as [[piece rest] | | |]; reflexivity.
Qed.

Lemma process_pending_done (rf fuel : nat) (g : Generator) :
  pending_children g = [] -> process_pending rf fuel g = Ok (tt, g).
Proof. intros E. destruct fuel; cbn [process_pending]; rewrite E; reflexivity. Qed.

(** An iteration keeps the invariant and strictly decreases the measure. *)
Lemma iteration_safe (rf : nat) (g : Generator) :
  Inv g -> pending_children g <> [] ->
  safe rf (iteration rf g)
    (fun _ g' =>
       Inv g' /\
       pending_measure (pending_children g') + 1
         <= pending_measure (pending_children g)).
Proof.
  intros HI Hne. unfold iteration.
  assert (Hlen : 0 < Z.of_nat (length (pending_children g))).
  { destruct (pending_children g); [congruence | cbn [length]; lia]. }
  eapply safe_bind; [apply random_next_int_safe; exact Hlen|]. cbn beta.
  intros idx g1 (Hidx & Hg1).
  assert (Hp1 : pending_children g1 = pending_children g) by (rewrite Hg1; reflexivity).
  assert (Hq1 : pieces g1 = pieces g) by (rewrite Hg1; reflexivity).
  rewrite Hp1.
  destruct (list_pop_ok (pending_children g) idx Hidx) as (piece & l1 & l2 & -> & Hsplit).
  set (g2 := set_pending_children (l1 ++ l2) g1).
  assert (Hpend : Forall pending_ok (pending_children g)) by apply HI.
  rewrite Hsplit in Hpend. apply Forall_app in Hpend. destruct Hpend as [Hl1 Hl2].
  apply Forall_cons_iff in Hl2. destruct Hl2 as [Hpiece Hl2].
  assert (HI2 : Inv g2).
  { destruct HI as [A B C]. constructor.
    - change (pieces g2) with (pieces g1). rewrite Hq1. exact A.
    - cbn. apply Forall_app. auto.
    - change (pieces g2) with (pieces g1). rewrite Hq1. exact C. }
  assert (Hmu : pending_measure (pending_children g)
                = pending_measure (pending_children g2) + piece_measure piece).
  { rewrite Hsplit. cbn [g2 set_pending_children pending_children].
    rewrite !pending_measure_app. cbn [pending_measure]. lia. }
  pose proof (piece_measure_pos piece (pending_ok_depth piece Hpiece)) as Hpos.
  destruct (PieceType_eq_dec (piece_type piece) BRIDGE_END_FILLER) as [Hf | Hf].
  - rewrite _add_children_no_branch by (left; exact Hf). unfold safe.
    split; [exact HI2 | lia].
  - assert (Hd : gen_depth piece <= 30).
    { destruct Hpiece as [H | [H _]]; [exact H | contradiction]. }
    eapply safe_weaken; [apply _add_children_safe|]. cbn beta.
    intros _ g3 Hg.
    destruct (Inv_grows _ _ _ _ Hd HI2 Hg) as [HI3 Hle].
    split; [exact HI3|].
    unfold piece_measure in Hmu, Hpos.
    replace (31 - gen_depth piece) with (Z.succ (30 - gen_depth piece)) in Hmu, Hpos by lia.
    rewrite Z.pow_succ_r in Hmu, Hpos by lia.
    change (Z.of_nat 3) with 3 in Hle. lia.
Qed.

(** Partial correctness: whatever the budget, a run of the loop that
    returns does so with the invariant and an empty pending list. *)
Lemma process_pending_inv (rf fuel : nat) :
  forall g g', Inv g -> process_pending rf fuel g = Ok (tt, g') ->
  Inv g' /\ pending_children g' = [].
Proof.
  induction fuel as [|n IH]; intros g g' HI Hrun.
  - cbn [process_pending] in Hrun.
    destruct (pending_children g) eqn:E; [|discriminate].
    injection Hrun as <-. auto.
  - destruct (pending_children g) as [|q l] eqn:E.
    + rewrite process_pending_done in Hrun by exact E. injection Hrun as <-. auto.
    + rewrite process_pending_step in Hrun by congruence.
      assert (Hit : safe rf (iteration rf g) _)
        by (apply iteration_safe; [exact HI | congruence]).
      unfold bind in Hrun. unfold safe in Hit.
      destruct (iteration rf g) as [[[] g1] | | |]; try discriminate.
      eapply IH; [apply Hit | exact Hrun].
Qed.

(** Termination: with a non-empty [next_int] budget, as many iterations as
    the measure of the pending list are enough. *)
Lemma process_pending_terminates (rf fuel : nat) :
  forall g, Inv g ->
  pending_measure (pending_children g) <= Z.of_nat fuel ->
  exists g', process_pending (S rf) fuel g = Ok (tt, g').
Proof.
  induction fuel as [|n IH]; intros g HI Hmu.
  - destruct (pending_children g) as [|q l] eqn:E.
    + rewrite process_pending_done by exact E. eauto.
    + exfalso. assert (Hq : Forall pending_ok (pending_children g)) by apply HI.
      rewrite E in Hq. apply Forall_cons_iff in Hq. destruct Hq as [Hq Hl].
      cbn [pending_measure] in Hmu.
      pose proof (piece_measure_pos q (pending_ok_depth q Hq)).
      pose proof (pending_measure_nonneg l Hl). lia.
  - destruct (pending_children g) as [|q l] eqn:E.
    + rewrite process_pending_done by exact E. eauto.
    + rewrite process_pending_step by congruence.
      assert (Hit : safe (S rf) (iteration (S rf) g) _)
        by (apply iteration_safe; [exact HI | congruence]).
      apply safe_ok in Hit. destruct Hit as ([] & g1 & Eit & HI1 & Hdec).
      unfold bind. rewrite Eit. rewrite E in Hdec. apply IH; [exact HI1 | lia].
Qed.

(** ** The whole run *)

Lemma next_int_4 (rf : nat) (s : rng) :
  exists v, next_int rf 4 s = Ok (v, snd (next 31 s)) /\ 0 <= v < 4.
Proof.
  unfold next_int. change (4 <=? 0) with false.
  change (Z.land 4 (4 - 1) =? 0) with true. cbv iota.
  pose proof (RandomSourceProps.next_range 31 s ltac:(lia)) as Hr.
  destruct (next 31 s) as [bits s1]. cbn [fst snd] in *.
  eexists. split; [reflexivity|].
  rewrite Z.shiftr_div_pow2 by lia. split.
  - apply Z.div_pos; lia.
  - apply Z.div_lt_upper_bound; lia.
Qed.

Lemma Direction_of_value_ok (v : Z) :
  0 <= v < 4 -> exists d, Direction_of_value v = Ok d.
Proof.
  intros H. unfold Direction_of_value.
  assert (Hv : v = 0 \/ v = 1 \/ v = 2 \/ v = 3) by lia.
  destruct Hv as [-> | [-> | [-> | ->]]]; cbn; eauto.
Qed.

(** The generator after the start piece has been placed. *)
Definition started (world_seed chunk_x chunk_z : Z) (r : rng)
    (start_direction : Direction) : Generator :=
  let g := set_random r (_set_structure_seed (init world_seed chunk_x chunk_z)) in
  let start_box :=
    make_bounding_box (chunk_x * 16 + 2) MAGIC_START_Y (chunk_z * 16 + 2)
      start_direction 19 10 19 in
  let start_piece := mkPiece START_PIECE start_box start_direction 0 in
  set_start_bounding_box (Some start_box) (set_pieces (pieces g ++ [start_piece]) g).

Definition start_piece_of (chunk_x chunk_z : Z) (start_direction : Direction)
  : StructurePiece :=
  mkPiece START_PIECE
    (make_bounding_box (chunk_x * 16 + 2) MAGIC_START_Y (chunk_z * 16 + 2)
       start_direction 19 10 19)
    start_direction 0.

Lemma generate_from_started (rf fuel : nat) (world_seed cx cz : Z) :
  exists r d,
    generate_from rf fuel (init world_seed cx cz)
    = bind (_add_children_for_crossing rf (start_piece_of cx cz d))
        (fun _ => bind (process_pending rf fuel) (fun _ g => Ok (pieces g, g)))
        (started world_seed cx cz r d).
Proof.
  unfold generate_from, get_random_horizontal_direction.
  destruct (next_int_4 rf (random (_set_structure_seed (init world_seed cx cz))))
    as (v & -> & Hv).
  destruct (Direction_of_value_ok v Hv) as [d ->].
  eexists _, d. reflexivity.
Qed.

Lemma Inv_started (world_seed cx cz : Z) (r : rng) (d : Direction) :
  Inv (started world_seed cx cz r d) /\
  pending_children (started world_seed cx cz r d) = [].
Proof.
  split; [|reflexivity]. constructor.
  - intros i j a b Hij Ha Hb. cbn in Ha, Hb.
    destruct i as [|[|i]], j as [|[|j]]; cbn in Ha, Hb; try discriminate. congruence.
  - cbn. constructor.
  - exists (start_piece_of cx cz d), []. cbn. repeat split. constructor.
Qed.

(** The state in which the main loop is entered: the invariant holds and
    the pending list weighs at most three pieces of depth 1. *)
Lemma start_children_safe (rf : nat) (world_seed cx cz : Z) (r : rng) (d : Direction) :
  safe rf (_add_children_for_crossing rf (start_piece_of cx cz d)
             (started world_seed cx cz r d))
    (fun _ g' => Inv g' /\ pending_measure (pending_children g') <= 3 * 4 ^ 30).
Proof.
  destruct (Inv_started world_seed cx cz r d) as [HI Hp].
  pose proof (_add_children_safe rf (start_piece_of cx cz d)
                (started world_seed cx cz r d)) as H.
  change (_add_children rf (start_piece_of cx cz d))
    with (_add_children_for_crossing rf (start_piece_of cx cz d)) in H.
  eapply safe_weaken; [exact H|]. cbn beta. intros _ g' Hg.
  change (gen_depth (start_piece_of cx cz d)) with 0 in Hg.
  destruct (Inv_grows 0 3 _ _ ltac:(lia) HI Hg) as [HI' Hle].
  split; [exact HI'|]. rewrite Hp in Hle. cbn [pending_measure] in Hle.
  change (Z.of_nat 3) with 3 in Hle. change (30 - 0) with 30 in Hle. lia.
Qed.

(** Every run that returns does so with the invariant, an empty pending
    list, and [self.pieces] as its value. *)
Lemma generate_from_inv (rf fuel : nat) (world_seed cx cz : Z)
    (ps : list StructurePiece) (g' : Generator) :
  generate_from rf fuel (init world_seed cx cz) = Ok (ps, g') ->
  Inv g' /\ pending_children g' = [] /\ ps = pieces g'.
Proof.
  destruct (generate_from_started rf fuel world_seed cx cz) as (r & d & ->).
  pose proof (start_children_safe rf world_seed cx cz r d) as H.
  unfold bind. unfold safe in H.
  destruct (_add_children_for_crossing rf _ _) as [[[] g1] | | |]; try discriminate.
  destruct H as [HI1 _].
  destruct (process_pending rf fuel g1) as [[[] g2] | | |] eqn:E; try discriminate.
  intros Heq. injection Heq as <- <-.
  destruct (process_pending_inv rf fuel g1 g2 HI1 E) as [HI2 Hp2]. auto.
Qed.

Lemma generate_from_terminates (rf fuel : nat) (world_seed cx cz : Z) :
  3 * 4 ^ 30 <= Z.of_nat fuel ->
  exists ps g',
    generate_from (S rf) fuel (init world_seed cx cz) = Ok (ps, g') /\
    pending_children g' = [].
Proof.
  intros Hfuel.
  destruct (generate_from_started (S rf) fuel world_seed cx cz) as (r & d & ->).
  pose proof (start_children_safe (S rf) world_seed cx cz r d) as H.
  apply safe_ok in H. destruct H as ([] & g1 & E1 & HI1 & Hmu).
  unfold bind. rewrite E1.
  assert (Hle : pending_measure (pending_children g1) <= Z.of_nat fuel)
    by (eapply Z.le_trans; eassumption).
  destruct (process_pending_terminates rf fuel g1 HI1 Hle) as [g2 E2].
  rewrite E2. exists (pieces g2), g2. split; [reflexivity|].
  apply (process_pending_inv (S rf) fuel g1 g2 HI1 E2).
Qed.

Lemma budget_of_Z (N : Z) (fuel : nat) :
  0 <= N -> (Z.to_nat N <= fuel)%nat -> N <= Z.of_nat fuel.
Proof. intros H0 H. lia. Qed.

(** ** Independence of the budgets

    A non-empty [next_int] budget is never used up, and a main-loop budget
    that is enough stays enough: the result of a run does not depend on
    them. *)

Lemma next_int_budget (a b : nat) (bound : Z) (s : rng) :
  next_int (S a) bound s = next_int (S b) bound s.
Proof.
  unfold next_int. destruct (Z.leb_spec bound 0); [reflexivity|].
  destruct (Z.land bound (bound - 1) =? 0); [reflexivity|].
  rewrite !RandomSourceProps.next_int_loop_first by assumption. reflexivity.
Qed.

Lemma bind_ext {A B : Type} (m1 m2 : M A) (k1 k2 : A -> M B) (g : Generator) :
  m1 g = m2 g -> (forall a g', k1 a g' = k2 a g') -> bind m1 k1 g = bind m2 k2 g.
Proof.
  intros Hm Hk. unfold bind. rewrite Hm.
  destruct (m2 g) as [[a g'] | | |]; auto.
Qed.

Lemma random_next_int_budget (a b : nat) (bound : Z) (g : Generator) :
  random_next_int (S a) bound g = random_next_int (S b) bound g.
Proof. unfold random_next_int. rewrite (next_int_budget a b). reflexivity. Qed.

Lemma attempts_loop_budget (a b : nat) (is_castle : bool) (total x y z : Z)
    (d : Direction) (depth : Z) (remaining : nat) :
  forall g,
  attempts_loop (S a) remaining is_castle total x y z d depth g
  = attempts_loop (S b) remaining is_castle total x y z d depth g.
Proof.
  induction remaining as [|n IH]; intros g; cbn [attempts_loop]; [reflexivity|].
  apply bind_ext; [apply random_next_int_budget|].
  intros t g1. apply bind_ext; [reflexivity|].
  intros [p|] g2; [reflexivity | apply IH].
Qed.

Lemma _generate_piece_budget (a b : nat) (is_castle : bool) (x y z : Z)
    (d : Direction) (depth : Z) (g : Generator) :
  _generate_piece (S a) is_castle x y z d depth g
  = _generate_piece (S b) is_castle x y z d depth g.
Proof.
  unfold _generate_piece. apply bind_ext; [|reflexivity].
  destruct (_ && _); [apply attempts_loop_budget | reflexivity].
Qed.

Lemma _generate_and_add_piece_budget (a b : nat) (x y z : Z) (d : Direction)
    (depth : Z) (is_castle : bool) (g : Generator) :
  _generate_and_add_piece (S a) x y z d depth is_castle g
  = _generate_and_add_piece (S b) x y z d depth is_castle g.
Proof.
  unfold _generate_and_add_piece.
  match goal with |- context [if ?c then _ else _] => destruct c end; [reflexivity|].
  apply bind_ext; [apply _generate_piece_budget | reflexivity].
Qed.

Lemma _generate_child_forward_budget (a b : nat) (piece : StructurePiece)
    (i j : Z) (is_castle : bool) (g : Generator) :
  _generate_child_forward (S a) piece i j is_castle g
  = _generate_child_forward (S b) piece i j is_castle g.
Proof.
  unfold _generate_child_forward. destruct (direction piece);
    (apply bind_ext; [apply _generate_and_add_piece_budget | reflexivity]).
Qed.

Lemma _generate_child_left_budget (a b : nat) (piece : StructurePiece)
    (i j : Z) (is_castle : bool) (g : Generator) :
  _generate_child_left (S a) piece i j is_castle g
  = _generate_child_left (S b) piece i j is_castle g.
Proof.
  unfold _generate_child_left. destruct (direction piece);
    (apply bind_ext; [apply _generate_and_add_piece_budget | reflexivity]).
Qed.

Lemma _generate_child_right_budget (a b : nat) (piece : StructurePiece)
    (i j : Z) (is_castle : bool) (g : Generator) :
  _generate_child_right (S a) piece i j is_castle g
  = _generate_child_right (S b) piece i j is_castle g.
Proof.
  unfold _generate_child_right. destruct (direction piece);
    (apply bind_ext; [apply _generate_and_add_piece_budget | reflexivity]).
Qed.

Ltac budget_steps :=
  repeat first
    [ apply _generate_child_forward_budget
    | apply _generate_child_left_budget
    | apply _generate_child_right_budget
    | apply random_next_int_budget
    | apply bind_ext; [|intros ? ?] ].

Lemma _add_children_budget (a b : nat) (piece : StructurePiece) (g : Generator) :
  _add_children (S a) piece g = _add_children (S b) piece g.
Proof.
  unfold _add_children, _add_children_for_crossing, _add_children_for_bridge_straight,
    _add_children_for_room_crossing, _add_children_for_stairs_room,
    _add_children_for_castle_entrance, _add_children_for_castle_small_corridor,
    _add_children_for_castle_small_corridor_crossing,
    _add_children_for_castle_right_turn, _add_children_for_castle_left_turn,
    _add_children_for_castle_corridor_stairs, _add_children_for_castle_t_balcony,
    _add_children_for_castle_stalk_room.
  destruct (piece_type piece); first [progress budget_steps | reflexivity].
Qed.

Lemma process_pending_budget (a b fuel : nat) :
  forall g, process_pending (S a) fuel g = process_pending (S b) fuel g.
Proof.
  induction fuel as [|n IH]; intros g; cbn [process_pending]; [reflexivity|].
  destruct (pending_children g); [reflexivity|].
  apply bind_ext; [apply random_next_int_budget|].
  intros idx g1.
  generalize (list_pop (pending_children g1) idx).
  intros [[piece rest] | | |]; [|reflexivity|reflexivity|reflexivity].
  apply bind_ext; [apply _add_children_budget|]. intros u g2. apply IH.
Qed.

Lemma process_pending_more_fuel (rf n : nat) :
  forall (m : nat) (g : Generator) (r : unit * Generator),
  (n <= m)%nat -> process_pending rf n g = Ok r -> process_pending rf m g = Ok r.
Proof.
  induction n as [|n IH]; intros m g r Hle Hrun.
  - cbn [process_pending] in Hrun.
    destruct (pending_children g) eqn:E; [|discriminate].
    rewrite process_pending_done by exact E. exact Hrun.
  - destruct m as [|m]; [lia|].
    destruct (pending_children g) as [|q l] eqn:E.
    + rewrite process_pending_done in * by exact E. exact Hrun.
    + rewrite process_pending_step in * by congruence.
      unfold bind in *.
      destruct (iteration rf g) as [[[] g1] | | |]; try discriminate.
      apply IH; [lia | exact Hrun].
Qed.

Lemma generate_from_budget (a b fuel : nat) (g : Generator) :
  generate_from (S a) fuel g = generate_from (S b) fuel g.
Proof.
  unfold generate_from, get_random_horizontal_direction.
  rewrite (next_int_budget a b).
  generalize (next_int (S b) 4 (random (_set_structure_seed g))).
  intros [[v r] | | |]; [|reflexivity|reflexivity|reflexivity].
  unfold rbind. generalize (Direction_of_value v).
  intros [sd | | |]; [|reflexivity|reflexivity|reflexivity].
  apply bind_ext.
  - unfold _add_children_for_crossing. budget_steps.
  - intros u g1. apply bind_ext; [apply process_pending_budget | reflexivity].
Qed.

Lemma generate_from_more_fuel (rf n m : nat) (g : Generator)
    (r : list StructurePiece * Generator) :
  (n <= m)%nat -> generate_from rf n g = Ok r -> generate_from rf m g = Ok r.
Proof.
  intros Hle. unfold generate_from.
  destruct (get_random_horizontal_direction rf _) as [[v s] | | |]; try discriminate.
  destruct (Direction_of_value v) as [sd | | |]; try discriminate.
  cbn [rbind]. unfold bind.
  destruct (_add_children_for_crossing rf _ _) as [[[] g1] | | |]; try discriminate.
  destruct (process_pending rf n g1) as [[[] g2] | | |] eqn:E; try discriminate.
  rewrite (process_pending_more_fuel rf n m g1 (tt, g2) Hle E). auto.
Qed.

(** ** The claims about a complete run *)

(** C6.  After a complete run, no two pieces at different positions of the
    output list have intersecting bounding boxes ([intersects] is inclusive
    overlap on all three axes). *)
Theorem generate_no_overlap (fuel : nat) (world_seed cx cz : Z)
    (ps : list StructurePiece) (i j : nat) (a b : StructurePiece) :
  generate fuel world_seed cx cz = Ok ps ->
  i <> j -> nth_error ps i = Some a -> nth_error ps j = Some b ->
  intersects (bounding_box a) (bounding_box b) = false.
Proof.
  unfold generate. intros Hrun.
  destruct (generate_from fuel fuel (init world_seed cx cz)) as [[ps' g'] | | |] eqn:E;
    try discriminate.
  cbn in Hrun. injection Hrun as ->.
  destruct (generate_from_inv _ _ _ _ _ _ _ E) as (HI & _ & ->).
  apply (inv_disjoint _ HI).
Qed.

(** The fortress of world seed 12345 at chunk (0, 0): its first two pieces. *)
Lemma generate_no_overlap_witness :
  exists ps a b,
    generate 100 12345 0 0 = Ok ps /\
    nth_error ps 0 = Some a /\ nth_error ps 1 = Some b /\
    intersects (bounding_box a) (bounding_box b) = false.
Proof.
  eexists _, _, _. split; [vm_compute; reflexivity|].
  split; [reflexivity|]. split; [reflexivity|].
  eapply (generate_no_overlap 100 12345 0 0 _ 0%nat 1%nat).
  - vm_compute. reflexivity.
  - discriminate.
  - reflexivity.
  - reflexivity.
Defined.

(** C7.  After a complete run the output list starts with the start piece,
    of depth 0, and every other piece has depth at most 31. *)
Theorem generate_depth_bound (fuel : nat) (world_seed cx cz : Z)
    (ps : list StructurePiece) :
  generate fuel world_seed cx cz = Ok ps ->
  exists start rest,
    ps = start :: rest /\
    piece_type start = START_PIECE /\ gen_depth start = 0 /\
    Forall (fun p => gen_depth p <= 31) rest.
Proof.
  unfold generate. intros Hrun.
  destruct (generate_from fuel fuel (init world_seed cx cz)) as [[ps' g'] | | |] eqn:E;
    try discriminate.
  cbn in Hrun. injection Hrun as ->.
  destruct (generate_from_inv _ _ _ _ _ _ _ E) as (HI & _ & ->).
  apply (inv_depth _ HI).
Qed.

Lemma generate_depth_bound_witness :
  exists ps,
    generate 100 12345 0 0 = Ok ps /\
    exists start rest,
      ps = start :: rest /\
      piece_type start = START_PIECE /\ gen_depth start = 0 /\
      Forall (fun p => gen_depth p <= 31) rest.
Proof.
  eexists. split; [vm_compute; reflexivity|].
  apply (generate_depth_bound 100 12345 0 0).
  vm_compute. reflexivity.
Defined.

(** C9.  For every world seed and chunk [generate] terminates: there is an
    iteration budget from which on the run returns, always with the same
    piece list, the main loop having ended on an empty pending list. *)
Theorem generate_terminates (world_seed cx cz : Z) :
  exists (N : nat) (ps : list StructurePiece),
  forall fuel : nat, (N <= fuel)%nat ->
    generate fuel world_seed cx cz = Ok ps /\
    exists g', generate_from fuel fuel (init world_seed cx cz) = Ok (ps, g') /\
               pending_children g' = [].
Proof.
  set (N := Z.to_nat (3 * 4 ^ 30)).
  assert (HN : 3 * 4 ^ 30 <= Z.of_nat N)
    by (apply budget_of_Z; [lia | apply Nat.le_refl]).
  clearbody N.
  destruct (generate_from_terminates 0 N world_seed cx cz HN) as (ps & g' & E & Hp).
  exists N, ps. intros fuel Hfuel.
  assert (Hrun : generate_from fuel fuel (init world_seed cx cz) = Ok (ps, g')).
  { destruct fuel as [|rf].
    - exfalso. apply Nat.le_0_r in Hfuel. rewrite Hfuel in HN. cbn in HN. lia.
    - rewrite (generate_from_budget rf 0).
      eapply generate_from_more_fuel; [exact Hfuel | exact E]. }
  split.
  - unfold generate. rewrite Hrun. reflexivity.
  - exists g'. auto.
Qed.

(** A run: 47 pieces for world seed 12345 at chunk (0, 0), within 100
    iterations. *)
Example generate_12345 :
  exists ps, generate 100 12345 0 0 = Ok ps /\ length ps = 47%nat.
Proof. eexists. split; vm_compute; reflexivity. Qed.

(** ** The claims about one spawn request *)

(** C5.  A request whose origin is more than 112 away from the anchor's
    minimum corner on x or on z returns no piece and leaves the generator
    (piece list, pending list, weights, random state) exactly as it was. *)
Theorem far_request_is_dropped (rf : nat) (x y z : Z) (d : Direction)
    (depth : Z) (is_castle : bool) (g : Generator) (anchor : BoundingBox) :
  start_bounding_box g = Some anchor ->
  Z.abs (x - min_x anchor) > 112 \/ Z.abs (z - min_z anchor) > 112 ->
  _generate_and_add_piece rf x y z d depth is_castle g = Ok (None, g).
Proof.
  intros Ha Hfar. unfold _generate_and_add_piece. rewrite Ha.
  assert (Hb : (Z.abs (x - min_x anchor) >? 112) || (Z.abs (z - min_z anchor) >? 112) = true).
  { apply orb_true_iff. destruct Hfar as [H | H]; [left | right]; apply Z.gtb_lt; lia. }
  rewrite Hb. reflexivity.
Qed.

Lemma far_request_is_dropped_witness :
  let g := started 12345 0 0 (set_seed 0) NORTH in
  _generate_and_add_piece 1 115 67 1 NORTH 0 false g = Ok (None, g).
Proof.
  cbv zeta.
  apply (far_request_is_dropped 1 115 67 1 NORTH 0 false _
           (mkBox 2 64 2 20 73 20)).
  - reflexivity.
  - left. vm_compute. reflexivity.
Defined.

(** ** The attempts of one weighted selection *)

(** The entry a draw selects: the first one at which the running target
    becomes negative. *)
Fixpoint drawn_entry (weights : list PieceWeight) (target : Z) : option PieceWeight :=
  match weights with
  | [] => None
  | pw :: rest =>
      if target - weight pw <? 0 then Some pw
      else drawn_entry rest (target - weight pw)
  end.

(** [draws rf total n s s']: [n] successive [next_int(total)] calls lead from
    random state [s] to [s']. *)
Inductive draws (rf : nat) (total : Z) : nat -> rng -> rng -> Prop :=
| draws_O (s : rng) : draws rf total O s s
| draws_S (n : nat) (s s1 s2 : rng) (t : Z) :
    next_int rf total s = Ok (t, s1) ->
    draws rf total n s1 s2 ->
    draws rf total (S n) s s2.

Lemma attempts_loop_draws (rf : nat) (is_castle : bool) (total : Z) (x y z : Z)
    (d : Direction) (depth : Z) (remaining : nat) :
  forall (g : Generator) (r : option StructurePiece) (g' : Generator),
  attempts_loop rf remaining is_castle total x y z d depth g = Ok (r, g') ->
  match r with
  | None => draws rf total remaining (random g) (random g') /\
            g' = set_random (random g') g
  | Some _ => exists n, (1 <= n <= remaining)%nat /\
                        draws rf total n (random g) (random g')
  end.
Proof.
  induction remaining as [|k IH]; intros g r g' Hrun; cbn [attempts_loop] in Hrun.
  - injection Hrun as <- <-. split; [constructor | destruct g; reflexivity].
  - unfold bind at 1 in Hrun. unfold random_next_int in Hrun.
    destruct (next_int rf total (random g)) as [[t s1] | | |] eqn:Ed; try discriminate.
    set (g1 := set_random s1 g) in *.
    unfold bind in Hrun.
    pose proof (for_weights_safe rf is_castle x y z d depth
                  (weights_of is_castle g1) [] t g1) as Hscan.
    unfold safe in Hscan.
    destruct (for_weights is_castle [] (weights_of is_castle g1) t x y z d depth g1)
      as [[[p|] g2] | | |]; try discriminate.
    + injection Hrun as <- <-. destruct Hscan as (_ & Hr & _).
      exists 1%nat. split; [lia|]. econstructor; [exact Ed|].
      rewrite Hr. constructor.
    + destruct Hscan as (_ & _ & ->).
      specialize (IH g1 r g' Hrun). destruct r as [p|].
      * destruct IH as (n & Hn & Hd). exists (S n). split; [lia|].
        econstructor; [exact Ed | exact Hd].
      * destruct IH as [Hd Hg]. split; [econstructor; [exact Ed | exact Hd]|].
        rewrite Hg. reflexivity.
Qed.

(** A scan whose drawn entry is capped, or whose piece is rejected (box too
    low or colliding), is left by [break]: nothing is placed and the
    generator is unchanged. *)
Lemma for_weights_rejected (is_castle : bool) (x y z : Z) (d : Direction)
    (depth : Z) (pw : PieceWeight) (g : Generator) (todo : list PieceWeight) :
  forall (seen : list PieceWeight) (target : Z),
  drawn_entry todo target = Some pw ->
  do_place pw depth = false \/
  _create_piece (pw_piece_type pw) x y z d depth g = None ->
  for_weights is_castle seen todo target x y z d depth g = Ok (None, g).
Proof.
  induction todo as [|pw0 todo IH]; intros seen target Hsel Hrej;
    cbn [drawn_entry for_weights] in *; [discriminate|].
  destruct (target - weight pw0 <? 0).
  - injection Hsel as ->. destruct Hrej as [Hcap | Hcre].
    + rewrite Hcap. reflexivity.
    + destruct (negb (do_place pw depth)); [reflexivity|].
      destruct (is_previous_piece pw g && negb (allow_in_row pw)); [reflexivity|].
      rewrite Hcre. reflexivity.
  - apply IH; assumption.
Qed.

(** C1 (as the code has it).  In a weighted selection that is entered
    ([total > 0] and [depth <= 30]), an attempt whose drawn entry is capped or
    whose piece is rejected only ends that attempt: the loop goes on with the
    remaining attempts, each starting with a new [nextInt(total)] draw.  The
    BridgeEndFiller fallback is reached after five draws, no fewer, with
    nothing but the random state changed; a piece placed by the weighted
    selection is returned after one to five draws. *)
Theorem generate_piece_attempts (rf : nat) (is_castle : bool) (x y z : Z)
    (d : Direction) (depth : Z) (g : Generator) :
  let total := _update_piece_weight (weights_of is_castle g) in
  0 < total -> depth <= MAX_DEPTH ->
  (forall (remaining : nat) (t : Z) (s1 : rng) (pw : PieceWeight),
     next_int rf total (random g) = Ok (t, s1) ->
     drawn_entry (weights_of is_castle g) t = Some pw ->
     do_place pw depth = false \/
     _create_piece (pw_piece_type pw) x y z d depth g = None ->
     attempts_loop rf (S remaining) is_castle total x y z d depth g
     = attempts_loop rf remaining is_castle total x y z d depth (set_random s1 g)) /\
  (forall (r : option StructurePiece) (g' : Generator),
     attempts_loop rf 5 is_castle total x y z d depth g = Ok (r, g') ->
     match r with
     | None =>
         draws rf total 5 (random g) (random g') /\
         g' = set_random (random g') g /\
         _generate_piece rf is_castle x y z d depth g
           = Ok (_create_end_filler x y z d depth g', g')
     | Some p =>
         (exists n, (1 <= n <= 5)%nat /\ draws rf total n (random g) (random g')) /\
         _generate_piece rf is_castle x y z d depth g = Ok (Some p, g')
     end).
Proof.
  cbv zeta. intros Ht Hd. split.
  - intros remaining t s1 pw Hdraw Hsel Hrej.
    cbn [attempts_loop]. unfold bind at 1. unfold random_next_int. rewrite Hdraw.
    unfold bind.
    rewrite (for_weights_rejected is_castle x y z d depth pw (set_random s1 g)
               (weights_of is_castle (set_random s1 g)) [] t).
    + reflexivity.
    + destruct is_castle; exact Hsel.
    + destruct Hrej as [H | H]; [left; exact H | right].
      rewrite <- H. apply _create_piece_same. reflexivity.
  - intros r g' Hrun.
    assert (Hcan : (_update_piece_weight (weights_of is_castle g) >? 0)
                   && (depth <=? MAX_DEPTH) = true).
    { apply andb_true_iff. split; [apply Z.gtb_lt; lia | apply Z.leb_le; exact Hd]. }
    assert (Hgen : _generate_piece rf is_castle x y z d depth g
                   = match r with
                     | Some p => Ok (Some p, g')
                     | None => Ok (_create_end_filler x y z d depth g', g')
                     end).
    { unfold _generate_piece. rewrite Hcan. unfold bind. rewrite Hrun.
      destruct r; reflexivity. }
    pose proof (attempts_loop_draws _ _ _ _ _ _ _ _ _ _ _ _ Hrun) as H.
    destruct r as [p|].
    + split; [exact H | exact Hgen].
    + destruct H as [H1 H2]. repeat split; assumption.
Qed.

(** A generator just after its start piece (facing north, box (2,64,2) to
    (20,73,20)), to which a RoomCrossing east of the northern exit has been
    added; the random state is that of seed 27. *)
Definition blocked_start : Generator :=
  let g := started 12345 0 0 (set_seed 27) NORTH in
  set_pieces
    (pieces g ++ [mkPiece ROOM_CROSSING (mkBox 16 64 (-10) 22 72 (-4)) EAST 1]) g.

(** C1 fails as stated.  Forward request of the start piece in
    [blocked_start]: the first draw, of 70, selects BridgeCrossing, whose
    box collides with the RoomCrossing.  The generator does not go to the
    filler: it draws again, selects BridgeStraight and returns it. *)
Lemma rejected_attempt_is_retried :
  let g := blocked_start in
  exists t1 s1 p g',
    _update_piece_weight (bridge_weights g) = 70 /\
    next_int 1 70 (random g) = Ok (t1, s1) /\
    drawn_entry (bridge_weights g) t1 = Some (mkWeight BRIDGE_CROSSING 10 4 false 0) /\
    _create_piece BRIDGE_CROSSING 10 67 1 NORTH 1 g = None /\
    _generate_piece 1 false 10 67 1 NORTH 1 g = Ok (Some p, g') /\
    piece_type p = BRIDGE_STRAIGHT /\
    random g' <> s1 /\
    draws 1 70 2 (random g) (random g').
Proof.
  cbv zeta. eexists _, _, _, _.
  split; [vm_compute; reflexivity|].
  split; [vm_compute; reflexivity|].
  split; [vm_compute; reflexivity|].
  split; [vm_compute; reflexivity|].
  split; [vm_compute; reflexivity|].
  split; [reflexivity|].
  split; [vm_compute; discriminate|].
  econstructor; [vm_compute; reflexivity|].
  econstructor; [vm_compute; reflexivity|].
  constructor.
Qed.

Lemma generate_piece_attempts_witness :
  let g := blocked_start in
  exists p g',
    attempts_loop 1 5 false 70 10 67 1 NORTH 1 g = Ok (Some p, g') /\
    (exists n, (1 <= n <= 5)%nat /\ draws 1 70 n (random g) (random g')) /\
    _generate_piece 1 false 10 67 1 NORTH 1 g = Ok (Some p, g').
Proof.
  cbv zeta. eexists _, _. split; [vm_compute; reflexivity|].
  refine (proj2 (generate_piece_attempts 1 false 10 67 1 NORTH 1 blocked_start _ _)
            (Some _) _ _).
  - vm_compute. reflexivity.
  - vm_compute. discriminate.
  - vm_compute. reflexivity.
Defined.

(** C2 fails as stated.  A request at depth 31 next to the start piece goes
    straight to the filler fallback, which succeeds; the filler is appended
    to the pending list as well, and the main loop pops it (drawing
    [nextInt(1)] for that). *)
Lemma filler_is_enqueued :
  let g := started 12345 0 0 (set_seed 0) NORTH in
  exists p g' g'',
    _create_end_filler 10 67 1 NORTH 31 g = Some p /\
    _generate_and_add_piece 1 10 67 1 NORTH 30 false g = Ok (Some p, g') /\
    pieces g' = pieces g ++ [p] /\
    pending_children g' = [p] /\
    process_pending 1 1 g' = Ok (tt, g'') /\
    pending_children g'' = [] /\
    random g'' <> random g'.
Proof.
  cbv zeta. eexists _, _, _.
  split; [vm_compute; reflexivity|].
  split; [vm_compute; reflexivity|].
  split; [reflexivity|].
  split; [reflexivity|].
  split; [vm_compute; reflexivity|].
  split; [reflexivity|].
  vm_compute. discriminate.
Qed.

(** C2 (as the code has it).  Whenever a request returns a BridgeEndFiller,
    the filler is appended to the piece list and to the pending list alike;
    when the main loop pops it later, it spawns nothing. *)
Theorem filler_is_appended_and_enqueued (rf : nat) (x y z : Z) (d : Direction)
    (depth : Z) (is_castle : bool) (g : Generator)
    (p : StructurePiece) (g' : Generator) :
  _generate_and_add_piece rf x y z d depth is_castle g = Ok (Some p, g') ->
  piece_type p = BRIDGE_END_FILLER ->
  pieces g' = pieces g ++ [p] /\
  pending_children g' = pending_children g ++ [p] /\
  forall g2, _add_children rf p g2 = Ok (tt, g2).
Proof.
  intros Hrun Hfill.
  assert (Hch : forall g2, _add_children rf p g2 = Ok (tt, g2)).
  { intros g2. apply _add_children_no_branch. left. exact Hfill. }
  unfold _generate_and_add_piece in Hrun.
  match type of Hrun with context [if ?c then _ else _] => destruct c end;
    [discriminate|].
  unfold bind in Hrun.
  pose proof (_generate_piece_safe rf is_castle x y z d (depth + 1) g) as Hs.
  unfold safe in Hs.
  destruct (_generate_piece rf is_castle x y z d (depth + 1) g)
    as [[[q|] g1] | | |]; try discriminate.
  destruct Hs as ((S1 & S2 & _) & _).
  injection Hrun as -> <-. cbn. rewrite S1, S2. auto.
Qed.

Lemma filler_is_appended_and_enqueued_witness :
  let g := started 12345 0 0 (set_seed 0) NORTH in
  let p := mkPiece BRIDGE_END_FILLER (mkBox 9 64 (-6) 13 73 1) NORTH 31 in
  let g' := set_pending_children [p] (set_pieces (pieces g ++ [p]) g) in
  pieces g' = pieces g ++ [p] /\
  pending_children g' = pending_children g ++ [p] /\
  forall g2, _add_children 1 p g2 = Ok (tt, g2).
Proof.
  cbv zeta.
  apply (filler_is_appended_and_enqueued 1 10 67 1 NORTH 30 false
           (started 12345 0 0 (set_seed 0) NORTH)).
  - vm_compute. reflexivity.
  - reflexivity.
Defined.

End FortressGeneratorProps.

(* ===================================================================== *)
(** * Properties of the quad-crossing detector *)
(* ===================================================================== *)

Module CrossingDetectorProps.
Import FortressGenerator CrossingDetector.

(** A 19 x 19 footprint: both horizontal ranges hold 19 blocks. *)
Definition footprint19 (c : Ref) : Prop :=
  max_x (box c) - min_x (box c) = 18 /\ max_z (box c) - min_z (box c) = 18.

Lemma half_sum (lo hi : Z) : hi - lo = 18 -> (lo + hi) / 2 = lo + 9.
Proof.
  intros H. replace (lo + hi) with ((lo + 9) * 2) by lia.
  apply Z.div_mul. lia.
Qed.

Lemma center_x_footprint (c : Ref) :
  footprint19 c -> center_x (get_center (obj c)) = min_x (box c) + 9.
Proof. intros [H _]. unfold center_x, get_center, box in *. cbn [fst]. apply half_sum, H. Qed.

Lemma center_z_footprint (c : Ref) :
  footprint19 c -> center_z (get_center (obj c)) = min_z (box c) + 9.
Proof. intros [_ H]. unfold center_z, get_center, box in *. cbn [snd]. apply half_sum, H. Qed.

Lemma _is_directly_adjacent_x_true (b1 b2 : BoundingBox) :
  _is_directly_adjacent_x b1 b2 = true ->
  min_z b1 = min_z b2 /\ max_z b1 = max_z b2 /\
  min_y b1 = min_y b2 /\ max_y b1 = max_y b2 /\
  (min_x b2 = max_x b1 + 1 \/ min_x b1 = max_x b2 + 1).
Proof.
  unfold _is_directly_adjacent_x.
  destruct (Z.eqb_spec (min_z b1) (min_z b2)); cbn [negb orb]; [|discriminate].
  destruct (Z.eqb_spec (max_z b1) (max_z b2)); cbn [negb orb]; [|discriminate].
  destruct (Z.eqb_spec (min_y b1) (min_y b2)); cbn [negb orb]; [|discriminate].
  destruct (Z.eqb_spec (max_y b1) (max_y b2)); cbn [negb orb]; [|discriminate].
  destruct (Z.eqb_spec (min_x b2) (max_x b1 + 1)); [auto 6|].
  destruct (Z.eqb_spec (min_x b1) (max_x b2 + 1)); [auto 6 | discriminate].
Qed.

Lemma _is_directly_adjacent_z_true (b1 b2 : BoundingBox) :
  _is_directly_adjacent_z b1 b2 = true ->
  min_x b1 = min_x b2 /\ max_x b1 = max_x b2 /\
  min_y b1 = min_y b2 /\ max_y b1 = max_y b2 /\
  (min_z b2 = max_z b1 + 1 \/ min_z b1 = max_z b2 + 1).
Proof.
  unfold _is_directly_adjacent_z.
  destruct (Z.eqb_spec (min_x b1) (min_x b2)); cbn [negb orb]; [|discriminate].
  destruct (Z.eqb_spec (max_x b1) (max_x b2)); cbn [negb orb]; [|discriminate].
  destruct (Z.eqb_spec (min_y b1) (min_y b2)); cbn [negb orb]; [|discriminate].
  destruct (Z.eqb_spec (max_y b1) (max_y b2)); cbn [negb orb]; [|discriminate].
  destruct (Z.eqb_spec (min_z b2) (max_z b1 + 1)); [auto 6|].
  destruct (Z.eqb_spec (min_z b1) (max_z b2 + 1)); [auto 6 | discriminate].
Qed.

Lemma StructurePiece_eqb_refl (p : StructurePiece) : StructurePiece_eqb p p = true.
Proof.
  unfold StructurePiece_eqb, BoundingBox_eqb.
  rewrite FortressGeneratorProps.PieceType_eqb_refl, !Z.eqb_refl.
  destruct (direction p); reflexivity.
Qed.

Lemma StructurePiece_eqb_false (p q : StructurePiece) :
  StructurePiece_eqb p q = false -> p <> q.
Proof. intros H ->. rewrite StructurePiece_eqb_refl in H. discriminate. Qed.

(** What the first loop guarantees of a right neighbour: a list entry,
    distinct from the corner, with the same z and y ranges as the corner and
    starting one block after the corner's last x. *)
Definition is_right_of (cs : list Ref) (corner r : Ref) : Prop :=
  In r cs /\ obj r <> obj corner /\
  min_z (box r) = min_z (box corner) /\ max_z (box r) = max_z (box corner) /\
  min_x (box r) = max_x (box corner) + 1.

Definition is_down_of (cs : list Ref) (corner d : Ref) : Prop :=
  In d cs /\ obj d <> obj corner /\
  min_x (box d) = min_x (box corner) /\ max_x (box d) = max_x (box corner) /\
  min_z (box d) = max_z (box corner) + 1.

Definition entries_of (cs : list Ref) (entries : list ((Z * Z * Z) * Ref)) : Prop :=
  forall ctr c, In (ctr, c) entries -> ctr = get_center (obj c) /\ In c cs.

Lemma entries_of_map (cs : list Ref) :
  entries_of cs (map (fun c => (get_center (obj c), c)) cs).
Proof.
  intros ctr c H. apply in_map_iff in H. destruct H as (c' & E & Hin).
  injection E as <- <-. auto.
Qed.

Lemma neighbor_step_inv (cs : list Ref) (corner : Ref) :
  Forall footprint19 cs -> footprint19 corner ->
  forall (ctr : Z * Z * Z) (c : Ref) (nb : option Ref * option Ref),
  ctr = get_center (obj c) -> In c cs ->
  (forall r, fst nb = Some r -> is_right_of cs corner r) ->
  (forall d, snd nb = Some d -> is_down_of cs corner d) ->
  (forall r, fst (neighbor_step corner nb (ctr, c)) = Some r -> is_right_of cs corner r) /\
  (forall d, snd (neighbor_step corner nb (ctr, c)) = Some d -> is_down_of cs corner d).
Proof.
  intros Hfp Hcorner ctr c [nr nd] -> Hin Hr Hd. cbn [fst snd] in Hr, Hd.
  assert (Hc : footprint19 c) by (eapply Forall_forall in Hfp; eassumption).
  unfold neighbor_step.
  destruct (StructurePiece_eqb (obj c) (obj corner)) eqn:Eeq; [cbn [fst snd]; auto|].
  apply StructurePiece_eqb_false in Eeq.
  rewrite (center_x_footprint c Hc), (center_x_footprint corner Hcorner).
  rewrite (center_z_footprint c Hc), (center_z_footprint corner Hcorner).
  cbn [fst snd]. split.
  - assert (Hnew : (min_x (box c) + 9 - (min_x (box corner) + 9) >? 0)
                   && _is_directly_adjacent_x (box corner) (box c) = true ->
                   is_right_of cs corner c).
    { intros H. apply andb_true_iff in H. destruct H as [H1 H2].
      apply Z.gtb_lt in H1. apply _is_directly_adjacent_x_true in H2.
      destruct Hc as [Hc _], Hcorner as [Hk _].
      unfold is_right_of. repeat split; auto; lia. }
    destruct ((min_x (box c) + 9 - (min_x (box corner) + 9) >? 0)
              && _is_directly_adjacent_x (box corner) (box c)); [|exact Hr].
    intros r Hsel. destruct nr as [r0|].
    + destruct (_ <? _); injection Hsel as <-; auto.
    + injection Hsel as <-. auto.
  - assert (Hnew : (min_z (box c) + 9 - (min_z (box corner) + 9) >? 0)
                   && _is_directly_adjacent_z (box corner) (box c) = true ->
                   is_down_of cs corner c).
    { intros H. apply andb_true_iff in H. destruct H as [H1 H2].
      apply Z.gtb_lt in H1. apply _is_directly_adjacent_z_true in H2.
      destruct Hc as [_ Hc], Hcorner as [_ Hk].
      unfold is_down_of. repeat split; auto; lia. }
    destruct ((min_z (box c) + 9 - (min_z (box corner) + 9) >? 0)
              && _is_directly_adjacent_z (box corner) (box c)); [|exact Hd].
    intros d Hsel. destruct nd as [d0|].
    + destruct (_ <? _); injection Hsel as <-; auto.
    + injection Hsel as <-. auto.
Qed.

Lemma neighbors_inv (cs : list Ref) (corner : Ref) :
  Forall footprint19 cs -> footprint19 corner ->
  forall (entries : list ((Z * Z * Z) * Ref)) (nb : option Ref * option Ref),
  entries_of cs entries ->
  (forall r, fst nb = Some r -> is_right_of cs corner r) ->
  (forall d, snd nb = Some d -> is_down_of cs corner d) ->
  (forall r, fst (fold_left (neighbor_step corner) entries nb) = Some r ->
             is_right_of cs corner r) /\
  (forall d, snd (fold_left (neighbor_step corner) entries nb) = Some d ->
             is_down_of cs corner d).
Proof.
  intros Hfp Hcorner entries.
  induction entries as [|[ctr c] entries IH]; intros nb Hent Hr Hd; cbn [fold_left].
  - auto.
  - destruct (Hent ctr c (or_introl eq_refl)) as [Hctr Hin].
    destruct (neighbor_step_inv cs corner Hfp Hcorner ctr c nb Hctr Hin Hr Hd) as [Hr' Hd'].
    apply IH; auto.
    intros ctr' c' H. apply Hent. right. exact H.
Qed.

Lemma find_diagonal_some (cs : list Ref) (corner r d diag : Ref) :
  forall entries : list ((Z * Z * Z) * Ref),
  entries_of cs entries ->
  find_diagonal corner r d entries = Some diag ->
  In diag cs /\
  obj diag <> obj corner /\ obj diag <> obj r /\ obj diag <> obj d /\
  _is_directly_adjacent_z (box r) (box diag) = true /\
  _is_directly_adjacent_x (box d) (box diag) = true.
Proof.
  induction entries as [|[ctr c] entries IH]; intros Hent Hfind;
    cbn [find_diagonal] in Hfind; [discriminate|].
  assert (Hent' : entries_of cs entries)
    by (intros ctr' c' H; apply Hent; right; exact H).
  destruct (existsb _ [corner; r; d]) eqn:Eex; [auto|].
  destruct (_is_directly_adjacent_z (box r) (box c) &&
            _is_directly_adjacent_x (box d) (box c)) eqn:Eadj; [|auto].
  injection Hfind as <-.
  apply andb_true_iff in Eadj. destruct Eadj as [Ez Ex].
  cbn [existsb] in Eex. rewrite orb_false_r in Eex.
  apply orb_false_iff in Eex. destruct Eex as [E1 Eex].
  apply orb_false_iff in Eex. destruct Eex as [E2 E3].
  destruct (Hent ctr c (or_introl eq_refl)) as [_ Hin].
  repeat split; auto using StructurePiece_eqb_false.
Qed.

(** The quad built from a corner: four distinct list entries tiling a
    38 x 38 square. *)
Lemma _find_quad_from_corner_shape (cs : list Ref) (corner : Ref) (quad : QuadCrossing) :
  Forall footprint19 cs -> In corner cs ->
  _find_quad_from_corner corner (map (fun c => (get_center (obj c), c)) cs) = Some quad ->
  length (crossings quad) = 4%nat /\
  NoDup (map obj (crossings quad)) /\
  (forall c, In c (crossings quad) -> In c cs) /\
  max_x (quad_bounding_box quad) - min_x (quad_bounding_box quad) = 37 /\
  max_z (quad_bounding_box quad) - min_z (quad_bounding_box quad) = 37.
Proof.
  intros Hfp Hin Hquad.
  assert (Hcorner : footprint19 corner) by (eapply Forall_forall in Hfp; eassumption).
  unfold _find_quad_from_corner in Hquad.
  pose proof (neighbors_inv cs corner Hfp Hcorner _ (None, None) (entries_of_map cs)
                ltac:(cbn; discriminate) ltac:(cbn; discriminate)) as [Hr Hd].
  destruct (fold_left (neighbor_step corner) _ (None, None)) as [[r|] [d|]];
    try discriminate.
  specialize (Hr r eq_refl). specialize (Hd d eq_refl).
  destruct (find_diagonal corner r d _) as [diag|] eqn:Ediag; [|discriminate].
  apply (find_diagonal_some cs) in Ediag; [|apply entries_of_map].
  destruct Ediag as (Hdin & Hdc & Hdr & Hdd & Hz & Hx).
  apply _is_directly_adjacent_z_true in Hz. apply _is_directly_adjacent_x_true in Hx.
  destruct Hr as (Hrin & Hrc & Hr1 & Hr2 & Hr3).
  destruct Hd as (Hdin' & Hdc' & Hd1 & Hd2 & Hd3).
  assert (Fr : footprint19 r) by (eapply Forall_forall in Hfp; eassumption).
  assert (Fd : footprint19 d) by (eapply Forall_forall in Hfp; eassumption).
  assert (Fg : footprint19 diag) by (eapply Forall_forall in Hfp; eassumption).
  destruct Hcorner as [Kx Kz], Fr as [Rx Rz], Fd as [Dx Dz], Fg as [Gx Gz].
  injection Hquad as <-. cbn [crossings quad_bounding_box length map].
  assert (Hrd : obj r <> obj d).
  { intros E. unfold box in *. rewrite E in *. lia. }
  split; [reflexivity|].
  split.
  { repeat constructor; cbn [In]; intuition congruence. }
  split.
  { intros c [<- | [<- | [<- | [<- | []]]]]; assumption. }
  unfold py_min, py_max. cbn [fold_left min_x max_x min_z max_z].
  split; lia.
Qed.

(** Every quad in the result was built from some entry taken as corner. *)
Lemma find_quad_crossings_from_corner (cs : list Ref) (quad : QuadCrossing) :
  In quad (find_quad_crossings cs) ->
  exists corner, In corner cs /\
    _find_quad_from_corner corner (map (fun c => (get_center (obj c), c)) cs) = Some quad.
Proof.
  unfold find_quad_crossings. destruct (length cs <? 4)%nat; [intros []|].
  set (entries := map (fun c => (get_center (obj c), c)) cs).
  assert (Hgen : forall (todo : list ((Z * Z * Z) * Ref)) (acc : list QuadCrossing),
            (forall ctr c, In (ctr, c) todo -> In c cs) ->
            (forall q, In q acc -> exists corner, In corner cs /\
                         _find_quad_from_corner corner entries = Some q) ->
            forall q,
            In q (fold_left
                    (fun quad_crossings '(_, crossing1) =>
                       match _find_quad_from_corner crossing1 entries with
                       | Some quad =>
                           if negb (_is_duplicate_quad quad quad_crossings)
                           then quad_crossings ++ [quad]
                           else quad_crossings
                       | None => quad_crossings
                       end) todo acc) ->
            exists corner, In corner cs /\
              _find_quad_from_corner corner entries = Some q).
  { induction todo as [|[ctr c] todo IH]; intros acc Htodo Hacc q Hq; cbn [fold_left] in Hq.
    - auto.
    - eapply IH; [| |exact Hq].
      + intros ctr' c' H. eapply Htodo. right. exact H.
      + intros q' Hq'.
        destruct (_find_quad_from_corner c entries) as [quad'|] eqn:E; [|auto].
        destruct (negb (_is_duplicate_quad quad' acc)); [|auto].
        apply in_app_or in Hq'. destruct Hq' as [Hq' | [<- | []]]; [auto|].
        exists c. split; [|exact E]. eapply Htodo. left. reflexivity. }
  intros Hq. eapply Hgen; [| |exact Hq].
  - intros ctr c H. eapply entries_of_map. exact H.
  - intros q [].
Qed.

(** The combined bounding box of a list of pieces, as the specification
    means it: the smallest box that contains the box of every member.  On
    each axis its minimum is the least of the members' minima and its maximum
    the greatest of their maxima. *)
Definition least_of (f : BoundingBox -> Z) (members : list Ref) (v : Z) : Prop :=
  (forall c, In c members -> v <= f (box c)) /\
  (exists c, In c members /\ f (box c) = v).

Definition greatest_of (f : BoundingBox -> Z) (members : list Ref) (v : Z) : Prop :=
  (forall c, In c members -> f (box c) <= v) /\
  (exists c, In c members /\ f (box c) = v).

Definition combined_box (members : list Ref) (b : BoundingBox) : Prop :=
  least_of min_x members (min_x b) /\ least_of min_y members (min_y b) /\
  least_of min_z members (min_z b) /\
  greatest_of max_x members (max_x b) /\ greatest_of max_y members (max_y b) /\
  greatest_of max_z members (max_z b).

Lemma py_min_spec (rest : list Z) :
  forall first : Z,
  py_min first rest <= first /\
  (forall v, In v rest -> py_min first rest <= v) /\
  In (py_min first rest) (first :: rest).
Proof.
  unfold py_min. induction rest as [|a rest IH]; intros first; cbn [fold_left].
  - split; [lia|]. split; [intros v []|]. left. reflexivity.
  - destruct (IH (Z.min first a)) as (H1 & H2 & H3).
    split; [lia|]. split.
    + intros v [<- | Hv]; [lia | exact (H2 v Hv)].
    + destruct H3 as [H3 | H3]; [|right; right; exact H3].
      cbn [In]. rewrite <- H3.
      destruct (Z.min_spec first a) as [[_ E] | [_ E]]; rewrite E; auto.
Qed.

Lemma py_max_spec (rest : list Z) :
  forall first : Z,
  first <= py_max first rest /\
  (forall v, In v rest -> v <= py_max first rest) /\
  In (py_max first rest) (first :: rest).
Proof.
  unfold py_max. induction rest as [|a rest IH]; intros first; cbn [fold_left].
  - split; [lia|]. split; [intros v []|]. left. reflexivity.
  - destruct (IH (Z.max first a)) as (H1 & H2 & H3).
    split; [lia|]. split.
    + intros v [<- | Hv]; [lia | exact (H2 v Hv)].
    + destruct H3 as [H3 | H3]; [|right; right; exact H3].
      cbn [In]. rewrite <- H3.
      destruct (Z.max_spec first a) as [[_ E] | [_ E]]; rewrite E; auto.
Qed.

Lemma least_of_py_min (f : BoundingBox -> Z) (first : Ref) (rest : list Ref) :
  least_of f (first :: rest)
    (py_min (f (box first)) (map (fun c => f (box c)) rest)).
Proof.
  destruct (py_min_spec (map (fun c => f (box c)) rest) (f (box first)))
    as (H1 & H2 & H3).
  split.
  - intros c [<- | Hc]; [exact H1|].
    apply H2. apply in_map_iff. exists c. auto.
  - destruct H3 as [H3 | H3].
    + exists first. split; [left; reflexivity | exact H3].
    + apply in_map_iff in H3. destruct H3 as (c & E & Hc).
      exists c. split; [right; exact Hc | exact E].
Qed.

Lemma greatest_of_py_max (f : BoundingBox -> Z) (first : Ref) (rest : list Ref) :
  greatest_of f (first :: rest)
    (py_max (f (box first)) (map (fun c => f (box c)) rest)).
Proof.
  destruct (py_max_spec (map (fun c => f (box c)) rest) (f (box first)))
    as (H1 & H2 & H3).
  split.
  - intros c [<- | Hc]; [exact H1|].
    apply H2. apply in_map_iff. exists c. auto.
  - destruct H3 as [H3 | H3].
    + exists first. split; [left; reflexivity | exact H3].
    + apply in_map_iff in H3. destruct H3 as (c & E & Hc).
      exists c. split; [right; exact Hc | exact E].
Qed.

Lemma least_of_unique (f : BoundingBox -> Z) (members : list Ref) (v v' : Z) :
  least_of f members v -> least_of f members v' -> v = v'.
Proof.
  intros [L1 (c1 & I1 & E1)] [L2 (c2 & I2 & E2)].
  pose proof (L1 c2 I2). pose proof (L2 c1 I1). lia.
Qed.

Lemma greatest_of_unique (f : BoundingBox -> Z) (members : list Ref) (v v' : Z) :
  greatest_of f members v -> greatest_of f members v' -> v = v'.
Proof.
  intros [L1 (c1 & I1 & E1)] [L2 (c2 & I2 & E2)].
  pose proof (L1 c2 I2). pose proof (L2 c1 I1). lia.
Qed.

(** The box stored in a cluster is the combined box of its members. *)
Lemma _find_quad_from_corner_combined (corner : Ref)
    (entries : list ((Z * Z * Z) * Ref)) (quad : QuadCrossing) :
  _find_quad_from_corner corner entries = Some quad ->
  combined_box (crossings quad) (quad_bounding_box quad).
Proof.
  unfold _find_quad_from_corner.
  destruct (fold_left (neighbor_step corner) entries (None, None)) as [[r|] [d|]];
    try discriminate.
  destruct (find_diagonal corner r d entries) as [diag|]; [|discriminate].
  intros E. injection E as <-.
  cbn [crossings quad_bounding_box min_x min_y min_z max_x max_y max_z].
  unfold combined_box.
  split; [exact (least_of_py_min min_x corner [r; d; diag])|].
  split; [exact (least_of_py_min min_y corner [r; d; diag])|].
  split; [exact (least_of_py_min min_z corner [r; d; diag])|].
  split; [exact (greatest_of_py_max max_x corner [r; d; diag])|].
  split; [exact (greatest_of_py_max max_y corner [r; d; diag])|].
  exact (greatest_of_py_max max_z corner [r; d; diag]).
Qed.

(** C8.  On a list of pieces that all have a 19 x 19 footprint, every
    cluster returned by [find_quad_crossings] has exactly four members,
    pairwise distinct (as references and as values) and taken from the
    input; the box it stores is the combined bounding box of those four, and
    the combined bounding box of those four measures 37 from minimum to
    maximum on x and on z. *)
Theorem find_quad_crossings_shape (cs : list Ref) (quad : QuadCrossing) :
  Forall footprint19 cs ->
  In quad (find_quad_crossings cs) ->
  length (crossings quad) = 4%nat /\
  NoDup (crossings quad) /\
  NoDup (map obj (crossings quad)) /\
  (forall c, In c (crossings quad) -> In c cs) /\
  combined_box (crossings quad) (quad_bounding_box quad) /\
  (forall b, combined_box (crossings quad) b ->
     max_x b - min_x b = 37 /\ max_z b - min_z b = 37) /\
  max_x (quad_bounding_box quad) - min_x (quad_bounding_box quad) = 37 /\
  max_z (quad_bounding_box quad) - min_z (quad_bounding_box quad) = 37.
Proof.
  intros Hfp Hq.
  destruct (find_quad_crossings_from_corner cs quad Hq) as (corner & Hin & Hquad).
  destruct (_find_quad_from_corner_shape cs corner quad Hfp Hin Hquad)
    as (H4 & Hnd & Hmem & Hx & Hz).
  pose proof (_find_quad_from_corner_combined corner _ quad Hquad) as Hbox.
  split; [exact H4|].
  split; [eapply NoDup_map_inv; exact Hnd|].
  split; [exact Hnd|].
  split; [exact Hmem|].
  split; [exact Hbox|].
  split; [|split; [exact Hx | exact Hz]].
  intros b (B1 & _ & B3 & B4 & _ & B6).
  destruct Hbox as (Q1 & _ & Q3 & Q4 & _ & Q6).
  rewrite (least_of_unique min_x _ _ _ B1 Q1), (least_of_unique min_z _ _ _ B3 Q3).
  rewrite (greatest_of_unique max_x _ _ _ B4 Q4), (greatest_of_unique max_z _ _ _ B6 Q6).
  split; [exact Hx | exact Hz].
Qed.

(** Four crossings in a 2 x 2 arrangement: one cluster, from (0,0) to (37,37). *)
Definition quad_example : list Ref :=
  [ mkRef 0 (mkPiece BRIDGE_CROSSING (mkBox 0 64 0 18 73 18) NORTH 1);
    mkRef 1 (mkPiece BRIDGE_CROSSING (mkBox 19 64 0 37 73 18) NORTH 2);
    mkRef 2 (mkPiece BRIDGE_CROSSING (mkBox 0 64 19 18 73 37) NORTH 2);
    mkRef 3 (mkPiece BRIDGE_CROSSING (mkBox 19 64 19 37 73 37) NORTH 3) ].

Lemma find_quad_crossings_shape_witness :
  exists quad,
    find_quad_crossings quad_example = [quad] /\
    length (crossings quad) = 4%nat /\
    NoDup (crossings quad) /\
    NoDup (map obj (crossings quad)) /\
    (forall c, In c (crossings quad) -> In c quad_example) /\
    combined_box (crossings quad) (quad_bounding_box quad) /\
    (forall b, combined_box (crossings quad) b ->
       max_x b - min_x b = 37 /\ max_z b - min_z b = 37) /\
    max_x (quad_bounding_box quad) - min_x (quad_bounding_box quad) = 37 /\
    max_z (quad_bounding_box quad) - min_z (quad_bounding_box quad) = 37.
Proof.
  eexists. split; [vm_compute; reflexivity|].
  apply (find_quad_crossings_shape quad_example).
  - repeat constructor.
  - vm_compute. left. reflexivity.
Defined.

End CrossingDetectorProps.

(* ===================================================================== *)
(** * Further properties of the random source *)
(* ===================================================================== *)

Module RandomSourceExtra.
Import RandomSource.

Lemma low_bits_lxor (a b m : Z) :
  a mod 2 ^ 48 = b mod 2 ^ 48 ->
  Z.lxor a m mod 2 ^ 48 = Z.lxor b m mod 2 ^ 48.
Proof.
  intros H. apply Z.bits_inj'. intros i Hi.
  rewrite !Z.testbit_mod_pow2 by lia.
  destruct (Z.ltb_spec i 48); [|reflexivity]. cbn [andb].
  rewrite !Z.lxor_spec. f_equal.
  assert (Ha : Z.testbit (a mod 2 ^ 48) i = Z.testbit a i)
    by (apply Z.mod_pow2_bits_low; lia).
  assert (Hb : Z.testbit (b mod 2 ^ 48) i = Z.testbit b i)
    by (apply Z.mod_pow2_bits_low; lia).
  rewrite <- Ha, <- Hb, H. reflexivity.
Qed.

(** Only the low 48 bits of a seed reach the generator. *)
Lemma set_seed_congr (a b : Z) :
  a mod 2 ^ 48 = b mod 2 ^ 48 -> set_seed a = set_seed b.
Proof.
  intros H. unfold set_seed. rewrite !RandomSourceProps.mask_mod.
  apply low_bits_lxor. exact H.
Qed.

Lemma mod64_mod48 (a : Z) : (a mod 2 ^ 64) mod 2 ^ 48 = a mod 2 ^ 48.
Proof.
  apply Z.mod_mod_divide. exists (2 ^ 16). reflexivity.
Qed.

Lemma wrap64_low_bits (a : Z) : wrap64 a mod 2 ^ 48 = a mod 2 ^ 48.
Proof.
  rewrite <- (mod64_mod48 (wrap64 a)), RandomSourceProps.wrap64_mod.
  apply mod64_mod48.
Qed.

(** X1.  [set_seed] stores a state in [[0, 2^48)], and seeds that differ by a
    multiple of 2^48 give the same state. *)
Theorem set_seed_range_and_period (seed k : Z) :
  0 <= set_seed seed < 2 ^ 48 /\
  set_seed (seed + k * 2 ^ 48) = set_seed seed.
Proof.
  split.
  - unfold set_seed. rewrite RandomSourceProps.mask_mod.
    apply Z.mod_pos_bound. lia.
  - apply set_seed_congr. apply Z.mod_add. lia.
Qed.

(** X2.  For [0 <= bits <= 48], [next(bits)] returns a value in
    [[0, 2^bits)], namely the top [bits] bits of the new state, and the new
    state is in [[0, 2^48)] and does not depend on [bits]. *)
Theorem next_bounds (bits : Z) (s : rng) :
  0 <= bits <= 48 ->
  0 <= fst (next bits s) < 2 ^ bits /\
  0 <= snd (next bits s) < 2 ^ 48 /\
  fst (next bits s) = snd (next bits s) / 2 ^ (48 - bits) /\
  snd (next bits s) = snd (next 48 s).
Proof.
  intros Hb. split; [apply RandomSourceProps.next_range; exact Hb|].
  unfold next. cbn [fst snd]. rewrite RandomSourceProps.mask_mod.
  split; [apply Z.mod_pos_bound; lia|].
  split; [apply Z.shiftr_div_pow2; lia | reflexivity].
Qed.

Lemma next_bounds_witness :
  0 <= fst (next 31 (set_seed 0)) < 2 ^ 31 /\
  0 <= snd (next 31 (set_seed 0)) < 2 ^ 48 /\
  fst (next 31 (set_seed 0)) = snd (next 31 (set_seed 0)) / 2 ^ (48 - 31) /\
  snd (next 31 (set_seed 0)) = snd (next 48 (set_seed 0)).
Proof. apply (next_bounds 31 (set_seed 0)). lia. Defined.

(** X3.  The advance step loses nothing: two states in [[0, 2^48)] that are
    advanced to the same state are equal. *)
Theorem next_state_injective (bits1 bits2 : Z) (s1 s2 : rng) :
  0 <= s1 < 2 ^ 48 -> 0 <= s2 < 2 ^ 48 ->
  snd (next bits1 s1) = snd (next bits2 s2) -> s1 = s2.
Proof.
  intros H1 H2. unfold next. cbn [snd]. rewrite !RandomSourceProps.mask_mod.
  unfold MULTIPLIER, INCREMENT. intros E.
  assert (Hd : (2 ^ 48 | (s1 * 25214903917 + 11) - (s2 * 25214903917 + 11))).
  { apply Z.mod_divide; [lia|].
    rewrite Zminus_mod, E, Z.sub_diag. reflexivity. }
  destruct Hd as [q Hq].
  assert (Hinv : 25214903917 * 246154705703781 = 1 + 2 ^ 48 * 22050866921) by reflexivity.
  assert (Hs : s1 - s2 = 2 ^ 48 * (q * 246154705703781 - (s1 - s2) * 22050866921)) by nia.
  assert (Hz : q * 246154705703781 - (s1 - s2) * 22050866921 = 0) by nia.
  rewrite Hz in Hs. lia.
Qed.

Lemma next_state_injective_witness :
  set_seed 5 = set_seed (5 + 2 ^ 48).
Proof.
  apply (next_state_injective 31 32).
  - vm_compute. split; [discriminate | reflexivity].
  - vm_compute. split; [discriminate | reflexivity].
  - vm_compute. reflexivity.
Defined.

(** X4.  With a positive bound and any non-empty retry budget, [next_int]
    returns a value in [[0, bound)] and has advanced the generator by exactly
    one [next(31)] step. *)
Theorem next_int_one_draw (fuel : nat) (bound : Z) (s : rng) :
  0 < bound ->
  exists v, next_int (S fuel) bound s = Ok (v, snd (next 31 s)) /\ 0 <= v < bound.
Proof.
  intros Hb.
  destruct (RandomSourceProps.next_int_ok fuel bound s Hb) as (v & s' & E & Hv).
  exists v. split; [|exact Hv]. rewrite E. f_equal. f_equal.
  unfold next_int in E. destruct (Z.leb_spec bound 0); [lia|].
  destruct (Z.land bound (bound - 1) =? 0).
  - destruct (next 31 s) as [bits s1]. injection E as _ <-. reflexivity.
  - rewrite RandomSourceProps.next_int_loop_first in E by assumption.
    injection E as _ <-. reflexivity.
Qed.

Lemma next_int_one_draw_witness :
  exists v, next_int 1 23 (set_seed 0) = Ok (v, snd (next 31 (set_seed 0))) /\ 0 <= v < 23.
Proof. apply (next_int_one_draw 0 23 (set_seed 0)). lia. Defined.

(** X5.  For a power-of-two bound [2^k], [next_int] returns the top [k] bits
    of the new state, the value [next(k)] would have returned; no retry
    budget is needed. *)
Theorem next_int_power_of_two (fuel : nat) (k : Z) (s : rng) :
  0 <= k <= 31 ->
  next_int fuel (2 ^ k) s = Ok (fst (next k s), snd (next 31 s)).
Proof.
  intros Hk. unfold next_int.
  assert (Hp : 0 < 2 ^ k) by (apply Z.pow_pos_nonneg; lia).
  destruct (Z.leb_spec (2 ^ k) 0); [lia|].
  assert (Hl : Z.land (2 ^ k) (2 ^ k - 1) = 0).
  { replace (2 ^ k - 1) with (Z.ones k) by (rewrite Z.ones_equiv; lia).
    rewrite Z.land_ones by lia. apply Z.mod_same. lia. }
  rewrite Hl. cbn [Z.eqb].
  unfold next. cbn [fst snd]. rewrite RandomSourceProps.mask_mod.
  set (s' := (s * MULTIPLIER + INCREMENT) mod 2 ^ 48).
  f_equal. f_equal.
  rewrite !Z.shiftr_div_pow2 by lia.
  replace (48 - 31) with 17 by lia.
  replace (2 ^ 31) with (2 ^ k * 2 ^ (31 - k))
    by (rewrite <- Z.pow_add_r by lia; f_equal; lia).
  rewrite Z.div_mul_cancel_l by lia.
  rewrite Z.div_div by (try apply Z.pow_pos_nonneg; lia).
  rewrite <- Z.pow_add_r by lia. f_equal. f_equal. lia.
Qed.

Lemma next_int_power_of_two_witness :
  next_int 0 (2 ^ 2) (set_seed 0)
  = Ok (fst (next 2 (set_seed 0)), snd (next 31 (set_seed 0))).
Proof. apply (next_int_power_of_two 0 2 (set_seed 0)). lia. Defined.

(** X6.  [_to_signed_int] maps an unsigned 32-bit value to the signed 32-bit
    integer with the same low 32 bits, and [_to_signed_long] does the same
    at 64 bits. *)
Theorem to_signed_roundtrip (v w : Z) :
  0 <= v < 2 ^ 32 -> 0 <= w < 2 ^ 64 ->
  (- 2 ^ 31 <= _to_signed_int v < 2 ^ 31 /\ _to_signed_int v mod 2 ^ 32 = v) /\
  (- 2 ^ 63 <= _to_signed_long w < 2 ^ 63 /\ _to_signed_long w mod 2 ^ 64 = w).
Proof.
  intros Hv Hw. unfold _to_signed_int, _to_signed_long.
  change (Z.shiftl 1 31) with (2 ^ 31). change (Z.shiftl 1 32) with (2 ^ 32).
  change (Z.shiftl 1 63) with (2 ^ 63). change (Z.shiftl 1 64) with (2 ^ 64).
  split.
  - destruct (Z.geb_spec v (2 ^ 31)).
    + split; [lia|].
      replace (v - 2 ^ 32) with (v + (-1) * 2 ^ 32) by lia.
      rewrite Z.mod_add by lia. apply Z.mod_small. lia.
    + split; [lia|]. apply Z.mod_small. lia.
  - destruct (Z.geb_spec w (2 ^ 63)).
    + split; [lia|].
      replace (w - 2 ^ 64) with (w + (-1) * 2 ^ 64) by lia.
      rewrite Z.mod_add by lia. apply Z.mod_small. lia.
    + split; [lia|]. apply Z.mod_small. lia.
Qed.

Lemma to_signed_roundtrip_witness :
  (- 2 ^ 31 <= _to_signed_int 3571011896 < 2 ^ 31 /\
   _to_signed_int 3571011896 mod 2 ^ 32 = 3571011896) /\
  (- 2 ^ 63 <= _to_signed_long (2 ^ 63 + 5) < 2 ^ 63 /\
   _to_signed_long (2 ^ 63 + 5) mod 2 ^ 64 = 2 ^ 63 + 5).
Proof. apply (to_signed_roundtrip 3571011896 (2 ^ 63 + 5)); lia. Defined.

Lemma lxor_low_bits (a a' b b' : Z) :
  a mod 2 ^ 48 = a' mod 2 ^ 48 -> b mod 2 ^ 48 = b' mod 2 ^ 48 ->
  Z.lxor a b mod 2 ^ 48 = Z.lxor a' b' mod 2 ^ 48.
Proof.
  intros Ha Hb. rewrite (low_bits_lxor a a' b Ha).
  rewrite (Z.lxor_comm a' b), (Z.lxor_comm a' b').
  apply low_bits_lxor. exact Hb.
Qed.

(** X7.  The 64-bit wrapping in the seed derivations has no effect on the
    generator: only 48 bits are kept, so the salted seed is the seed of the
    plain sum, and the large-feature seed is the seed of the plain
    [x*m ^ z*n ^ world_seed]. *)
Theorem seed_derivations_ignore_wrapping (world_seed x z salt : Z) :
  set_large_feature_with_salt world_seed x z salt
    = set_seed (x * 341873128712 + z * 132897987541 + world_seed + salt) /\
  set_large_feature_seed world_seed x z
    = (let s := set_seed world_seed in
       let m := fst (next_long s) in
       let n := fst (next_long (snd (next_long s))) in
       set_seed (Z.lxor (Z.lxor (x * m) (z * n)) world_seed)).
Proof.
  split.
  - unfold set_large_feature_with_salt. apply set_seed_congr.
    apply (wrap64_low_bits _).
  - cbv zeta. unfold set_large_feature_seed.
    destruct (next_long (set_seed world_seed)) as [m s1]. cbn [fst snd].
    destruct (next_long s1) as [n s2]. cbn [fst].
    apply set_seed_congr.
    change (_to_signed_long (Z.land ?v mask64)) with (wrap64 v).
    rewrite wrap64_low_bits.
    apply lxor_low_bits; [|reflexivity].
    apply lxor_low_bits; apply wrap64_low_bits.
Qed.

(** ** The decoration and feature seeds *)

Lemma mod_eq_iff_divide (a b n : Z) :
  0 < n -> (a mod n = b mod n <-> (n | a - b)).
Proof.
  intros Hn. split.
  - intros E. exists (a / n - b / n).
    pose proof (Z.div_mod a n ltac:(lia)). pose proof (Z.div_mod b n ltac:(lia)). nia.
  - intros [q Hq]. replace a with (b + q * n) by lia. apply Z.mod_add. lia.
Qed.

Lemma odd_cancel (m : Z) (k : nat) :
  Z.odd m = true ->
  forall d, (2 ^ Z.of_nat k | m * d) -> (2 ^ Z.of_nat k | d).
Proof.
  intros Hm. induction k as [|k IH]; intros d Hd.
  - exists d. cbn. lia.
  - rewrite Nat2Z.inj_succ, Z.pow_succ_r in * by lia.
    destruct Hd as [q Hq].
    assert (He : Z.even d = true).
    { assert (Hmd : Z.even (m * d) = true).
      { rewrite Hq. replace (q * (2 * 2 ^ Z.of_nat k)) with (2 * (q * 2 ^ Z.of_nat k)) by lia.
        apply Z.even_spec. exists (q * 2 ^ Z.of_nat k). reflexivity. }
      rewrite Z.even_mul in Hmd. rewrite <- Z.negb_odd, Hm in Hmd. exact Hmd. }
    apply Z.even_spec in He. destruct He as [d' ->].
    destruct (IH d') as [r Hr]; [exists q; nia|].
    exists r. nia.
Qed.

Lemma lor_1_odd (m : Z) : Z.odd (Z.lor m 1) = true.
Proof.
  rewrite <- Z.bit0_odd, Z.lor_spec. apply orb_true_r.
Qed.

Lemma odd_multiple_low_bits (m a b c : Z) :
  Z.odd m = true ->
  ((a * m + c) mod 2 ^ 48 = (b * m + c) mod 2 ^ 48 <-> a mod 2 ^ 48 = b mod 2 ^ 48).
Proof.
  intros Hm. rewrite !mod_eq_iff_divide by lia.
  replace (a * m + c - (b * m + c)) with (m * (a - b)) by lia. split.
  - apply (odd_cancel m 48 Hm).
  - intros [q Hq]. exists (m * q). rewrite Hq. lia.
Qed.

Lemma lxor_low_bits_iff (a b w : Z) :
  Z.lxor a w mod 2 ^ 48 = Z.lxor b w mod 2 ^ 48 <-> a mod 2 ^ 48 = b mod 2 ^ 48.
Proof.
  split; [|apply low_bits_lxor].
  intros H. apply (low_bits_lxor _ _ w) in H.
  rewrite !Z.lxor_assoc, Z.lxor_nilpotent, !Z.lxor_0_r in H. exact H.
Qed.

Lemma set_seed_eq_iff (a b : Z) :
  set_seed a = set_seed b <-> a mod 2 ^ 48 = b mod 2 ^ 48.
Proof.
  unfold set_seed. rewrite !RandomSourceProps.mask_mod. apply lxor_low_bits_iff.
Qed.

(** X30.  [set_decoration_seed] leaves the generator in the state of the
    seed it returns reduced to 64 bits, and, its two multipliers being odd,
    it tells chunks apart: for a fixed world seed the state depends on [x]
    exactly through [x mod 2^48], and likewise on [z].  [set_feature_seed]
    is the state of [world_seed + x + 10000 * z] reduced to 64 bits. *)
Theorem set_decoration_seed_separates (world_seed x x' z z' : Z) :
  snd (set_decoration_seed world_seed x z)
    = set_seed (wrap64 (fst (set_decoration_seed world_seed x z))) /\
  (snd (set_decoration_seed world_seed x z) = snd (set_decoration_seed world_seed x' z)
   <-> x mod 2 ^ 48 = x' mod 2 ^ 48) /\
  (snd (set_decoration_seed world_seed x z) = snd (set_decoration_seed world_seed x z')
   <-> z mod 2 ^ 48 = z' mod 2 ^ 48) /\
  set_feature_seed world_seed x z = set_seed (wrap64 (world_seed + x + 10000 * z)).
Proof.
  unfold set_decoration_seed, set_feature_seed.
  destruct (next_long (set_seed world_seed)) as [m s1].
  destruct (next_long s1) as [n s2]. cbn [fst snd].
  split; [|split; [|split]].
  - apply set_seed_congr. symmetry. apply wrap64_low_bits.
  - rewrite set_seed_eq_iff, lxor_low_bits_iff.
    apply odd_multiple_low_bits, lor_1_odd.
  - rewrite set_seed_eq_iff, lxor_low_bits_iff.
    rewrite (Z.add_comm (x * Z.lor m 1)), (Z.add_comm (x * Z.lor m 1) (z' * _)).
    apply odd_multiple_low_bits, lor_1_odd.
  - apply set_seed_congr. symmetry. apply wrap64_low_bits.
Qed.

End RandomSourceExtra.

(* ===================================================================== *)
(** * Further properties of the locator *)
(* ===================================================================== *)

Module FortressLocatorExtra.
Import RandomSource FortressLocator.
Import FortressLocatorProps.

Lemma region_of_candidate (r o : Z) : 0 <= o < 23 -> region_of (r * SPACING + o) = r.
Proof.
  intros Ho. unfold region_of, SPACING. symmetry.
  apply (Z.div_unique _ 27 r o); lia.
Qed.

(** X8.  For every chunk, [get_potential_fortress_chunk] returns a chunk of
    the same region, among the first 23 x 23 chunks of that region, and
    asking again for the returned chunk gives the same chunk. *)
Theorem potential_chunk_in_region (fuel : nat) (world_seed cx cz : Z)
    (Hx : chunk_coordinate cx) (Hz : chunk_coordinate cz) :
  exists px pz,
    get_potential_fortress_chunk (S fuel) world_seed cx cz = Ok (px, pz) /\
    region_of px = region_of cx /\ region_of pz = region_of cz /\
    0 <= px - region_of cx * 27 < 23 /\ 0 <= pz - region_of cz * 27 < 23 /\
    get_potential_fortress_chunk (S fuel) world_seed px pz = Ok (px, pz).
Proof.
  assert (Hget : forall a b, get_potential_fortress_chunk (S fuel) world_seed a b
                 = structure_chunk_of_region (S fuel) world_seed
                     (region_of a) (region_of b)) by reflexivity.
  destruct (structure_chunk_of_region_ok fuel world_seed (region_of cx) (region_of cz))
    as (ox & oz & E & Hox & Hoz).
  exists (region_of cx * SPACING + ox), (region_of cz * SPACING + oz).
  rewrite !Hget, !region_of_candidate by assumption.
  unfold SPACING. repeat split; auto; lia.
Qed.

Lemma potential_chunk_in_region_witness :
  exists px pz,
    get_potential_fortress_chunk 1 12345 (-5) 40 = Ok (px, pz) /\
    region_of px = region_of (-5) /\ region_of pz = region_of 40 /\
    0 <= px - region_of (-5) * 27 < 23 /\ 0 <= pz - region_of 40 * 27 < 23 /\
    get_potential_fortress_chunk 1 12345 px pz = Ok (px, pz).
Proof.
  apply (potential_chunk_in_region 0 12345 (-5) 40); unfold chunk_coordinate; lia.
Defined.

(** X9.  Chunk and block coordinates: the chunk of a chunk's corner block is
    that chunk, and a block lies 0 to 15 blocks above the corner of its
    chunk, on each axis and for negative coordinates too. *)
Theorem chunk_block_roundtrip (a b : Z) :
  block_to_chunk (fst (chunk_to_block a b)) (snd (chunk_to_block a b)) = (a, b) /\
  (let c := block_to_chunk a b in
   0 <= a - fst (chunk_to_block (fst c) (snd c)) < 16 /\
   0 <= b - snd (chunk_to_block (fst c) (snd c)) < 16).
Proof.
  unfold block_to_chunk, chunk_to_block. cbn [fst snd].
  rewrite !Z.shiftr_div_pow2 by lia. change (2 ^ 4) with 16.
  split.
  - rewrite !Z.div_mul by lia. reflexivity.
  - pose proof (Z.div_mod a 16 ltac:(lia)) as Ha.
    pose proof (Z.mod_pos_bound a 16 ltac:(lia)) as Ha'.
    pose proof (Z.div_mod b 16 ltac:(lia)) as Hb.
    pose proof (Z.mod_pos_bound b 16 ltac:(lia)) as Hb'.
    lia.
Qed.

(** *** [find_fortresses_in_range] in closed form *)

Lemma _is_fortress_at_chunk_ok (fuel : nat) (world_seed cx cz : Z) :
  exists b, _is_fortress_at_chunk (S fuel) world_seed cx cz = Ok b.
Proof.
  unfold _is_fortress_at_chunk.
  destruct (RandomSourceProps.next_int_ok fuel TOTAL_WEIGHT
              (set_large_feature_seed world_seed cx cz) ltac:(reflexivity))
    as (v & s' & -> & _).
  cbn [rbind]. eauto.
Qed.

(** What one region contributes to the result. *)
Definition region_fortresses (fuel : nat) (world_seed ccx ccz radius rx rz : Z)
  : list (Z * Z) :=
  match structure_chunk_of_region fuel world_seed rx rz with
  | Ok (sx, sz) =>
      if (Z.abs (sx - ccx) <=? radius) && (Z.abs (sz - ccz) <=? radius)
      then match _is_fortress_at_chunk fuel world_seed sx sz with
           | Ok true => [(sx, sz)]
           | _ => []
           end
      else []
  | _ => []
  end.

Lemma for_each_flat_map {A B : Type} (f : A -> list B)
    (body : list B -> A -> result (list B)) (l : list A) :
  (forall acc a, body acc a = Ok (acc ++ f a)) ->
  forall acc, for_each l acc body = Ok (acc ++ flat_map f l).
Proof.
  intros Hbody. induction l as [|a l IH]; intros acc; cbn [for_each flat_map].
  - rewrite app_nil_r. reflexivity.
  - rewrite Hbody. cbn [rbind]. rewrite IH, <- app_assoc. reflexivity.
Qed.

Lemma find_fortresses_in_range_closed (fuel : nat) (world_seed ccx ccz radius : Z) :
  find_fortresses_in_range (S fuel) world_seed ccx ccz radius
  = Ok (flat_map
          (fun rx =>
             flat_map (region_fortresses (S fuel) world_seed ccx ccz radius rx)
               (py_range (region_of (ccz - radius)) (region_of (ccz + radius) + 1)))
          (py_range (region_of (ccx - radius)) (region_of (ccx + radius) + 1))).
Proof.
  unfold find_fortresses_in_range.
  rewrite (for_each_flat_map
             (fun rx =>
                flat_map (region_fortresses (S fuel) world_seed ccx ccz radius rx)
                  (py_range (region_of (ccz - radius)) (region_of (ccz + radius) + 1))));
    [reflexivity|].
  intros acc rx.
  apply (for_each_flat_map (region_fortresses (S fuel) world_seed ccx ccz radius rx)).
  intros acc' rz. unfold region_fortresses.
  destruct (structure_chunk_of_region_ok fuel world_seed rx rz) as (ox & oz & -> & _).
  cbn [rbind].
  destruct ((Z.abs (rx * SPACING + ox - ccx) <=? radius)
            && (Z.abs (rz * SPACING + oz - ccz) <=? radius));
    [|rewrite app_nil_r; reflexivity].
  destruct (_is_fortress_at_chunk_ok fuel world_seed (rx * SPACING + ox) (rz * SPACING + oz))
    as [[|] ->]; cbn [rbind]; [reflexivity | rewrite app_nil_r; reflexivity].
Qed.

Lemma In_py_range (lo hi v : Z) : In v (py_range lo hi) <-> lo <= v < hi.
Proof.
  unfold py_range. rewrite in_map_iff. split.
  - intros (i & <- & Hi). apply in_seq in Hi. lia.
  - intros H. exists (Z.to_nat (v - lo)). split; [lia|]. apply in_seq. lia.
Qed.

Lemma In_find_fortresses (fuel : nat) (world_seed ccx ccz radius : Z) (c : Z * Z)
    (l : list (Z * Z)) :
  find_fortresses_in_range (S fuel) world_seed ccx ccz radius = Ok l ->
  (In c l <->
   exists rx rz,
     region_of (ccx - radius) <= rx <= region_of (ccx + radius) /\
     region_of (ccz - radius) <= rz <= region_of (ccz + radius) /\
     structure_chunk_of_region (S fuel) world_seed rx rz = Ok c /\
     Z.abs (fst c - ccx) <= radius /\ Z.abs (snd c - ccz) <= radius /\
     _is_fortress_at_chunk (S fuel) world_seed (fst c) (snd c) = Ok true).
Proof.
  rewrite find_fortresses_in_range_closed. intros E. injection E as <-.
  rewrite in_flat_map. split.
  - intros (rx & Hrx & Hin). apply in_flat_map in Hin. destruct Hin as (rz & Hrz & Hin).
    apply In_py_range in Hrx. apply In_py_range in Hrz.
    exists rx, rz. split; [lia|]. split; [lia|].
    unfold region_fortresses in Hin.
    destruct (structure_chunk_of_region (S fuel) world_seed rx rz)
      as [[sx sz] | | |]; try contradiction.
    destruct ((Z.abs (sx - ccx) <=? radius) && (Z.abs (sz - ccz) <=? radius)) eqn:Er;
      [|contradiction].
    apply andb_true_iff in Er. destruct Er as [E1 E2].
    apply Z.leb_le in E1. apply Z.leb_le in E2.
    destruct (_is_fortress_at_chunk (S fuel) world_seed sx sz) as [[|] | | |] eqn:Ef;
      try contradiction.
    destruct Hin as [<- | []]. cbn [fst snd]. auto.
  - intros (rx & rz & Hrx & Hrz & Ec & H1 & H2 & Hf).
    exists rx. split; [apply In_py_range; lia|].
    apply in_flat_map. exists rz. split; [apply In_py_range; lia|].
    unfold region_fortresses. rewrite Ec. destruct c as [sx sz]. cbn [fst snd] in *.
    apply Z.leb_le in H1. apply Z.leb_le in H2. rewrite H1, H2, Hf. left. reflexivity.
Qed.

(** X10.  [find_fortresses_in_range] raises nothing, and every chunk it
    returns lies within [radius_chunks] of the centre on both axes, is
    classified Fortress, and is the candidate chunk of its own region; with a
    negative radius the result is empty. *)
Theorem find_fortresses_in_range_sound (fuel : nat)
    (world_seed ccx ccz radius : Z)
    (Hx : chunk_coordinate (ccx - radius) /\ chunk_coordinate (ccx + radius))
    (Hz : chunk_coordinate (ccz - radius) /\ chunk_coordinate (ccz + radius)) :
  exists l,
    find_fortresses_in_range (S fuel) world_seed ccx ccz radius = Ok l /\
    (forall cx cz, In (cx, cz) l ->
       Z.abs (cx - ccx) <= radius /\ Z.abs (cz - ccz) <= radius /\
       _is_fortress_at_chunk (S fuel) world_seed cx cz = Ok true /\
       is_fortress_chunk (S fuel) world_seed cx cz = Ok true) /\
    (radius < 0 -> l = []).
Proof.
  eexists. split; [apply find_fortresses_in_range_closed|].
  set (l := flat_map _ _).
  assert (El : find_fortresses_in_range (S fuel) world_seed ccx ccz radius = Ok l)
    by apply find_fortresses_in_range_closed.
  assert (Hsound : forall cx cz, In (cx, cz) l ->
            Z.abs (cx - ccx) <= radius /\ Z.abs (cz - ccz) <= radius /\
            _is_fortress_at_chunk (S fuel) world_seed cx cz = Ok true /\
            is_fortress_chunk (S fuel) world_seed cx cz = Ok true).
  { intros cx cz Hin.
    apply (In_find_fortresses fuel world_seed ccx ccz radius (cx, cz) l El) in Hin.
    destruct Hin as (rx & rz & _ & _ & Ec & H1 & H2 & Hf). cbn [fst snd] in *.
    repeat split; auto.
    eapply candidate_is_fortress_chunk. exact Ec. }
  split; [exact Hsound|].
  intros Hneg. destruct l as [|[cx cz] l']; [reflexivity|].
  destruct (Hsound cx cz (or_introl eq_refl)) as (H1 & _). lia.
Qed.

Lemma find_fortresses_in_range_sound_witness :
  exists l,
    find_fortresses_in_range 1 12345 0 0 30 = Ok l /\
    (forall cx cz, In (cx, cz) l ->
       Z.abs (cx - 0) <= 30 /\ Z.abs (cz - 0) <= 30 /\
       _is_fortress_at_chunk 1 12345 cx cz = Ok true /\
       is_fortress_chunk 1 12345 cx cz = Ok true) /\
    (30 < 0 -> l = []).
Proof.
  apply (find_fortresses_in_range_sound 0 12345 0 0 30);
    unfold chunk_coordinate; lia.
Defined.

(** X11.  [find_fortresses_in_range] misses nothing: the candidate chunk of
    any region that lies within the radius on both axes and is classified
    Fortress is in the result. *)
Theorem find_fortresses_in_range_complete (fuel : nat)
    (world_seed ccx ccz radius rx rz cx cz : Z)
    (Hx : chunk_coordinate (ccx - radius) /\ chunk_coordinate (ccx + radius))
    (Hz : chunk_coordinate (ccz - radius) /\ chunk_coordinate (ccz + radius)) :
  structure_chunk_of_region (S fuel) world_seed rx rz = Ok (cx, cz) ->
  Z.abs (cx - ccx) <= radius -> Z.abs (cz - ccz) <= radius ->
  _is_fortress_at_chunk (S fuel) world_seed cx cz = Ok true ->
  exists l,
    find_fortresses_in_range (S fuel) world_seed ccx ccz radius = Ok l /\
    In (cx, cz) l.
Proof.
  intros Ec H1 H2 Hf.
  eexists. split; [apply find_fortresses_in_range_closed|].
  apply (In_find_fortresses fuel world_seed ccx ccz radius (cx, cz) _
           (find_fortresses_in_range_closed fuel world_seed ccx ccz radius)).
  exists rx, rz.
  destruct (structure_chunk_of_region_ok fuel world_seed rx rz)
    as (ox & oz & E & Hox & Hoz).
  rewrite E in Ec. injection Ec as Ecx Ecz.
  assert (Rx : region_of cx = rx) by (rewrite <- Ecx; apply region_of_candidate; exact Hox).
  assert (Rz : region_of cz = rz) by (rewrite <- Ecz; apply region_of_candidate; exact Hoz).
  assert (Hmono : forall a b, a <= b -> region_of a <= region_of b).
  { intros a b Hab. unfold region_of, SPACING. apply Z.div_le_mono; lia. }
  cbn [fst snd]. rewrite E, Ecx, Ecz.
  split; [rewrite <- Rx; split; apply Hmono; lia|].
  split; [rewrite <- Rz; split; apply Hmono; lia|].
  auto.
Qed.

Lemma find_fortresses_in_range_complete_witness :
  exists l, find_fortresses_in_range 1 0 15 2 10 = Ok l /\ In (15, 2) l.
Proof.
  apply (find_fortresses_in_range_complete 0 0 15 2 10 0 0 15 2).
  - unfold chunk_coordinate. lia.
  - unfold chunk_coordinate. lia.
  - vm_compute. reflexivity.
  - vm_compute. discriminate.
  - vm_compute. discriminate.
  - vm_compute. reflexivity.
Defined.

End FortressLocatorExtra.

(* ===================================================================== *)
(** * Further properties of the generator *)
(* ===================================================================== *)

Module FortressGeneratorExtra.
Import RandomSource FortressGenerator.
Import FortressGeneratorProps.

(** ** What exactly one request does *)

(** A weight entry after [place_count += 1]. *)
Definition bump (pw : PieceWeight) : PieceWeight :=
  mkWeight (pw_piece_type pw) (weight pw) (max_place_count pw) (allow_in_row pw)
    (place_count pw + 1).

(** The weight list after the entry between [seen] and [todo] was placed:
    the entry is bumped, and removed when it is no longer valid. *)
Definition new_weights (seen : list PieceWeight) (pw : PieceWeight)
    (todo W : list PieceWeight) : Prop :=
  if is_valid (bump pw) then W = seen ++ bump pw :: todo
  else list_remove (bump pw) (seen ++ bump pw :: todo) = Ok W.

Lemma for_weights_spec (is_castle : bool) (x y z : Z) (d : Direction) (depth : Z)
    (todo : list PieceWeight) :
  forall (seen : list PieceWeight) (target : Z) (g : Generator),
  match for_weights is_castle seen todo target x y z d depth g with
  | Ok (None, g') => g' = g
  | Ok (Some p, g') =>
      exists s1 pw t1 W,
        todo = s1 ++ pw :: t1 /\
        do_place pw depth = true /\
        _create_piece (pw_piece_type pw) x y z d depth g = Some p /\
        new_weights (seen ++ s1) pw t1 W /\
        g' = set_weights is_castle W (set_previous_piece (Some (bump pw)) g)
  | _ => False
  end.
Proof.
  induction todo as [|pw todo IH]; intros seen target g; cbn [for_weights].
  - reflexivity.
  - destruct (target - weight pw <? 0).
    + destruct (do_place pw depth) eqn:Edo; cbn [negb]; [|reflexivity].
      destruct (is_previous_piece pw g && negb (allow_in_row pw)); [reflexivity|].
      destruct (_create_piece (pw_piece_type pw) x y z d depth g) as [p|] eqn:Ec;
        [|reflexivity].
      fold (bump pw).
      destruct (is_valid (bump pw)) eqn:Ev; cbn [negb].
      * exists [], pw, todo, (seen ++ bump pw :: todo).
        rewrite app_nil_r. unfold new_weights. rewrite Ev. auto.
      * destruct (list_remove_member (bump pw) seen todo) as [W EW].
        rewrite EW. cbn [rbind].
        exists [], pw, todo, W.
        rewrite app_nil_r. unfold new_weights. rewrite Ev. auto.
    + specialize (IH (seen ++ [pw]) (target - weight pw) g).
      destruct (for_weights is_castle (seen ++ [pw]) todo (target - weight pw)
                  x y z d depth g) as [[[p|] g'] | | |]; auto.
      destruct IH as (s1 & pw1 & t1 & W & E1 & E2 & E3 & E4 & E5).
      exists (pw :: s1), pw1, t1, W. rewrite E1.
      rewrite <- app_assoc in E4. auto.
Qed.

(** A placement by the weighted selection: the generator it leaves is the
    old one up to the random state, the weight list drawn from and the
    last-placed entry. *)
Definition weighted_outcome (is_castle : bool) (x y z : Z) (d : Direction)
    (depth : Z) (g : Generator) (p : StructurePiece) (g' : Generator) : Prop :=
  exists (s : rng) (seen : list PieceWeight) (pw : PieceWeight)
         (todo W : list PieceWeight),
    depth <= MAX_DEPTH /\
    weights_of is_castle g = seen ++ pw :: todo /\
    do_place pw depth = true /\
    _create_piece (pw_piece_type pw) x y z d depth g = Some p /\
    new_weights seen pw todo W /\
    g' = set_weights is_castle W (set_previous_piece (Some (bump pw)) (set_random s g)).

(** The outcome of [_generate_piece]: a weighted placement, or the result of
    the filler fallback with only the random state changed. *)
Definition piece_outcome (is_castle : bool) (x y z : Z) (d : Direction)
    (depth : Z) (g : Generator) (r : option StructurePiece) (g' : Generator) : Prop :=
  (exists p, r = Some p /\ weighted_outcome is_castle x y z d depth g p g') \/
  (exists s, g' = set_random s g /\ r = _create_end_filler x y z d depth g).

Lemma set_random_self (g : Generator) : set_random (random g) g = g.
Proof. destruct g. reflexivity. Qed.

Lemma attempts_loop_spec (rf : nat) (is_castle : bool) (total : Z) (x y z : Z)
    (d : Direction) (depth : Z) (remaining : nat) :
  0 < total -> depth <= MAX_DEPTH ->
  forall g : Generator,
  safe rf (attempts_loop rf remaining is_castle total x y z d depth g)
    (fun r g' =>
       match r with
       | Some p => weighted_outcome is_castle x y z d depth g p g'
       | None => exists s, g' = set_random s g
       end).
Proof.
  intros Ht Hd. induction remaining as [|n IH]; intros g; cbn [attempts_loop].
  - cbn. exists (random g). symmetry. apply set_random_self.
  - eapply safe_bind; [apply random_next_int_safe; exact Ht|]. cbn beta.
    intros target g1 (_ & Hg1).
    assert (Hw : weights_of is_castle g1 = weights_of is_castle g)
      by (rewrite Hg1; destruct is_castle; reflexivity).
    assert (Hp : pieces g1 = pieces g) by (rewrite Hg1; reflexivity).
    unfold bind.
    pose proof (for_weights_spec is_castle x y z d depth
                  (weights_of is_castle g1) [] target g1) as Hscan.
    destruct (for_weights is_castle [] (weights_of is_castle g1) target
                x y z d depth g1) as [[[p|] g2] | | |]; try contradiction.
    + cbn. destruct Hscan as (s1 & pw & t1 & W & E1 & E2 & E3 & E4 & ->).
      cbn [app] in E4.
      exists (random g1), s1, pw, t1, W. repeat split; auto.
      * rewrite <- E1. symmetry. exact Hw.
      * rewrite <- E3. symmetry. apply _create_piece_same. exact Hp.
      * rewrite Hg1 at 1. reflexivity.
    + subst g2. eapply safe_weaken; [apply IH|]. cbn beta.
      intros r g3 Hr.
      destruct r as [p|].
      * destruct Hr as (s & seen & pw & todo & W & H1 & H2 & H3 & H4 & H5 & ->).
        exists s, seen, pw, todo, W. repeat split; auto.
        -- rewrite <- Hw. exact H2.
        -- rewrite <- H4. symmetry. apply _create_piece_same. exact Hp.
        -- rewrite Hg1. reflexivity.
      * destruct Hr as [s ->]. exists s. rewrite Hg1. reflexivity.
Qed.

Lemma _generate_piece_spec (rf : nat) (is_castle : bool) (x y z : Z)
    (d : Direction) (depth : Z) (g : Generator) :
  safe rf (_generate_piece rf is_castle x y z d depth g)
    (piece_outcome is_castle x y z d depth g).
Proof.
  unfold _generate_piece.
  set (total := _update_piece_weight (weights_of is_castle g)).
  assert (Hfill : forall s,
            safe rf (Ok (_create_end_filler x y z d depth (set_random s g),
                         set_random s g))
              (piece_outcome is_castle x y z d depth g)).
  { intros s. cbn. right. exists s. split; [reflexivity|].
    apply _create_end_filler_same. reflexivity. }
  destruct ((total >? 0) && (depth <=? MAX_DEPTH)) eqn:Ecan.
  - apply andb_true_iff in Ecan. destruct Ecan as [E1 E2].
    apply Z.gtb_lt in E1. apply Z.leb_le in E2.
    eapply safe_bind; [apply attempts_loop_spec; assumption|]. cbn beta.
    intros r g1 Hr. destruct r as [p|].
    + cbn. left. exists p. auto.
    + destruct Hr as [s ->]. apply Hfill.
  - eapply (safe_bind _ _ _ _ (fun r g1 => r = None /\ g1 = g));
      [cbn; auto|]. cbn beta.
    intros r g1 [-> ->]. rewrite <- (set_random_self g) at 1 2. apply Hfill.
Qed.

(** The request is within reach of the anchor. *)
Definition in_reach (g : Generator) (x z : Z) : Prop :=
  forall anchor, start_bounding_box g = Some anchor ->
    Z.abs (x - min_x anchor) <= 112 /\ Z.abs (z - min_z anchor) <= 112.

(** The outcome of [_generate_and_add_piece]: nothing but the random state
    changes, or a piece is produced for a request in reach and appended to
    both lists. *)
Definition request_outcome (x y z : Z) (d : Direction) (depth : Z)
    (is_castle : bool) (g : Generator) (r : option StructurePiece)
    (g' : Generator) : Prop :=
  match r with
  | None => exists s, g' = set_random s g
  | Some p =>
      in_reach g x z /\
      exists g1,
        piece_outcome is_castle x y z d (depth + 1) g (Some p) g1 /\
        g' = set_pending_children (pending_children g1 ++ [p])
               (set_pieces (pieces g1 ++ [p]) g1)
  end.

Lemma _generate_and_add_piece_spec (rf : nat) (x y z : Z) (d : Direction)
    (depth : Z) (is_castle : bool) (g : Generator) :
  safe rf (_generate_and_add_piece rf x y z d depth is_castle g)
    (request_outcome x y z d depth is_castle g).
Proof.
  unfold _generate_and_add_piece.
  match goal with |- context [if ?c then _ else _] => destruct c eqn:Efar end.
  - cbn. exists (random g). symmetry. apply set_random_self.
  - eapply safe_bind; [apply _generate_piece_spec|]. cbn beta.
    intros r g1 Hr. destruct r as [p|]; cbn.
    + split; [|exists g1; auto].
      intros anchor Ha. rewrite Ha in Efar.
      apply orb_false_iff in Efar. destruct Efar as [E1 E2].
      rewrite Z.gtb_ltb in E1, E2.
      apply Z.ltb_ge in E1. apply Z.ltb_ge in E2. auto.
    + destruct Hr as [(p & Hp & _) | (s & -> & _)]; [discriminate|].
      exists s. reflexivity.
Qed.

Lemma piece_outcome_frame (is_castle : bool) (x y z : Z) (d : Direction)
    (depth : Z) (g : Generator) (r : option StructurePiece) (g1 : Generator) :
  piece_outcome is_castle x y z d depth g r g1 ->
  pieces g1 = pieces g /\ pending_children g1 = pending_children g /\
  start_bounding_box g1 = start_bounding_box g.
Proof.
  intros [(p & _ & s & seen & pw & todo & W & _ & _ & _ & _ & _ & ->) | (s & -> & _)].
  - destruct is_castle; repeat split.
  - repeat split.
Qed.

(** ** An invariant rule for complete runs

    A property [I] of the generator that ignores the random state and the
    pending list, and that survives the placement of a piece requested on
    behalf of a piece already in the list, holds at the end of every run
    that starts with it. *)
Section InvariantRule.

Variable I : Generator -> Prop.

Hypothesis I_random : forall g s, I g -> I (set_random s g).
Hypothesis I_pending : forall g l, I g -> I (set_pending_children l g).
Hypothesis I_placed :
  forall (parent : StructurePiece) (x y z : Z) (d : Direction) (is_castle : bool)
         (g : Generator) (p : StructurePiece) (g1 : Generator),
    I g -> In parent (pieces g) -> in_reach g x z ->
    piece_outcome is_castle x y z d (gen_depth parent + 1) g (Some p) g1 ->
    I (set_pieces (pieces g1 ++ [p]) g1).

(** The invariant, the parent still in the piece list, and every pending
    piece in the piece list. *)
Definition keeps (parent : StructurePiece) (g : Generator) : Prop :=
  I g /\ In parent (pieces g) /\ incl (pending_children g) (pieces g).

Lemma request_keeps (rf : nat) (parent : StructurePiece) (x y z : Z)
    (d : Direction) (is_castle : bool) (g : Generator) :
  keeps parent g ->
  safe rf (_generate_and_add_piece rf x y z d (gen_depth parent) is_castle g)
    (fun _ g' => keeps parent g').
Proof.
  intros (HI & Hin & Hincl).
  eapply safe_weaken; [apply _generate_and_add_piece_spec|]. cbn beta.
  intros r g' Hr. destruct r as [p|]; cbn [request_outcome] in Hr.
  - destruct Hr as (Hreach & g1 & Hout & ->).
    destruct (piece_outcome_frame _ _ _ _ _ _ _ _ _ Hout) as (F1 & F2 & F3).
    split; [|split].
    + apply I_pending. eapply I_placed; eassumption.
    + cbn. rewrite F1. apply in_or_app. left. exact Hin.
    + cbn. rewrite F1, F2. intros q Hq. apply in_app_or in Hq.
      apply in_or_app. destruct Hq as [Hq | Hq]; [left; apply Hincl; exact Hq | right; exact Hq].
  - destruct Hr as [s ->]. split; [apply I_random; exact HI|]. split; assumption.
Qed.

Lemma child_forward_keeps (rf : nat) (piece : StructurePiece) (i j : Z)
    (is_castle : bool) (g : Generator) :
  keeps piece g ->
  safe rf (_generate_child_forward rf piece i j is_castle g) (fun _ g' => keeps piece g').
Proof.
  intros HK. unfold _generate_child_forward.
  destruct (direction piece);
    (eapply safe_bind; [apply request_keeps; exact HK|]; cbn; auto).
Qed.

Lemma child_left_keeps (rf : nat) (piece : StructurePiece) (i j : Z)
    (is_castle : bool) (g : Generator) :
  keeps piece g ->
  safe rf (_generate_child_left rf piece i j is_castle g) (fun _ g' => keeps piece g').
Proof.
  intros HK. unfold _generate_child_left.
  destruct (direction piece);
    (eapply safe_bind; [apply request_keeps; exact HK|]; cbn; auto).
Qed.

Lemma child_right_keeps (rf : nat) (piece : StructurePiece) (i j : Z)
    (is_castle : bool) (g : Generator) :
  keeps piece g ->
  safe rf (_generate_child_right rf piece i j is_castle g) (fun _ g' => keeps piece g').
Proof.
  intros HK. unfold _generate_child_right.
  destruct (direction piece);
    (eapply safe_bind; [apply request_keeps; exact HK|]; cbn; auto).
Qed.

Lemma draw_keeps (rf : nat) (piece : StructurePiece) (bound : Z) (g : Generator) :
  0 < bound -> keeps piece g ->
  safe rf (random_next_int rf bound g) (fun _ g' => keeps piece g').
Proof.
  intros Hb (HI & Hin & Hincl).
  eapply safe_weaken; [apply random_next_int_safe; exact Hb|]. cbn beta.
  intros v g' [_ ->]. split; [apply I_random; exact HI|]. split; assumption.
Qed.

Lemma seq_keeps {A : Type} (rf : nat) (piece : StructurePiece) (m : M A)
    (k : A -> M unit) (g : Generator) :
  safe rf (m g) (fun _ g' => keeps piece g') ->
  (forall a g1, keeps piece g1 -> safe rf (k a g1) (fun _ g' => keeps piece g')) ->
  safe rf (bind m k g) (fun _ g' => keeps piece g').
Proof.
  intros Hm Hk. eapply safe_bind; [exact Hm|]. cbn beta. intros a g1 H1. apply Hk. exact H1.
Qed.

Ltac keeps_steps :=
  repeat first
    [ apply child_forward_keeps; assumption
    | apply child_left_keeps; assumption
    | apply child_right_keeps; assumption
    | apply draw_keeps; [lia | assumption]
    | apply seq_keeps; [|intros ? ? ?] ].

Lemma add_children_keeps (rf : nat) (piece : StructurePiece) (g : Generator) :
  keeps piece g ->
  safe rf (_add_children rf piece g) (fun _ g' => keeps piece g').
Proof.
  intros HK.
  unfold _add_children, _add_children_for_crossing, _add_children_for_bridge_straight,
    _add_children_for_room_crossing, _add_children_for_stairs_room,
    _add_children_for_castle_entrance, _add_children_for_castle_small_corridor,
    _add_children_for_castle_small_corridor_crossing,
    _add_children_for_castle_right_turn, _add_children_for_castle_left_turn,
    _add_children_for_castle_corridor_stairs, _add_children_for_castle_t_balcony,
    _add_children_for_castle_stalk_room.
  destruct (piece_type piece); first [progress keeps_steps | exact HK].
Qed.

(** The loop invariant proper. *)
Definition loop_inv (g : Generator) : Prop :=
  I g /\ incl (pending_children g) (pieces g).

Lemma iteration_keeps (rf : nat) (g : Generator) :
  loop_inv g -> pending_children g <> [] ->
  safe rf (iteration rf g) (fun _ g' => loop_inv g').
Proof.
  intros [HI Hincl] Hne. unfold iteration.
  assert (Hlen : 0 < Z.of_nat (length (pending_children g))).
  { destruct (pending_children g); [congruence | cbn [length]; lia]. }
  eapply safe_bind; [apply random_next_int_safe; exact Hlen|]. cbn beta.
  intros idx g1 (Hidx & Hg1).
  assert (Hp1 : pending_children g1 = pending_children g) by (rewrite Hg1; reflexivity).
  assert (Hq1 : pieces g1 = pieces g) by (rewrite Hg1; reflexivity).
  rewrite Hp1.
  destruct (list_pop_ok (pending_children g) idx Hidx) as (piece & l1 & l2 & -> & Hsplit).
  assert (HK : keeps piece (set_pending_children (l1 ++ l2) g1)).
  { split; [|split].
    - apply I_pending. rewrite Hg1. apply I_random. exact HI.
    - cbn. rewrite Hq1. apply Hincl. rewrite Hsplit. apply in_or_app. right. left. reflexivity.
    - cbn. rewrite Hq1. intros q Hq. apply Hincl. rewrite Hsplit.
      apply in_app_or in Hq. apply in_or_app.
      destruct Hq as [Hq | Hq]; [left | right; right]; exact Hq. }
  eapply safe_weaken; [apply add_children_keeps; exact HK|]. cbn beta.
  intros _ g2 (H1 & _ & H3). split; assumption.
Qed.

Lemma process_pending_keeps (rf fuel : nat) :
  forall g g', loop_inv g -> process_pending rf fuel g = Ok (tt, g') -> loop_inv g'.
Proof.
  induction fuel as [|n IH]; intros g g' HI Hrun.
  - cbn [process_pending] in Hrun.
    destruct (pending_children g) eqn:E; [|discriminate].
    injection Hrun as <-. exact HI.
  - destruct (pending_children g) as [|q l] eqn:E.
    + rewrite process_pending_done in Hrun by exact E. injection Hrun as <-. exact HI.
    + rewrite process_pending_step in Hrun by congruence.
      assert (Hit : safe rf (iteration rf g) (fun _ g' => loop_inv g'))
        by (apply iteration_keeps; [exact HI | congruence]).
      unfold bind in Hrun. unfold safe in Hit.
      destruct (iteration rf g) as [[[] g1] | | |]; try discriminate.
      eapply IH; [exact Hit | exact Hrun].
Qed.

(** The rule: an invariant of the started generator is an invariant of the
    generator at the end of the run, whose piece list is the result. *)
Lemma run_invariant (rf fuel : nat) (world_seed cx cz : Z)
    (ps : list StructurePiece) (g' : Generator) :
  (forall r d, I (started world_seed cx cz r d)) ->
  generate_from rf fuel (init world_seed cx cz) = Ok (ps, g') ->
  I g' /\ ps = pieces g'.
Proof.
  intros Hstart.
  destruct (generate_from_started rf fuel world_seed cx cz) as (r & d & ->).
  assert (HK : keeps (start_piece_of cx cz d) (started world_seed cx cz r d)).
  { split; [apply Hstart|]. split; [left; reflexivity | intros q []]. }
  pose proof (add_children_keeps rf (start_piece_of cx cz d) _ HK) as H.
  change (_add_children rf (start_piece_of cx cz d))
    with (_add_children_for_crossing rf (start_piece_of cx cz d)) in H.
  unfold bind. unfold safe in H.
  destruct (_add_children_for_crossing rf _ _) as [[[] g1] | | |]; try discriminate.
  destruct H as (HI1 & _ & Hincl1).
  destruct (process_pending rf fuel g1) as [[[] g2] | | |] eqn:E; try discriminate.
  intros Heq. injection Heq as <- <-.
  destruct (process_pending_keeps rf fuel g1 g2 (conj HI1 Hincl1) E) as [HI2 _]. auto.
Qed.

End InvariantRule.

(** ** Where and how large the placed pieces are *)

(** Number of blocks a box holds on each axis. *)
Definition extents (b : BoundingBox) : Z * Z * Z :=
  (max_x b - min_x b + 1, max_y b - min_y b + 1, max_z b - min_z b + 1).

(** The box of the piece has the dimensions its kind has in
    [PIECE_DIMENSIONS], width and depth exchanged for a piece facing east or
    west. *)
Definition sized (p : StructurePiece) : Prop :=
  match PIECE_DIMENSIONS (piece_type p) with
  | Some (w, h, dd) =>
      match direction p with
      | NORTH | SOUTH => extents (bounding_box p) = (w, h, dd)
      | EAST | WEST => extents (bounding_box p) = (dd, h, w)
      end
  | None => False
  end.

(** What holds of every piece placed after the start piece. *)
Definition placed_ok (anchor : BoundingBox) (p : StructurePiece) : Prop :=
  min_y (bounding_box p) > LOWEST_Y_POSITION /\
  sized p /\
  Z.abs (min_x (bounding_box p) - min_x anchor) <= 130 /\
  Z.abs (min_z (bounding_box p) - min_z anchor) <= 130.

Lemma triple_eq (a b c a' b' c' : Z) :
  a = a' -> b = b' -> c = c' -> (a, b, c) = (a', b', c').
Proof. intros -> -> ->. reflexivity. Qed.

Lemma _create_piece_placed_ok (anchor : BoundingBox) (t : PieceType) (x y z : Z)
    (d : Direction) (depth : Z) (g : Generator) (p : StructurePiece) :
  Z.abs (x - min_x anchor) <= 112 -> Z.abs (z - min_z anchor) <= 112 ->
  _create_piece t x y z d depth g = Some p ->
  placed_ok anchor p.
Proof.
  intros Hx Hz. unfold _create_piece.
  destruct (PIECE_DIMENSIONS t) as [[[d0 d1] d2]|] eqn:Ed; [|discriminate].
  destruct (PIECE_OFFSETS t) as [[[o0 o1] o2]|] eqn:Eo; [|discriminate].
  destruct (_is_ok_box _) eqn:Eok; cbn [negb]; [|discriminate].
  destruct (_find_collision _ g); [discriminate|].
  intros H. injection H as <-.
  unfold _is_ok_box in Eok. apply Z.gtb_lt in Eok.
  unfold placed_ok, sized. cbn [bounding_box piece_type direction]. rewrite Ed.
  destruct t; cbn in Ed, Eo; injection Ed as <- <- <-; injection Eo as <- <- <-;
    destruct d; unfold extents; cbn in *; repeat split; try lia;
    apply triple_eq; lia.
Qed.

Lemma _create_end_filler_placed_ok (anchor : BoundingBox) (x y z : Z)
    (d : Direction) (depth : Z) (g : Generator) (p : StructurePiece) :
  Z.abs (x - min_x anchor) <= 112 -> Z.abs (z - min_z anchor) <= 112 ->
  _create_end_filler x y z d depth g = Some p ->
  placed_ok anchor p.
Proof.
  intros Hx Hz. unfold _create_end_filler.
  destruct (_is_ok_box _) eqn:Eok; cbn [negb]; [|discriminate].
  destruct (_find_collision _ g); [discriminate|].
  intros H. injection H as <-.
  unfold _is_ok_box in Eok. apply Z.gtb_lt in Eok.
  unfold placed_ok, sized. cbn [bounding_box piece_type direction PIECE_DIMENSIONS].
  destruct d; unfold extents; cbn in *; repeat split; try lia;
    apply triple_eq; lia.
Qed.

(** The invariant: the list starts with the start piece of the chunk, whose
    box is the anchor, and every later piece is [placed_ok]. *)
Definition boxes_inv (cx cz : Z) (g : Generator) : Prop :=
  exists d rest,
    start_bounding_box g = Some (bounding_box (start_piece_of cx cz d)) /\
    pieces g = start_piece_of cx cz d :: rest /\
    Forall (placed_ok (bounding_box (start_piece_of cx cz d))) rest.

Lemma boxes_inv_run (rf fuel : nat) (world_seed cx cz : Z)
    (ps : list StructurePiece) (g' : Generator) :
  generate_from rf fuel (init world_seed cx cz) = Ok (ps, g') ->
  exists d rest,
    ps = start_piece_of cx cz d :: rest /\
    Forall (placed_ok (bounding_box (start_piece_of cx cz d))) rest.
Proof.
  intros Hrun.
  assert (HInv : boxes_inv cx cz g' /\ ps = pieces g');
    [eapply (run_invariant (boxes_inv cx cz)); [| | | |exact Hrun]
    |destruct HInv as [HI ->]].
  - intros g s (d & rest & H1 & H2 & H3). exists d, rest. auto.
  - intros g l (d & rest & H1 & H2 & H3). exists d, rest. auto.
  - intros parent x y z d is_castle g p g1 (sd & rest & H1 & H2 & H3) _ Hreach Hout.
    destruct (piece_outcome_frame _ _ _ _ _ _ _ _ _ Hout) as (F1 & F2 & F3).
    exists sd, (rest ++ [p]). cbn. rewrite F1, F3, H2. repeat split; auto.
    apply Forall_app. split; [exact H3|]. constructor; [|constructor].
    destruct (Hreach _ H1) as [Rx Rz].
    destruct Hout as [(p' & Ep & s & seen & pw & todo & W & _ & _ & _ & Hc & _)
                     | (s & _ & Hf)].
    + injection Ep as <-. eapply _create_piece_placed_ok; eassumption.
    + symmetry in Hf. eapply _create_end_filler_placed_ok; eassumption.
  - intros r d. exists d, []. repeat split. constructor.
  - destruct HI as (d & rest & _ & H2 & H3). exists d, rest. auto.
Qed.

Lemma generate_unfold (fuel : nat) (world_seed cx cz : Z) (ps : list StructurePiece) :
  generate fuel world_seed cx cz = Ok ps ->
  exists g', generate_from fuel fuel (init world_seed cx cz) = Ok (ps, g').
Proof.
  unfold generate.
  destruct (generate_from fuel fuel (init world_seed cx cz)) as [[ps' g'] | | |];
    try discriminate.
  cbn. intros H. injection H as ->. eauto.
Qed.

Lemma start_piece_box (cx cz : Z) (d : Direction) :
  bounding_box (start_piece_of cx cz d)
  = mkBox (cx * 16 + 2) 64 (cz * 16 + 2) (cx * 16 + 20) 73 (cz * 16 + 20).
Proof.
  unfold start_piece_of, make_bounding_box, MAGIC_START_Y. cbn [bounding_box].
  destruct d; f_equal; lia.
Qed.

(** X12.  Whatever the seed, the first piece of a run is the StartPiece of
    depth 0 whose box goes from [(16 cx + 2, 64, 16 cz + 2)] to
    [(16 cx + 20, 73, 16 cz + 20)]; only its direction depends on the seed. *)
Theorem generate_starts_with_start_piece (fuel : nat) (world_seed cx cz : Z)
    (ps : list StructurePiece) :
  generate fuel world_seed cx cz = Ok ps ->
  exists d rest,
    ps = mkPiece START_PIECE
           (mkBox (cx * 16 + 2) 64 (cz * 16 + 2) (cx * 16 + 20) 73 (cz * 16 + 20))
           d 0 :: rest.
Proof.
  intros Hrun. destruct (generate_unfold _ _ _ _ _ Hrun) as [g' E].
  destruct (boxes_inv_run _ _ _ _ _ _ _ E) as (d & rest & -> & _).
  exists d, rest. f_equal.
  rewrite <- (start_piece_box cx cz d). reflexivity.
Qed.

Lemma generate_starts_with_start_piece_witness :
  exists ps,
    generate 100 12345 0 0 = Ok ps /\
    exists d rest,
      ps = mkPiece START_PIECE (mkBox (0 * 16 + 2) 64 (0 * 16 + 2)
                                  (0 * 16 + 20) 73 (0 * 16 + 20)) d 0 :: rest.
Proof.
  eexists. split; [vm_compute; reflexivity|].
  apply (generate_starts_with_start_piece 100 12345 0 0).
  vm_compute. reflexivity.
Defined.

(** X13.  Every piece of a complete run has [min_y > 10]. *)
Theorem generate_min_y (fuel : nat) (world_seed cx cz : Z)
    (ps : list StructurePiece) (p : StructurePiece) :
  generate fuel world_seed cx cz = Ok ps -> In p ps ->
  min_y (bounding_box p) > 10.
Proof.
  intros Hrun Hin. destruct (generate_unfold _ _ _ _ _ Hrun) as [g' E].
  destruct (boxes_inv_run _ _ _ _ _ _ _ E) as (d & rest & -> & Hrest).
  destruct Hin as [<- | Hin].
  - rewrite start_piece_box. cbn. lia.
  - eapply Forall_forall in Hrest; [|exact Hin]. apply Hrest.
Qed.

Lemma generate_min_y_witness :
  exists ps p,
    generate 100 12345 0 0 = Ok ps /\ nth_error ps 5 = Some p /\
    min_y (bounding_box p) > 10.
Proof.
  eexists _, _. split; [vm_compute; reflexivity|]. split; [reflexivity|].
  eapply (generate_min_y 100 12345 0 0).
  - vm_compute. reflexivity.
  - do 5 right. left. reflexivity.
Defined.

(** X14.  Every piece of a complete run has the minimum corner of its box
    within 130 blocks of the start piece's minimum corner
    [(16 cx + 2, 16 cz + 2)], on x and on z: 112 for the request origin plus
    at most 18 for the piece's own extent. *)
Theorem generate_anchor_bound (fuel : nat) (world_seed cx cz : Z)
    (ps : list StructurePiece) (p : StructurePiece) :
  generate fuel world_seed cx cz = Ok ps -> In p ps ->
  Z.abs (min_x (bounding_box p) - (cx * 16 + 2)) <= 130 /\
  Z.abs (min_z (bounding_box p) - (cz * 16 + 2)) <= 130.
Proof.
  intros Hrun Hin. destruct (generate_unfold _ _ _ _ _ Hrun) as [g' E].
  destruct (boxes_inv_run _ _ _ _ _ _ _ E) as (d & rest & -> & Hrest).
  destruct Hin as [<- | Hin].
  - rewrite start_piece_box. cbn. lia.
  - eapply Forall_forall in Hrest; [|exact Hin].
    destruct Hrest as (_ & _ & H1 & H2).
    rewrite start_piece_box in H1, H2. cbn in H1, H2. auto.
Qed.

Lemma generate_anchor_bound_witness :
  exists ps p,
    generate 100 12345 0 0 = Ok ps /\ nth_error ps 5 = Some p /\
    Z.abs (min_x (bounding_box p) - (0 * 16 + 2)) <= 130 /\
    Z.abs (min_z (bounding_box p) - (0 * 16 + 2)) <= 130.
Proof.
  eexists _, _. split; [vm_compute; reflexivity|]. split; [reflexivity|].
  eapply (generate_anchor_bound 100 12345 0 0).
  - vm_compute. reflexivity.
  - do 5 right. left. reflexivity.
Defined.

(** X15.  Every piece of a complete run has the box dimensions its kind has
    in the table: (width, height, depth) blocks on (x, y, z) when it faces
    north or south, (depth, height, width) when it faces east or west. *)
Theorem generate_sized (fuel : nat) (world_seed cx cz : Z)
    (ps : list StructurePiece) (p : StructurePiece) :
  generate fuel world_seed cx cz = Ok ps -> In p ps ->
  exists w h dd,
    PIECE_DIMENSIONS (piece_type p) = Some (w, h, dd) /\
    extents (bounding_box p)
    = match direction p with
      | NORTH | SOUTH => (w, h, dd)
      | EAST | WEST => (dd, h, w)
      end.
Proof.
  intros Hrun Hin. destruct (generate_unfold _ _ _ _ _ Hrun) as [g' E].
  destruct (boxes_inv_run _ _ _ _ _ _ _ E) as (d & rest & -> & Hrest).
  assert (Hs : sized p).
  { destruct Hin as [<- | Hin].
    - unfold sized. rewrite start_piece_box. cbn.
      destruct d; unfold extents; cbn; apply triple_eq; lia.
    - eapply Forall_forall in Hrest; [|exact Hin]. apply Hrest. }
  unfold sized in Hs.
  destruct (PIECE_DIMENSIONS (piece_type p)) as [[[w h] dd]|]; [|contradiction].
  exists w, h, dd. split; [reflexivity|]. destruct (direction p); exact Hs.
Qed.

Lemma generate_sized_witness :
  exists ps p,
    generate 100 12345 0 0 = Ok ps /\ nth_error ps 5 = Some p /\
    exists w h dd,
      PIECE_DIMENSIONS (piece_type p) = Some (w, h, dd) /\
      extents (bounding_box p)
      = match direction p with
        | NORTH | SOUTH => (w, h, dd)
        | EAST | WEST => (dd, h, w)
        end.
Proof.
  eexists _, _. split; [vm_compute; reflexivity|]. split; [reflexivity|].
  eapply (generate_sized 100 12345 0 0).
  - vm_compute. reflexivity.
  - do 5 right. left. reflexivity.
Defined.

(** ** How many pieces of each kind are placed *)

(** Number of pieces of kind [t] in a list. *)
Definition count_type (t : PieceType) (ps : list StructurePiece) : Z :=
  Z.of_nat (length (filter (fun p => PieceType_eqb (piece_type p) t) ps)).

(** A catalogue entry with its count read off the piece list. *)
Definition recount (ps : list StructurePiece) (pw0 : PieceWeight) : PieceWeight :=
  mkWeight (pw_piece_type pw0) (weight pw0) (max_place_count pw0) (allow_in_row pw0)
    (count_type (pw_piece_type pw0) ps).

(** The weight list that belongs to a piece list: every catalogue entry
    with its count, the exhausted entries left out. *)
Definition expected (L0 : list PieceWeight) (ps : list StructurePiece)
  : list PieceWeight :=
  filter is_valid (map (recount ps) L0).

Definition has_type (t : PieceType) (L : list PieceWeight) : bool :=
  existsb (fun pw => PieceType_eqb (pw_piece_type pw) t) L.

Lemma PieceType_eqb_eq (a b : PieceType) : PieceType_eqb a b = true <-> a = b.
Proof.
  unfold PieceType_eqb. destruct (PieceType_eq_dec a b); split; congruence.
Qed.

Lemma has_type_false (t : PieceType) (L : list PieceWeight) :
  has_type t L = false <-> forall pw, In pw L -> pw_piece_type pw <> t.
Proof.
  unfold has_type. split.
  - intros H pw Hin E.
    assert (Hex : existsb (fun pw => PieceType_eqb (pw_piece_type pw) t) L = true).
    { apply existsb_exists. exists pw. split; [exact Hin | apply PieceType_eqb_eq, E]. }
    congruence.
  - intros H. destruct (existsb _ L) eqn:E; [|reflexivity].
    apply existsb_exists in E. destruct E as (pw & Hin & E).
    apply PieceType_eqb_eq in E. exfalso. eapply H; eassumption.
Qed.

Lemma count_type_snoc (t : PieceType) (ps : list StructurePiece) (p : StructurePiece) :
  count_type t (ps ++ [p])
  = count_type t ps + (if PieceType_eqb (piece_type p) t then 1 else 0).
Proof.
  unfold count_type. rewrite filter_app, length_app. cbn [filter].
  destruct (PieceType_eqb (piece_type p) t); cbn [length]; lia.
Qed.

Lemma recount_snoc_other (ps : list StructurePiece) (p : StructurePiece)
    (pw0 : PieceWeight) :
  piece_type p <> pw_piece_type pw0 -> recount (ps ++ [p]) pw0 = recount ps pw0.
Proof.
  intros H. unfold recount. rewrite count_type_snoc.
  destruct (PieceType_eqb (piece_type p) (pw_piece_type pw0)) eqn:E.
  - apply PieceType_eqb_eq in E. contradiction.
  - f_equal. lia.
Qed.

Lemma recount_snoc_same (ps : list StructurePiece) (p : StructurePiece)
    (pw0 : PieceWeight) :
  piece_type p = pw_piece_type pw0 -> recount (ps ++ [p]) pw0 = bump (recount ps pw0).
Proof.
  intros H. unfold recount, bump. cbn. rewrite count_type_snoc.
  rewrite (proj2 (PieceType_eqb_eq _ _) H). reflexivity.
Qed.

(** A piece of a kind that is not in the catalogue leaves the list alone. *)
Lemma expected_snoc_other (L0 : list PieceWeight) (ps : list StructurePiece)
    (p : StructurePiece) :
  has_type (piece_type p) L0 = false ->
  expected L0 (ps ++ [p]) = expected L0 ps.
Proof.
  intros H. unfold expected. f_equal. apply map_ext_in.
  intros pw0 Hin. apply recount_snoc_other.
  intros E. eapply (proj1 (has_type_false _ _) H); [exact Hin | symmetry; exact E].
Qed.

Lemma In_expected (L0 : list PieceWeight) (ps : list StructurePiece) (pw : PieceWeight) :
  In pw (expected L0 ps) ->
  exists pw0, In pw0 L0 /\ pw = recount ps pw0 /\ is_valid pw = true.
Proof.
  unfold expected. intros H. apply filter_In in H. destruct H as [H Hv].
  apply in_map_iff in H. destruct H as (pw0 & <- & Hin). eauto.
Qed.

Lemma PieceWeight_eqb_type (a b : PieceWeight) :
  PieceWeight_eqb a b = true -> pw_piece_type a = pw_piece_type b.
Proof.
  unfold PieceWeight_eqb. intros H.
  apply andb_true_iff in H. destruct H as [H _].
  apply andb_true_iff in H. destruct H as [H _].
  apply andb_true_iff in H. destruct H as [H _].
  apply andb_true_iff in H. destruct H as [H _].
  apply PieceType_eqb_eq. exact H.
Qed.

(** Placing a piece of a catalogued kind: the list the code computes is the
    list that belongs to the longer piece list. *)
Lemma expected_snoc_same (ps : list StructurePiece) (p : StructurePiece)
    (pw : PieceWeight) (todo : list PieceWeight) (L0 : list PieceWeight) :
  NoDup (map pw_piece_type L0) ->
  piece_type p = pw_piece_type pw ->
  forall seen W,
  expected L0 ps = seen ++ pw :: todo ->
  new_weights seen pw todo W ->
  W = expected L0 (ps ++ [p]).
Proof.
  intros Hnd Hp. induction L0 as [|e L0 IH]; intros seen W Hexp Hnew.
  - destruct seen; discriminate.
  - cbn [map] in Hnd. apply NoDup_cons_iff in Hnd. destruct Hnd as [Hnot Hnd].
    specialize (IH Hnd).
    unfold expected in *. cbn [map filter] in *.
    destruct (PieceType_eq_dec (pw_piece_type e) (pw_piece_type pw)) as [Et | Et].
    + (* the head of the catalogue is the entry placed *)
      assert (Hother : has_type (piece_type p) L0 = false).
      { apply has_type_false. intros pw1 Hin E. apply Hnot.
        rewrite Et, <- Hp, <- E. apply in_map. exact Hin. }
      pose proof (expected_snoc_other L0 ps p Hother) as Hrest. unfold expected in Hrest.
      assert (Hnopw : ~ In pw (filter is_valid (map (recount ps) L0))).
      { intros Hin. apply (In_expected L0 ps pw) in Hin.
        destruct Hin as (pw0 & Hin0 & -> & _). apply Hnot.
        rewrite Et. cbn. apply in_map. exact Hin0. }
      rewrite (recount_snoc_same ps p e) by congruence. rewrite Hrest.
      destruct (is_valid (recount ps e)) eqn:Ev.
      * destruct seen as [|s0 seen].
        -- cbn [app] in Hexp. injection Hexp as E1 E2. subst pw.
           unfold new_weights in Hnew. cbn [app] in Hnew.
           destruct (is_valid (bump (recount ps e))).
           ++ rewrite Hnew, E2. reflexivity.
           ++ cbn [list_remove] in Hnew. rewrite PieceWeight_eqb_refl in Hnew.
              injection Hnew as <-. symmetry. exact E2.
        -- cbn [app] in Hexp. injection Hexp as E1 E2. exfalso. apply Hnopw.
           rewrite E2. apply in_or_app. right. left. reflexivity.
      * exfalso. apply Hnopw. rewrite Hexp. apply in_or_app. right. left. reflexivity.
    + (* the head is another entry: it stays as it is *)
      rewrite (recount_snoc_other ps p e) by congruence.
      destruct (is_valid (recount ps e)) eqn:Ev.
      * destruct seen as [|s0 seen].
        -- cbn [app] in Hexp. injection Hexp as E1 E2. subst pw.
           exfalso. apply Et. reflexivity.
        -- cbn [app] in Hexp. injection Hexp as E1 E2. subst s0.
           unfold new_weights in Hnew. cbn [app] in Hnew.
           destruct (is_valid (bump pw)) eqn:Evb.
           ++ rewrite Hnew. f_equal. apply (IH seen); [exact E2|].
              unfold new_weights. rewrite Evb. reflexivity.
           ++ cbn [list_remove] in Hnew.
              destruct (PieceWeight_eqb (recount ps e) (bump pw)) eqn:Eeq.
              ** apply PieceWeight_eqb_type in Eeq. exfalso. apply Et. exact Eeq.
              ** destruct (list_remove (bump pw) (seen ++ bump pw :: todo))
                   as [W' | | |] eqn:ER; try discriminate.
                 cbn [rbind] in Hnew. injection Hnew as <-. f_equal.
                 apply (IH seen); [exact E2|].
                 unfold new_weights. rewrite Evb. exact ER.
      * apply (IH seen); assumption.
Qed.

(** The catalogue behind each weight list. *)
Definition catalog (is_castle : bool) : list PieceWeight :=
  if is_castle then CASTLE_PIECE_WEIGHTS else BRIDGE_PIECE_WEIGHTS.

Lemma catalog_NoDup (c : bool) : NoDup (map pw_piece_type (catalog c)).
Proof.
  destruct c; cbn; repeat constructor; cbn; intuition discriminate.
Qed.

Lemma catalog_disjoint (c : bool) (pw0 : PieceWeight) :
  In pw0 (catalog c) -> has_type (pw_piece_type pw0) (catalog (negb c)) = false.
Proof.
  destruct c; cbn; intuition (subst; reflexivity).
Qed.

Lemma catalog_special (c : bool) :
  has_type BRIDGE_END_FILLER (catalog c) = false /\
  has_type START_PIECE (catalog c) = false.
Proof. destruct c; split; reflexivity. Qed.

(** The invariant: both weight lists are the ones that belong to the piece
    list, no capped kind exceeds its cap, and there is one StartPiece. *)
Definition weights_inv (g : Generator) : Prop :=
  (forall c, weights_of c g = expected (catalog c) (pieces g)) /\
  (forall c pw0, In pw0 (catalog c) -> max_place_count pw0 > 0 ->
     count_type (pw_piece_type pw0) (pieces g) <= max_place_count pw0) /\
  count_type START_PIECE (pieces g) = 1.

Lemma count_type_snoc_other (t : PieceType) (ps : list StructurePiece)
    (p : StructurePiece) :
  piece_type p <> t -> count_type t (ps ++ [p]) = count_type t ps.
Proof.
  intros H. rewrite count_type_snoc.
  destruct (PieceType_eqb (piece_type p) t) eqn:E; [|lia].
  apply PieceType_eqb_eq in E. contradiction.
Qed.

Lemma catalog_same_type (c c' : bool) (a b : PieceWeight) :
  In a (catalog c) -> In b (catalog c') ->
  pw_piece_type a = pw_piece_type b -> max_place_count a = max_place_count b.
Proof.
  intros Ha Hb E.
  destruct (Bool.bool_dec c' c) as [-> | Hc].
  - assert (Hnd := catalog_NoDup c).
    induction (catalog c) as [|e L IH]; [contradiction|].
    cbn [map] in Hnd. apply NoDup_cons_iff in Hnd. destruct Hnd as [Hnot Hnd].
    destruct Ha as [-> | Ha], Hb as [-> | Hb]; auto.
    + exfalso. apply Hnot. rewrite E. apply in_map. exact Hb.
    + exfalso. apply Hnot. rewrite <- E. apply in_map. exact Ha.
  - assert (c' = negb c) by (destruct c, c'; cbn; congruence). subst c'.
    pose proof (catalog_disjoint c a Ha) as Hd.
    exfalso. eapply (proj1 (has_type_false _ _) Hd); [exact Hb | symmetry; exact E].
Qed.

Lemma weights_inv_placed (parent : StructurePiece) (x y z : Z) (d : Direction)
    (is_castle : bool) (g : Generator) (p : StructurePiece) (g1 : Generator) :
  weights_inv g -> In parent (pieces g) -> in_reach g x z ->
  piece_outcome is_castle x y z d (gen_depth parent + 1) g (Some p) g1 ->
  weights_inv (set_pieces (pieces g1 ++ [p]) g1).
Proof.
  intros (Hw & Hcap & Hstart) _ _ Hout.
  destruct Hout as [(p' & Ep & s & seen & pw & todo & W & _ & Hsplit & _ & Hc & Hnew & ->)
                   | (s & -> & Hf)].
  - injection Ep as <-.
    apply _create_piece_some in Hc. destruct Hc as (Htype & _).
    assert (Hin : In pw (expected (catalog is_castle) (pieces g))).
    { rewrite <- Hw, Hsplit. apply in_or_app. right. left. reflexivity. }
    apply In_expected in Hin. destruct Hin as (pw0 & Hin0 & Epw & Hvalid).
    assert (Et : pw_piece_type pw = pw_piece_type pw0) by (rewrite Epw; reflexivity).
    assert (Hpieces : forall G, pieces (set_weights is_castle W G) = pieces G)
      by (intros G; destruct is_castle; reflexivity).
    split; [|split].
    + intros c. cbn [pieces set_pieces]. rewrite Hpieces. cbn [pieces set_previous_piece set_random].
      destruct (Bool.bool_dec c is_castle) as [-> | Hne].
      * transitivity W; [destruct is_castle; reflexivity|].
        eapply expected_snoc_same; [apply catalog_NoDup | exact Htype | | exact Hnew].
        rewrite <- Hw. exact Hsplit.
      * assert (c = negb is_castle) by (destruct c, is_castle; cbn; congruence). subst c.
        transitivity (weights_of (negb is_castle) g); [destruct is_castle; reflexivity|].
        rewrite Hw. symmetry. apply expected_snoc_other.
        rewrite Htype, Et. apply catalog_disjoint. exact Hin0.
    + intros c pw1 Hin1 Hmax. cbn [pieces set_pieces]. rewrite Hpieces.
      cbn [pieces set_previous_piece set_random].
      rewrite count_type_snoc.
      destruct (PieceType_eqb (piece_type p) (pw_piece_type pw1)) eqn:E.
      * apply PieceType_eqb_eq in E.
        assert (Em : max_place_count pw0 = max_place_count pw1).
        { eapply catalog_same_type; [exact Hin0 | exact Hin1 | congruence]. }
        rewrite Epw in Hvalid. unfold is_valid, recount in Hvalid. cbn in Hvalid.
        apply orb_true_iff in Hvalid.
        assert (Ety : pw_piece_type pw1 = pw_piece_type pw0) by congruence.
        rewrite Ety. destruct Hvalid as [Hv | Hv].
        -- apply Z.eqb_eq in Hv. lia.
        -- apply Z.ltb_lt in Hv. lia.
      * specialize (Hcap c pw1 Hin1 Hmax). lia.
    + cbn [pieces set_pieces]. rewrite Hpieces. cbn [pieces set_previous_piece set_random].
      rewrite count_type_snoc_other; [exact Hstart|].
      rewrite Htype, Et. intros E.
      destruct (catalog_special is_castle) as [_ Hs].
      eapply (proj1 (has_type_false _ _) Hs); eassumption.
  - symmetry in Hf. apply _create_end_filler_some in Hf. destruct Hf as (Htype & _).
    split; [|split].
    + intros c. transitivity (weights_of c g); [destruct c; reflexivity|].
      rewrite Hw. cbn [pieces set_pieces set_random]. symmetry.
      apply expected_snoc_other. rewrite Htype. apply catalog_special.
    + intros c pw1 Hin1 Hmax. cbn [pieces set_pieces set_random].
      rewrite count_type_snoc_other; [apply (Hcap c); assumption|].
      rewrite Htype. intros E.
      destruct (catalog_special c) as [Hs _].
      eapply (proj1 (has_type_false _ _) Hs); [exact Hin1 | symmetry; exact E].
    + cbn [pieces set_pieces set_random].
      rewrite count_type_snoc_other; [exact Hstart|]. rewrite Htype. discriminate.
Qed.

Lemma weights_inv_run (rf fuel : nat) (world_seed cx cz : Z)
    (ps : list StructurePiece) (g' : Generator) :
  generate_from rf fuel (init world_seed cx cz) = Ok (ps, g') ->
  weights_inv g' /\ ps = pieces g'.
Proof.
  intros Hrun.
  eapply (run_invariant weights_inv); [| | | |exact Hrun].
  - intros g s (H1 & H2 & H3). split; [|split; assumption].
    intros c. rewrite <- H1. destruct c; reflexivity.
  - intros g l (H1 & H2 & H3). split; [|split; assumption].
    intros c. rewrite <- H1. destruct c; reflexivity.
  - apply weights_inv_placed.
  - intros r d. split; [|split].
    + intros c. destruct c; reflexivity.
    + intros c pw0 Hin Hmax.
      assert (Hc : count_type (pw_piece_type pw0) (pieces (started world_seed cx cz r d)) = 0).
      { destruct (catalog_special c) as [_ Hs].
        pose proof (proj1 (has_type_false _ _) Hs pw0 Hin) as Ht.
        unfold count_type. cbn.
        destruct (PieceType_eqb START_PIECE (pw_piece_type pw0)) eqn:E; [|reflexivity].
        apply PieceType_eqb_eq in E. congruence. }
      rewrite Hc. lia.
    + reflexivity.
Qed.

(** X16.  A complete run never places more pieces of a capped kind than its
    [max_place_count]: at most 4 BridgeCrossing, 4 RoomCrossing, 3 StairsRoom,
    2 MonsterThrone, 1 CastleEntrance, and so on for the castle catalogue. *)
Theorem generate_respects_caps (fuel : nat) (world_seed cx cz : Z)
    (ps : list StructurePiece) (pw0 : PieceWeight) :
  generate fuel world_seed cx cz = Ok ps ->
  In pw0 (BRIDGE_PIECE_WEIGHTS ++ CASTLE_PIECE_WEIGHTS) ->
  max_place_count pw0 > 0 ->
  count_type (pw_piece_type pw0) ps <= max_place_count pw0.
Proof.
  intros Hrun Hin Hmax. destruct (generate_unfold _ _ _ _ _ Hrun) as [g' E].
  destruct (weights_inv_run _ _ _ _ _ _ _ E) as [(_ & Hcap & _) ->].
  apply in_app_or in Hin. destruct Hin as [Hin | Hin].
  - apply (Hcap false); assumption.
  - apply (Hcap true); assumption.
Qed.

Lemma generate_respects_caps_witness :
  exists ps,
    generate 100 12345 0 0 = Ok ps /\
    count_type STAIRS_ROOM ps <= 3.
Proof.
  eexists. split; [vm_compute; reflexivity|].
  apply (generate_respects_caps 100 12345 0 0 _ (mkWeight STAIRS_ROOM 10 3 false 0)).
  - vm_compute. reflexivity.
  - do 3 right. left. reflexivity.
  - reflexivity.
Defined.

Lemma get_bridge_crossings_count (ps : list StructurePiece) :
  Z.of_nat (length (get_bridge_crossings ps))
  = count_type BRIDGE_CROSSING ps + count_type START_PIECE ps.
Proof.
  unfold get_bridge_crossings, count_type.
  induction ps as [|p ps IH]; [reflexivity|].
  cbn [filter]. destruct (piece_type p);
    repeat match goal with
    | |- context [PieceType_eqb ?a ?a] => rewrite (PieceType_eqb_refl a)
    | |- context [PieceType_eqb ?a ?b] =>
        let E := fresh in
        destruct (PieceType_eqb a b) eqn:E;
        [apply PieceType_eqb_eq in E; discriminate E|]
    end;
    cbn [length]; lia.
Qed.

(** X17.  A complete run holds exactly one StartPiece, and
    [get_bridge_crossings] returns at most five pieces: the start piece and
    up to four BridgeCrossing pieces. *)
Theorem generate_crossings_bound (fuel : nat) (world_seed cx cz : Z)
    (ps : list StructurePiece) :
  generate fuel world_seed cx cz = Ok ps ->
  count_type START_PIECE ps = 1 /\
  (1 <= length (get_bridge_crossings ps) <= 5)%nat.
Proof.
  intros Hrun. destruct (generate_unfold _ _ _ _ _ Hrun) as [g' E].
  destruct (weights_inv_run _ _ _ _ _ _ _ E) as [(_ & Hcap & Hstart) ->].
  split; [exact Hstart|].
  pose proof (get_bridge_crossings_count (pieces g')) as Hc.
  assert (H4 : count_type BRIDGE_CROSSING (pieces g') <= 4).
  { apply (Hcap false (mkWeight BRIDGE_CROSSING 10 4 false 0)).
    - right. left. reflexivity.
    - reflexivity. }
  assert (H0 : 0 <= count_type BRIDGE_CROSSING (pieces g'))
    by (unfold count_type; lia).
  lia.
Qed.

Lemma generate_crossings_bound_witness :
  exists ps,
    generate 100 12345 0 0 = Ok ps /\
    count_type START_PIECE ps = 1 /\
    (1 <= length (get_bridge_crossings ps) <= 5)%nat.
Proof.
  eexists. split; [vm_compute; reflexivity|].
  apply (generate_crossings_bound 100 12345 0 0).
  vm_compute. reflexivity.
Defined.

(** ** Depths *)

(** Every piece has a non-negative depth, and a piece that is not at depth 0
    is one deeper than some piece of the list. *)
Definition chain_inv (g : Generator) : Prop :=
  forall p, In p (pieces g) ->
    0 <= gen_depth p /\
    (gen_depth p = 0 \/ exists q, In q (pieces g) /\ gen_depth p = gen_depth q + 1).

Lemma chain_inv_run (rf fuel : nat) (world_seed cx cz : Z)
    (ps : list StructurePiece) (g' : Generator) :
  generate_from rf fuel (init world_seed cx cz) = Ok (ps, g') ->
  chain_inv g' /\ ps = pieces g'.
Proof.
  intros Hrun.
  eapply (run_invariant chain_inv); [| | | |exact Hrun].
  - intros g s H. exact H.
  - intros g l H. exact H.
  - intros parent x y z d is_castle g p g1 HI Hpar _ Hout.
    destruct (piece_outcome_frame _ _ _ _ _ _ _ _ _ Hout) as (F1 & _ & _).
    assert (Hdep : gen_depth p = gen_depth parent + 1).
    { destruct Hout as [(p' & Ep & s & seen & pw & todo & W & _ & _ & _ & Hc & _)
                       | (s & _ & Hf)].
      - injection Ep as <-. apply _create_piece_some in Hc. apply Hc.
      - symmetry in Hf. apply _create_end_filler_some in Hf. apply Hf. }
    intros q Hq. cbn [pieces set_pieces] in *. rewrite F1 in *.
    apply in_app_or in Hq. destruct Hq as [Hq | [<- | []]].
    + destruct (HI q Hq) as [H0 H1]. split; [exact H0|].
      destruct H1 as [H1 | (q' & Hq' & H1)]; [left; exact H1|].
      right. exists q'. split; [apply in_or_app; left; exact Hq' | exact H1].
    + destruct (HI parent Hpar) as [H0 _]. split; [lia|].
      right. exists parent. split; [apply in_or_app; left; exact Hpar | exact Hdep].
  - intros r d p [<- | []]. cbn. split; [lia | left; reflexivity].
Qed.

(** X18.  In a complete run every piece has a depth [>= 0], a piece that
    is not at depth 0 is one deeper than some piece of the list, and depths
    have no gaps: for every depth from 0 up to a piece's depth the list holds
    a piece of that depth (a chain of parents down to the start piece). *)
Theorem generate_depth_chain (fuel : nat) (world_seed cx cz : Z)
    (ps : list StructurePiece) (p : StructurePiece) :
  generate fuel world_seed cx cz = Ok ps -> In p ps ->
  0 <= gen_depth p /\
  (gen_depth p = 0 \/
   exists parent, In parent ps /\ gen_depth p = gen_depth parent + 1) /\
  forall k, 0 <= k <= gen_depth p -> exists q, In q ps /\ gen_depth q = k.
Proof.
  intros Hrun Hin. destruct (generate_unfold _ _ _ _ _ Hrun) as [g' E].
  destruct (chain_inv_run _ _ _ _ _ _ _ E) as [HI ->].
  destruct (HI p Hin) as [Hp0 Hp1].
  split; [exact Hp0|]. split; [exact Hp1|].
  intros k Hk.
  remember (Z.to_nat (gen_depth p - k)) as n eqn:En.
  clear Hp0 Hp1. revert p Hin Hk En. induction n as [|n IH]; intros p Hin Hk En.
  - exists p. split; [exact Hin | lia].
  - destruct (HI p Hin) as [H0 [H1 | (q & Hq & H1)]]; [lia|].
    apply (IH q Hq); lia.
Qed.

Lemma generate_depth_chain_witness :
  exists ps p,
    generate 100 12345 0 0 = Ok ps /\ nth_error ps 21 = Some p /\
    4 <= gen_depth p /\
    0 <= gen_depth p /\
    (gen_depth p = 0 \/
     exists parent, In parent ps /\ gen_depth p = gen_depth parent + 1) /\
    forall k, 0 <= k <= gen_depth p -> exists q, In q ps /\ gen_depth q = k.
Proof.
  eexists _, _. split; [vm_compute; reflexivity|]. split; [reflexivity|].
  split; [vm_compute; discriminate|].
  apply (generate_depth_chain 100 12345 0 0).
  - vm_compute. reflexivity.
  - do 21 right. left. reflexivity.
Defined.

(** ** Boxes *)

(** The block [(x, y, z)] lies in the box, bounds included. *)
Definition contains (b : BoundingBox) (x y z : Z) : Prop :=
  min_x b <= x <= max_x b /\ min_y b <= y <= max_y b /\ min_z b <= z <= max_z b.

Definition well_formed (b : BoundingBox) : Prop :=
  min_x b <= max_x b /\ min_y b <= max_y b /\ min_z b <= max_z b.

(** X19.  [intersects] is symmetric, and for boxes with [min <= max] on every
    axis it holds exactly when the two boxes have a block in common. *)
Theorem intersects_iff_common_block (a b : BoundingBox) :
  well_formed a -> well_formed b ->
  intersects a b = intersects b a /\
  (intersects a b = true <-> exists x y z, contains a x y z /\ contains b x y z).
Proof.
  intros (A1 & A2 & A3) (B1 & B2 & B3).
  split; [apply intersects_sym|].
  unfold intersects, contains. rewrite !andb_true_iff, !Z.geb_le, !Z.leb_le. split.
  - intros (((((H1 & H2) & H3) & H4) & H5) & H6).
    exists (Z.max (min_x a) (min_x b)), (Z.max (min_y a) (min_y b)),
           (Z.max (min_z a) (min_z b)).
    lia.
  - intros (x & y & z & Ha & Hb). lia.
Qed.

Lemma intersects_iff_common_block_witness :
  let a := mkBox 2 64 2 20 73 20 in
  let b := mkBox 20 73 20 24 80 24 in
  intersects a b = intersects b a /\
  (intersects a b = true <-> exists x y z, contains a x y z /\ contains b x y z).
Proof.
  cbv zeta. apply intersects_iff_common_block; unfold well_formed; cbn; lia.
Defined.

(** ** When the weighted selection is skipped *)

Lemma _update_piece_weight_loop_exhausted (ws : list PieceWeight) :
  (forall pw, In pw ws ->
     max_place_count pw <= 0 \/ max_place_count pw <= place_count pw) ->
  forall total, fst (_update_piece_weight_loop ws false total) = false.
Proof.
  induction ws as [|pw ws IH]; intros Hall total; cbn [_update_piece_weight_loop].
  - reflexivity.
  - assert (Hpw : (max_place_count pw >? 0) && (place_count pw <? max_place_count pw) = false).
    { destruct (Hall pw (or_introl eq_refl)) as [H | H].
      - apply andb_false_iff. left. rewrite Z.gtb_ltb. apply Z.ltb_ge. exact H.
      - apply andb_false_iff. right. apply Z.ltb_ge. exact H. }
    rewrite Hpw. apply IH. intros pw' Hin. apply Hall. right. exact Hin.
Qed.

(** X20.  When the request is deeper than 30, or when no entry of the weight
    list is a capped entry with room left (unlimited entries do not count),
    [_generate_piece] draws nothing: it returns what the BridgeEndFiller
    fallback gives and leaves the generator untouched. *)
Theorem generate_piece_without_draw (rf : nat) (is_castle : bool) (x y z : Z)
    (d : Direction) (depth : Z) (g : Generator) :
  depth > MAX_DEPTH \/
  (forall pw, In pw (weights_of is_castle g) ->
     max_place_count pw <= 0 \/ max_place_count pw <= place_count pw) ->
  _generate_piece rf is_castle x y z d depth g
  = Ok (_create_end_filler x y z d depth g, g).
Proof.
  intros H. unfold _generate_piece.
  assert (Hcan : (_update_piece_weight (weights_of is_castle g) >? 0)
                 && (depth <=? MAX_DEPTH) = false).
  { destruct H as [H | H].
    - apply andb_false_iff. right. apply Z.leb_gt. lia.
    - apply andb_false_iff. left. unfold _update_piece_weight.
      pose proof (_update_piece_weight_loop_exhausted _ H 0) as Hl.
      destruct (_update_piece_weight_loop (weights_of is_castle g) false 0) as [hv total].
      cbn [fst] in Hl. rewrite Hl. reflexivity. }
  rewrite Hcan. reflexivity.
Qed.

Lemma generate_piece_without_draw_witness :
  let g := set_weights false [mkWeight BRIDGE_STRAIGHT 30 0 true 7]
             (started 12345 0 0 (set_seed 0) NORTH) in
  _generate_piece 1 false 10 67 1 NORTH 1 g
  = Ok (_create_end_filler 10 67 1 NORTH 1 g, g).
Proof.
  cbv zeta. apply generate_piece_without_draw. right.
  intros pw [<- | []]. left. cbn. lia.
Defined.

End FortressGeneratorExtra.

(* ===================================================================== *)
(** * Further properties of the quad-crossing detector *)
(* ===================================================================== *)

Module CrossingDetectorExtra.
Import FortressGenerator CrossingDetector.
Import CrossingDetectorProps.

(** The identities of the members of a cluster. *)
Definition ids (q : QuadCrossing) : list nat := map id (crossings q).

(** One step of the loop of [find_quad_crossings]. *)
Definition quad_step (entries : list ((Z * Z * Z) * Ref))
    (quad_crossings : list QuadCrossing) (entry : (Z * Z * Z) * Ref)
  : list QuadCrossing :=
  let '(_, crossing1) := entry in
  match _find_quad_from_corner crossing1 entries with
  | Some quad =>
      if negb (_is_duplicate_quad quad quad_crossings)
      then quad_crossings ++ [quad]
      else quad_crossings
  | None => quad_crossings
  end.

Lemma find_quad_crossings_fold (cs : list Ref) :
  find_quad_crossings cs
  = if (length cs <? 4)%nat then []
    else fold_left (quad_step (map (fun c => (get_center (obj c), c)) cs))
           (map (fun c => (get_center (obj c), c)) cs) [].
Proof.
  reflexivity.
Qed.

(** No two entries, the earlier one first, have the same set of
    identities. *)
Definition distinct_id_sets (qs : list QuadCrossing) : Prop :=
  forall (i j : nat) (a b : QuadCrossing),
    (i < j)%nat -> nth_error qs i = Some a -> nth_error qs j = Some b ->
    id_set_eqb (ids a) (ids b) = false.

Lemma quad_step_distinct (entries : list ((Z * Z * Z) * Ref))
    (acc : list QuadCrossing) (e : (Z * Z * Z) * Ref) :
  distinct_id_sets acc ->
  distinct_id_sets (quad_step entries acc e) /\
  (length (quad_step entries acc e) <= S (length acc))%nat.
Proof.
  intros Hacc. unfold quad_step. destruct e as [ctr c].
  destruct (_find_quad_from_corner c entries) as [quad|]; [|split; [exact Hacc | lia]].
  destruct (_is_duplicate_quad quad acc) eqn:Edup; cbn [negb]; [split; [exact Hacc | lia]|].
  split; [|rewrite length_app; cbn; lia].
  intros i j a b Hij Ha Hb.
  destruct (Nat.lt_ge_cases j (length acc)) as [Hj | Hj].
  - rewrite nth_error_app1 in Ha, Hb by lia. exact (Hacc i j a b Hij Ha Hb).
  - assert (Hjl : (j < length (acc ++ [quad]))%nat)
      by (apply nth_error_Some; congruence).
    rewrite length_app in Hjl. cbn [length] in Hjl.
    rewrite nth_error_app1 in Ha by lia. rewrite nth_error_app2 in Hb by lia.
    destruct (j - length acc)%nat as [|k]; cbn in Hb; [|destruct k; discriminate].
    injection Hb as <-.
    unfold _is_duplicate_quad in Edup.
    destruct (id_set_eqb (ids a) (ids quad)) eqn:E; [|reflexivity].
    assert (Hex : existsb (fun existing_quad =>
                    id_set_eqb (map id (crossings existing_quad))
                      (map id (crossings quad))) acc = true).
    { apply existsb_exists. exists a. split; [eapply nth_error_In; exact Ha | exact E]. }
    congruence.
Qed.

(** X21.  [find_quad_crossings] returns at most one cluster per input piece,
    and no two returned clusters have the same set of member identities. *)
Theorem find_quad_crossings_deduplicated (cs : list Ref) :
  (length (find_quad_crossings cs) <= length cs)%nat /\
  forall (i j : nat) (a b : QuadCrossing),
    (i < j)%nat ->
    nth_error (find_quad_crossings cs) i = Some a ->
    nth_error (find_quad_crossings cs) j = Some b ->
    id_set_eqb (map id (crossings a)) (map id (crossings b)) = false.
Proof.
  rewrite find_quad_crossings_fold.
  destruct (length cs <? 4)%nat.
  - split; [cbn; lia|]. intros i j a b _ Ha. destruct i; discriminate.
  - set (entries := map (fun c => (get_center (obj c), c)) cs).
    assert (Hgen : forall todo acc,
              distinct_id_sets acc ->
              distinct_id_sets (fold_left (quad_step entries) todo acc) /\
              (length (fold_left (quad_step entries) todo acc)
               <= length acc + length todo)%nat).
    { induction todo as [|e todo IH]; intros acc Hacc; cbn [fold_left length].
      - split; [exact Hacc | lia].
      - destruct (quad_step_distinct entries acc e Hacc) as [H1 H2].
        destruct (IH _ H1) as [H3 H4]. split; [exact H3 | lia]. }
    destruct (Hgen entries []) as [H1 H2].
    { intros i j a b _ Ha. destruct i; discriminate. }
    split; [|exact H1].
    unfold entries in H2 at 3. rewrite length_map in H2. cbn in H2. exact H2.
Qed.

(** *** The arrangement of a cluster *)

Lemma neighbors_adjacent (corner : Ref) (entries : list ((Z * Z * Z) * Ref)) :
  forall nb : option Ref * option Ref,
  (forall r, fst nb = Some r ->
     _is_directly_adjacent_x (box corner) (box r) = true) ->
  (forall d, snd nb = Some d ->
     _is_directly_adjacent_z (box corner) (box d) = true) ->
  (forall r, fst (fold_left (neighbor_step corner) entries nb) = Some r ->
     _is_directly_adjacent_x (box corner) (box r) = true) /\
  (forall d, snd (fold_left (neighbor_step corner) entries nb) = Some d ->
     _is_directly_adjacent_z (box corner) (box d) = true).
Proof.
  induction entries as [|[ctr c] entries IH]; intros [nr nd] Hr Hd; cbn [fold_left].
  - auto.
  - apply IH; cbn [fst snd] in *.
    + unfold neighbor_step.
      destruct (StructurePiece_eqb (obj c) (obj corner)); [exact Hr|].
      cbn [fst].
      destruct ((_ >? 0) && _is_directly_adjacent_x (box corner) (box c)) eqn:E;
        [|exact Hr].
      apply andb_true_iff in E. destruct E as [_ E].
      intros r Hsel. destruct nr as [r0|].
      * destruct (_ <? _); injection Hsel as <-; auto.
      * injection Hsel as <-. exact E.
    + unfold neighbor_step.
      destruct (StructurePiece_eqb (obj c) (obj corner)); [exact Hd|].
      cbn [snd].
      destruct ((_ >? 0) && _is_directly_adjacent_z (box corner) (box c)) eqn:E;
        [|exact Hd].
      apply andb_true_iff in E. destruct E as [_ E].
      intros d Hsel. destruct nd as [d0|].
      * destruct (_ <? _); injection Hsel as <-; auto.
      * injection Hsel as <-. exact E.
Qed.

(** Four pieces tiling a 2 x 2 square: [tr] right of [tl], [bl] below [tl],
    [br] right of [bl] and below [tr], all on the same levels. *)
Definition arranged (tl tr bl br : Ref) : Prop :=
  (min_x (box tr) = max_x (box tl) + 1 /\
   min_z (box tr) = min_z (box tl) /\ max_z (box tr) = max_z (box tl)) /\
  (min_z (box bl) = max_z (box tl) + 1 /\
   min_x (box bl) = min_x (box tl) /\ max_x (box bl) = max_x (box tl)) /\
  (min_x (box br) = min_x (box tr) /\ max_x (box br) = max_x (box tr) /\
   min_z (box br) = min_z (box bl) /\ max_z (box br) = max_z (box bl)) /\
  (min_y (box tr) = min_y (box tl) /\ max_y (box tr) = max_y (box tl) /\
   min_y (box bl) = min_y (box tl) /\ max_y (box bl) = max_y (box tl) /\
   min_y (box br) = min_y (box tl) /\ max_y (box br) = max_y (box tl)).

Lemma _find_quad_from_corner_arranged (cs : list Ref) (corner : Ref)
    (quad : QuadCrossing) :
  Forall footprint19 cs -> In corner cs ->
  _find_quad_from_corner corner (map (fun c => (get_center (obj c), c)) cs) = Some quad ->
  exists tr bl br,
    crossings quad = [corner; tr; bl; br] /\
    In tr cs /\ In bl cs /\ In br cs /\
    arranged corner tr bl br /\
    quad_bounding_box quad
    = mkBox (min_x (box corner)) (min_y (box corner)) (min_z (box corner))
            (max_x (box br)) (max_y (box corner)) (max_z (box br)).
Proof.
  intros Hfp Hin Hquad.
  assert (Hcorner : footprint19 corner) by (eapply Forall_forall in Hfp; eassumption).
  unfold _find_quad_from_corner in Hquad.
  pose proof (neighbors_inv cs corner Hfp Hcorner _ (None, None) (entries_of_map cs)
                ltac:(cbn; discriminate) ltac:(cbn; discriminate)) as [Hr Hd].
  pose proof (neighbors_adjacent corner (map (fun c => (get_center (obj c), c)) cs)
                (None, None) ltac:(cbn; discriminate) ltac:(cbn; discriminate))
    as [Ar Ad].
  destruct (fold_left (neighbor_step corner) _ (None, None)) as [[r|] [d|]];
    try discriminate.
  specialize (Hr r eq_refl). specialize (Hd d eq_refl).
  specialize (Ar r eq_refl). specialize (Ad d eq_refl).
  destruct (find_diagonal corner r d _) as [diag|] eqn:Ediag; [|discriminate].
  apply (find_diagonal_some cs) in Ediag; [|apply entries_of_map].
  destruct Ediag as (Hgin & _ & _ & _ & Hz & Hx).
  apply _is_directly_adjacent_z_true in Hz. apply _is_directly_adjacent_x_true in Hx.
  apply _is_directly_adjacent_x_true in Ar. apply _is_directly_adjacent_z_true in Ad.
  destruct Hr as (Hrin & _ & Hr1 & Hr2 & Hr3).
  destruct Hd as (Hdin & _ & Hd1 & Hd2 & Hd3).
  assert (Fr : footprint19 r) by (eapply Forall_forall in Hfp; eassumption).
  assert (Fd : footprint19 d) by (eapply Forall_forall in Hfp; eassumption).
  assert (Fg : footprint19 diag) by (eapply Forall_forall in Hfp; eassumption).
  destruct Hcorner as [Kx Kz], Fr as [Rx Rz], Fd as [Dx Dz], Fg as [Gx Gz].
  injection Hquad as <-. cbn [crossings quad_bounding_box].
  exists r, d, diag. split; [reflexivity|].
  split; [exact Hrin|]. split; [exact Hdin|]. split; [exact Hgin|]. split.
  - unfold arranged. lia.
  - unfold py_min, py_max. cbn [fold_left map]. f_equal; lia.
Qed.

(** X22.  On pieces with 19 x 19 footprints, every returned cluster lists
    its members as top-left, top-right, bottom-left, bottom-right: input
    pieces on the same levels, the right ones starting one block after the
    left ones end, the bottom ones one block after the top ones end; the
    cluster's box goes from the top-left minimum to the bottom-right
    maximum. *)
Theorem find_quad_crossings_arranged (cs : list Ref) (quad : QuadCrossing) :
  Forall footprint19 cs ->
  In quad (find_quad_crossings cs) ->
  exists tl tr bl br,
    crossings quad = [tl; tr; bl; br] /\
    In tl cs /\ In tr cs /\ In bl cs /\ In br cs /\
    arranged tl tr bl br /\
    quad_bounding_box quad
    = mkBox (min_x (box tl)) (min_y (box tl)) (min_z (box tl))
            (max_x (box br)) (max_y (box tl)) (max_z (box br)).
Proof.
  intros Hfp Hq.
  destruct (find_quad_crossings_from_corner cs quad Hq) as (corner & Hin & Hquad).
  destruct (_find_quad_from_corner_arranged cs corner quad Hfp Hin Hquad)
    as (tr & bl & br & H).
  exists corner, tr, bl, br.
  destruct H as (H1 & H2 & H3 & H4 & H5 & H6). auto 10.
Qed.

Lemma find_quad_crossings_arranged_witness :
  exists quad tl tr bl br,
    find_quad_crossings quad_example = [quad] /\
    crossings quad = [tl; tr; bl; br] /\
    In tl quad_example /\ In tr quad_example /\ In bl quad_example /\
    In br quad_example /\
    arranged tl tr bl br /\
    quad_bounding_box quad
    = mkBox (min_x (box tl)) (min_y (box tl)) (min_z (box tl))
            (max_x (box br)) (max_y (box tl)) (max_z (box br)).
Proof.
  destruct (find_quad_crossings_arranged quad_example
              (mkQuad quad_example (18, 68, 18) (mkBox 0 64 0 37 73 37)))
    as (tl & tr & bl & br & H).
  - repeat constructor.
  - vm_compute. left. reflexivity.
  - eexists _, tl, tr, bl, br. split; [vm_compute; reflexivity | exact H].
Defined.

(** *** The detector misses no 2 x 2 arrangement *)

Lemma BoundingBox_eqb_true (a b : BoundingBox) : BoundingBox_eqb a b = true -> a = b.
Proof.
  unfold BoundingBox_eqb. rewrite !andb_true_iff, !Z.eqb_eq.
  destruct a, b. cbn. intros (((((-> & ->) & ->) & ->) & ->) & ->). reflexivity.
Qed.

Lemma StructurePiece_eqb_true (p q : StructurePiece) :
  StructurePiece_eqb p q = true -> p = q.
Proof.
  unfold StructurePiece_eqb. rewrite !andb_true_iff, Z.eqb_eq.
  intros (((Ht & Hb) & Hd) & Hg).
  apply FortressGeneratorExtra.PieceType_eqb_eq in Ht. apply BoundingBox_eqb_true in Hb.
  destruct p as [t1 b1 d1 g1], q as [t2 b2 d2 g2]. cbn in *. subst.
  destruct d1, d2; try discriminate; reflexivity.
Qed.

Lemma StructurePiece_eqb_box (p q : Ref) :
  box p <> box q -> StructurePiece_eqb (obj p) (obj q) = false.
Proof.
  intros H. destruct (StructurePiece_eqb (obj p) (obj q)) eqn:E; [|reflexivity].
  apply StructurePiece_eqb_true in E. unfold box in H. rewrite E in H. congruence.
Qed.

Lemma _is_directly_adjacent_x_intro (b1 b2 : BoundingBox) :
  min_z b1 = min_z b2 -> max_z b1 = max_z b2 ->
  min_y b1 = min_y b2 -> max_y b1 = max_y b2 ->
  min_x b2 = max_x b1 + 1 ->
  _is_directly_adjacent_x b1 b2 = true.
Proof.
  intros H1 H2 H3 H4 H5. unfold _is_directly_adjacent_x.
  rewrite H1, H2, H3, H4, H5, !Z.eqb_refl. reflexivity.
Qed.

Lemma _is_directly_adjacent_z_intro (b1 b2 : BoundingBox) :
  min_x b1 = min_x b2 -> max_x b1 = max_x b2 ->
  min_y b1 = min_y b2 -> max_y b1 = max_y b2 ->
  min_z b2 = max_z b1 + 1 ->
  _is_directly_adjacent_z b1 b2 = true.
Proof.
  intros H1 H2 H3 H4 H5. unfold _is_directly_adjacent_z.
  rewrite H1, H2, H3, H4, H5, !Z.eqb_refl. reflexivity.
Qed.

(** Once a neighbour is recorded it is never dropped, and an entry that
    qualifies leaves one recorded. *)
Lemma neighbor_step_keeps (corner : Ref) (nb : option Ref * option Ref)
    (e : (Z * Z * Z) * Ref) :
  (fst nb <> None -> fst (neighbor_step corner nb e) <> None) /\
  (snd nb <> None -> snd (neighbor_step corner nb e) <> None).
Proof.
  destruct nb as [nr nd], e as [ctr c]. unfold neighbor_step. cbn [fst snd].
  destruct (StructurePiece_eqb (obj c) (obj corner)); cbn [fst snd]; [auto|].
  split; intros H.
  - match goal with |- context [if ?c then _ else nr] => destruct c end; [|exact H].
    destruct nr; [destruct (_ <? _); discriminate | discriminate].
  - match goal with |- context [if ?c then _ else nd] => destruct c end; [|exact H].
    destruct nd; [destruct (_ <? _); discriminate | discriminate].
Qed.

Lemma neighbor_step_new (corner : Ref) (nb : option Ref * option Ref)
    (ctr : Z * Z * Z) (c : Ref) :
  StructurePiece_eqb (obj c) (obj corner) = false ->
  ((center_x ctr - center_x (get_center (obj corner)) >? 0)
   && _is_directly_adjacent_x (box corner) (box c) = true ->
   fst (neighbor_step corner nb (ctr, c)) <> None) /\
  ((center_z ctr - center_z (get_center (obj corner)) >? 0)
   && _is_directly_adjacent_z (box corner) (box c) = true ->
   snd (neighbor_step corner nb (ctr, c)) <> None).
Proof.
  intros Hne. destruct nb as [nr nd]. unfold neighbor_step. rewrite Hne.
  cbn [fst snd]. split; intros ->.
  - destruct nr; [destruct (_ <? _); discriminate | discriminate].
  - destruct nd; [destruct (_ <? _); discriminate | discriminate].
Qed.

Lemma neighbors_keep (corner : Ref) (entries : list ((Z * Z * Z) * Ref)) :
  forall nb,
  (fst nb <> None -> fst (fold_left (neighbor_step corner) entries nb) <> None) /\
  (snd nb <> None -> snd (fold_left (neighbor_step corner) entries nb) <> None).
Proof.
  induction entries as [|e entries IH]; intros nb; cbn [fold_left]; [auto|].
  destruct (neighbor_step_keeps corner nb e) as [H1 H2].
  destruct (IH (neighbor_step corner nb e)) as [H3 H4]. auto.
Qed.

Lemma neighbors_found (corner : Ref) (ctr : Z * Z * Z) (c : Ref)
    (entries : list ((Z * Z * Z) * Ref)) :
  In (ctr, c) entries ->
  StructurePiece_eqb (obj c) (obj corner) = false ->
  forall nb,
  ((center_x ctr - center_x (get_center (obj corner)) >? 0)
   && _is_directly_adjacent_x (box corner) (box c) = true ->
   fst (fold_left (neighbor_step corner) entries nb) <> None) /\
  ((center_z ctr - center_z (get_center (obj corner)) >? 0)
   && _is_directly_adjacent_z (box corner) (box c) = true ->
   snd (fold_left (neighbor_step corner) entries nb) <> None).
Proof.
  intros Hin Hne. induction entries as [|e entries IH]; [contradiction|].
  intros nb. cbn [fold_left]. destruct Hin as [-> | Hin].
  - destruct (neighbor_step_new corner nb ctr c Hne) as [H1 H2].
    destruct (neighbors_keep corner entries (neighbor_step corner nb (ctr, c)))
      as [H3 H4].
    auto.
  - apply IH. exact Hin.
Qed.

Lemma find_diagonal_found (corner r d : Ref) (ctr : Z * Z * Z) (c : Ref)
    (entries : list ((Z * Z * Z) * Ref)) :
  In (ctr, c) entries ->
  existsb (fun c' => StructurePiece_eqb (obj c) (obj c')) [corner; r; d] = false ->
  _is_directly_adjacent_z (box r) (box c) && _is_directly_adjacent_x (box d) (box c)
    = true ->
  find_diagonal corner r d entries <> None.
Proof.
  intros Hin Hne Hadj. induction entries as [|[ctr' c'] entries IH]; [contradiction|].
  cbn [find_diagonal]. destruct Hin as [Heq | Hin].
  - injection Heq as _ ->. rewrite Hne, Hadj. discriminate.
  - specialize (IH Hin).
    match goal with |- (if ?c then _ else _) <> None => destruct c end;
      [exact IH|].
    match goal with |- (if ?c then _ else _) <> None => destruct c end;
      [discriminate | exact IH].
Qed.

Lemma quad_fold_nonempty (entries todo : list ((Z * Z * Z) * Ref)) :
  forall acc,
  (acc <> [] \/
   exists ctr c, In (ctr, c) todo /\ _find_quad_from_corner c entries <> None) ->
  fold_left (quad_step entries) todo acc <> [].
Proof.
  induction todo as [|[ctr c] todo IH]; intros acc H; cbn [fold_left].
  - destruct H as [H | (ctr & c & [] & _)]. exact H.
  - apply IH.
    assert (Hstep : acc <> [] -> quad_step entries acc (ctr, c) <> []).
    { intros Hacc. unfold quad_step.
      destruct (_find_quad_from_corner c entries); [|exact Hacc].
      destruct (negb _); [|exact Hacc]. destruct acc; [congruence | discriminate]. }
    destruct H as [H | (ctr' & c' & [Heq | Hin] & Hq)].
    + left. apply Hstep. exact H.
    + injection Heq as _ Heq. subst c'. left. unfold quad_step.
      destruct (_find_quad_from_corner c entries) as [quad|]; [|congruence].
      destruct (_is_duplicate_quad quad acc) eqn:Ed; cbn [negb].
      * destruct acc; [discriminate | discriminate].
      * destruct acc; discriminate.
    + right. exists ctr', c'. auto.
Qed.

(** X23.  The detector misses nothing: if a list of pieces with 19 x 19
    footprints holds four pieces arranged 2 x 2 (see [arranged]),
    [find_quad_crossings] returns at least one cluster. *)
Theorem find_quad_crossings_complete (cs : list Ref) (tl tr bl br : Ref) :
  Forall footprint19 cs ->
  In tl cs -> In tr cs -> In bl cs -> In br cs ->
  arranged tl tr bl br ->
  find_quad_crossings cs <> [].
Proof.
  intros Hfp Htl Htr Hbl Hbr Harr.
  assert (Ftl : footprint19 tl) by (eapply Forall_forall in Hfp; eassumption).
  assert (Ftr : footprint19 tr) by (eapply Forall_forall in Hfp; eassumption).
  assert (Fbl : footprint19 bl) by (eapply Forall_forall in Hfp; eassumption).
  assert (Fbr : footprint19 br) by (eapply Forall_forall in Hfp; eassumption).
  pose proof (center_x_footprint tl Ftl) as Cx0. pose proof (center_z_footprint tl Ftl) as Cz0.
  pose proof (center_x_footprint tr Ftr) as Cx1. pose proof (center_z_footprint bl Fbl) as Cz2.
  destruct Ftl as [Kx Kz], Ftr as [Rx Rz], Fbl as [Dx Dz], Fbr as [Gx Gz].
  destruct Harr as ((A1 & A2 & A3) & (B1 & B2 & B3) & (C1 & C2 & C3 & C4)
                    & (Y1 & Y2 & Y3 & Y4 & Y5 & Y6)).
  assert (Ntr : box tr <> box tl) by (intros E; rewrite E in A1; lia).
  assert (Nbl : box bl <> box tl) by (intros E; rewrite E in B1; lia).
  assert (Nbr : box br <> box tl) by (intros E; rewrite E in C1; lia).
  assert (Nrd : box tr <> box bl) by (intros E; rewrite E in A1; lia).
  assert (Hlen : (length cs <? 4)%nat = false).
  { apply Nat.ltb_ge.
    assert (Hnd : NoDup [tl; tr; bl; br]).
    { assert (D1 : tl <> tr) by (intros E; rewrite <- E in A1; lia).
      assert (D2 : tl <> bl) by (intros E; rewrite <- E in B1; lia).
      assert (D3 : tl <> br) by (intros E; rewrite <- E in C1; lia).
      assert (D4 : tr <> bl) by (intros E; rewrite E in A1; lia).
      assert (D5 : tr <> br) by (intros E; rewrite <- E in C3; lia).
      assert (D6 : bl <> br) by (intros E; rewrite <- E in C1; lia).
      constructor; [cbn [In]; intuition congruence|].
      constructor; [cbn [In]; intuition congruence|].
      constructor; [cbn [In]; intuition congruence|].
      constructor; [cbn [In]; intuition congruence|]. constructor. }
    apply (NoDup_incl_length Hnd).
    intros c [<- | [<- | [<- | [<- | []]]]]; assumption. }
  rewrite find_quad_crossings_fold, Hlen.
  set (entries := map (fun c => (get_center (obj c), c)) cs).
  assert (Hent : forall c, In c cs -> In (get_center (obj c), c) entries).
  { intros c Hc. unfold entries. apply in_map_iff. exists c. auto. }
  apply quad_fold_nonempty. right.
  exists (get_center (obj tl)), tl. split; [apply Hent; exact Htl|].
  unfold _find_quad_from_corner.
  (* the two neighbours are found *)
  destruct (neighbors_found tl _ tr entries (Hent tr Htr)
              (StructurePiece_eqb_box tr tl Ntr) (None, None)) as [Fr _].
  destruct (neighbors_found tl _ bl entries (Hent bl Hbl)
              (StructurePiece_eqb_box bl tl Nbl) (None, None)) as [_ Fd].
  assert (Hqr : (center_x (get_center (obj tr)) - center_x (get_center (obj tl)) >? 0)
                && _is_directly_adjacent_x (box tl) (box tr) = true).
  { apply andb_true_iff. split; [apply Z.gtb_lt; lia|].
    apply _is_directly_adjacent_x_intro; lia. }
  assert (Hqd : (center_z (get_center (obj bl)) - center_z (get_center (obj tl)) >? 0)
                && _is_directly_adjacent_z (box tl) (box bl) = true).
  { apply andb_true_iff. split; [apply Z.gtb_lt; lia|].
    apply _is_directly_adjacent_z_intro; lia. }
  specialize (Fr Hqr). specialize (Fd Hqd).
  pose proof (neighbors_inv cs tl Hfp (conj Kx Kz) entries (None, None)
                (entries_of_map cs)
                ltac:(cbn; discriminate) ltac:(cbn; discriminate)) as [Ir Id].
  pose proof (neighbors_adjacent tl entries (None, None)
                ltac:(cbn; discriminate) ltac:(cbn; discriminate)) as [Ar Ad].
  destruct (fold_left (neighbor_step tl) entries (None, None)) as [[r|] [d|]];
    cbn [fst snd] in *; try congruence.
  specialize (Ir r eq_refl). specialize (Id d eq_refl).
  specialize (Ar r eq_refl). specialize (Ad d eq_refl).
  apply _is_directly_adjacent_x_true in Ar. apply _is_directly_adjacent_z_true in Ad.
  destruct Ir as (Hrin & _ & Ir1 & Ir2 & Ir3).
  destruct Id as (Hdin & _ & Id1 & Id2 & Id3).
  assert (Fr' : footprint19 r) by (eapply Forall_forall in Hfp; eassumption).
  assert (Fd' : footprint19 d) by (eapply Forall_forall in Hfp; eassumption).
  destruct Fr' as [Rx' Rz'], Fd' as [Dx' Dz'].
  (* the diagonal is found *)
  assert (Hdiag : find_diagonal tl r d entries <> None).
  { apply (find_diagonal_found tl r d _ br entries (Hent br Hbr)).
    - cbn [existsb]. rewrite orb_false_r.
      rewrite (StructurePiece_eqb_box br tl Nbr).
      rewrite (StructurePiece_eqb_box br r) by (intros E; rewrite E in C3; lia).
      rewrite (StructurePiece_eqb_box br d) by (intros E; rewrite E in C1; lia).
      reflexivity.
    - apply andb_true_iff. split.
      + apply _is_directly_adjacent_z_intro; lia.
      + apply _is_directly_adjacent_x_intro; lia. }
  destruct (find_diagonal tl r d entries); [discriminate | congruence].
Qed.

Lemma find_quad_crossings_complete_witness :
  find_quad_crossings quad_example <> [].
Proof.
  apply (find_quad_crossings_complete quad_example
           (mkRef 0 (mkPiece BRIDGE_CROSSING (mkBox 0 64 0 18 73 18) NORTH 1))
           (mkRef 1 (mkPiece BRIDGE_CROSSING (mkBox 19 64 0 37 73 18) NORTH 2))
           (mkRef 2 (mkPiece BRIDGE_CROSSING (mkBox 0 64 19 18 73 37) NORTH 2))
           (mkRef 3 (mkPiece BRIDGE_CROSSING (mkBox 19 64 19 37 73 37) NORTH 3))).
  - repeat constructor.
  - left. reflexivity.
  - right. left. reflexivity.
  - do 2 right. left. reflexivity.
  - do 3 right. left. reflexivity.
  - unfold arranged. cbn. lia.
Defined.

(** ** Connectivity *)

Lemma _is_adjacent_x_sym (b1 b2 : BoundingBox) :
  _is_adjacent_x b1 b2 = _is_adjacent_x b2 b1.
Proof.
  unfold _is_adjacent_x. rewrite !Z.geb_leb.
  rewrite (andb_comm (min_z b1 <=? max_z b2)).
  rewrite (Z.min_comm (Z.abs (max_x b1 - min_x b2))). reflexivity.
Qed.

Lemma _is_adjacent_z_sym (b1 b2 : BoundingBox) :
  _is_adjacent_z b1 b2 = _is_adjacent_z b2 b1.
Proof.
  unfold _is_adjacent_z. rewrite !Z.geb_leb.
  rewrite (andb_comm (min_x b1 <=? max_x b2)).
  rewrite (Z.min_comm (Z.abs (max_z b1 - min_z b2))). reflexivity.
Qed.

Lemma _are_connected_sym (c1 c2 : Ref) :
  _are_connected c1 c2 = _are_connected c2 c1.
Proof.
  unfold _are_connected.
  rewrite (_is_adjacent_x_sym (box c1)), (_is_adjacent_z_sym (box c1)). reflexivity.
Qed.

Lemma in_visited_In (c : Ref) (visited : list nat) :
  in_visited c visited = true <-> In (id c) visited.
Proof.
  unfold in_visited. rewrite existsb_exists. split.
  - intros (x & Hx & E). apply Nat.eqb_eq in E. subst. exact Hx.
  - intros H. exists (id c). split; [exact H | apply Nat.eqb_refl].
Qed.

Lemma in_visited_not_In (c : Ref) (visited : list nat) :
  in_visited c visited = false <-> ~ In (id c) visited.
Proof.
  rewrite <- in_visited_In. destruct (in_visited c visited); split; intros H;
    congruence || (exfalso; apply H; reflexivity) || discriminate.
Qed.

(** The entries of the list whose object is not marked yet. *)
Definition unvisited (cs : list Ref) (visited : list nat) : list Ref :=
  filter (fun c => negb (in_visited c visited)) cs.

Lemma unvisited_le (cs : list Ref) (v v' : list nat) :
  (forall x, In x v -> In x v') ->
  (length (unvisited cs v') <= length (unvisited cs v))%nat.
Proof.
  intros Hsub. induction cs as [|a cs IH]; [apply Nat.le_refl|].
  unfold unvisited in *. cbn [filter].
  destruct (in_visited a v) eqn:Ea.
  - apply in_visited_In in Ea. apply Hsub in Ea. apply in_visited_In in Ea.
    rewrite Ea. cbn [negb]. exact IH.
  - cbn [negb length]. destruct (in_visited a v'); cbn [negb length]; lia.
Qed.

Lemma unvisited_lt (cs : list Ref) (v v' : list nat) (c : Ref) :
  (forall x, In x v -> In x v') ->
  In c cs -> ~ In (id c) v -> In (id c) v' ->
  (length (unvisited cs v') < length (unvisited cs v))%nat.
Proof.
  intros Hsub Hin Hn Hy. induction cs as [|a cs IH]; [contradiction|].
  pose proof (unvisited_le cs v v' Hsub) as Hle.
  unfold unvisited in *. cbn [filter].
  destruct Hin as [-> | Hin].
  - apply in_visited_not_In in Hn. apply in_visited_In in Hy. rewrite Hn, Hy.
    cbn [negb length]. lia.
  - specialize (IH Hin).
    destruct (in_visited a v) eqn:Ea.
    + apply in_visited_In in Ea. apply Hsub in Ea. apply in_visited_In in Ea.
      rewrite Ea. cbn [negb]. exact IH.
    + cbn [negb length]. destruct (in_visited a v'); cbn [negb length]; lia.
Qed.

Lemma unvisited_length (cs : list Ref) (v : list nat) :
  (length (unvisited cs v) <= length cs)%nat.
Proof. apply filter_length_le. Qed.

(** Every entry of [new] is connected to an entry before it, [before]
    holding the entries that precede [new]. *)
Fixpoint linked (before new : list Ref) : Prop :=
  match new with
  | [] => True
  | c :: new' =>
      (exists c0, In c0 before /\ _are_connected c0 c = true) /\
      linked (before ++ [c]) new'
  end.

Lemma linked_mono (new : list Ref) :
  forall before before' : list Ref,
  incl before before' -> linked before new -> linked before' new.
Proof.
  induction new as [|c new IH]; intros before before' Hincl; cbn [linked]; [auto|].
  intros [(c0 & H0 & Hc) Hl]. split.
  - exists c0. auto.
  - apply (IH (before ++ [c])); [|exact Hl].
    apply incl_app; [apply incl_appl; exact Hincl | apply incl_appr, incl_refl].
Qed.

Lemma linked_app (n1 n2 : list Ref) :
  forall before : list Ref,
  linked before n1 -> linked (before ++ n1) n2 -> linked before (n1 ++ n2).
Proof.
  induction n1 as [|c n1 IH]; intros before H1 H2; cbn [app linked] in *.
  - rewrite app_nil_r in H2. exact H2.
  - destruct H1 as [Hc Hl]. split; [exact Hc|].
    apply IH; [exact Hl|]. rewrite <- app_assoc. exact H2.
Qed.

(** What a call of [_dfs_connected] that returns has done: [new] is what it
    appended to the group. *)
Definition dfs_post (cs : list Ref) (crossing : Ref)
    (visited : list nat) (group : list Ref) (new : list Ref) : Prop :=
  (forall c, In c new -> In c cs /\ ~ In (id c) visited) /\
  NoDup (map id new) /\
  (if in_visited crossing visited then new = []
   else exists rest, new = crossing :: rest /\ linked [crossing] rest) /\
  (forall v o, In v new -> In o cs -> _are_connected v o = true ->
     In (id o) (rev (map id new) ++ visited)).

(** The body of the loop of [_dfs_connected]. *)
Definition dfs_body (depth' : nat) (cs : list Ref) (crossing : Ref)
  : list nat * list Ref -> Ref -> result (list nat * list Ref) :=
  fun '(visited, group) other =>
    if in_visited other visited then Ok (visited, group)
    else if _are_connected crossing other
    then _dfs_connected depth' cs other (visited, group)
    else Ok (visited, group).

Lemma dfs_body_eq (depth' : nat) (cs : list Ref) (crossing other : Ref)
    (visited : list nat) (group : list Ref) :
  dfs_body depth' cs crossing (visited, group) other
  = if in_visited other visited then Ok (visited, group)
    else if _are_connected crossing other
    then _dfs_connected depth' cs other (visited, group)
    else Ok (visited, group).
Proof. reflexivity. Qed.

Lemma _dfs_connected_unfold (depth' : nat) (cs : list Ref) (crossing : Ref)
    (visited : list nat) (group : list Ref) :
  _dfs_connected (S depth') cs crossing (visited, group)
  = if in_visited crossing visited then Ok (visited, group)
    else FortressLocator.for_each cs (id crossing :: visited, group ++ [crossing])
           (dfs_body depth' cs crossing).
Proof. reflexivity. Qed.

Lemma In_rev_ids (x : nat) (new : list Ref) (visited : list nat) :
  In x (rev (map id new) ++ visited) <-> In x (map id new) \/ In x visited.
Proof. rewrite in_app_iff, <- in_rev. reflexivity. Qed.

Lemma dfs_loop (depth' : nat) (cs : list Ref) (crossing : Ref)
    (IHd : forall (c : Ref) (visited : list nat) (group : list Ref),
        In c cs -> (length (unvisited cs visited) < depth')%nat ->
        exists new,
          _dfs_connected depth' cs c (visited, group)
          = Ok (rev (map id new) ++ visited, group ++ new) /\
          dfs_post cs c visited group new) :
  forall (todo : list Ref) (vis : list nat) (grp before : list Ref),
  incl todo cs -> (length (unvisited cs vis) < depth')%nat ->
  In crossing before ->
  exists nw,
    FortressLocator.for_each todo (vis, grp) (dfs_body depth' cs crossing)
    = Ok (rev (map id nw) ++ vis, grp ++ nw) /\
    (forall c, In c nw -> In c cs /\ ~ In (id c) vis) /\
    NoDup (map id nw) /\
    linked before nw /\
    (forall v o, In v nw -> In o cs -> _are_connected v o = true ->
       In (id o) (rev (map id nw) ++ vis)) /\
    (forall o, In o todo -> _are_connected crossing o = true ->
       In (id o) (rev (map id nw) ++ vis)).
Proof.
  induction todo as [|other todo IH]; intros vis grp before Hincl Hfuel Hbefore.
  - exists []. cbn. rewrite app_nil_r. repeat split; try constructor;
      intros; contradiction.
  - assert (Hother : In other cs) by (apply Hincl; left; reflexivity).
    assert (Htodo : incl todo cs) by (intros x Hx; apply Hincl; right; exact Hx).
    cbn [FortressLocator.for_each]. rewrite dfs_body_eq.
    destruct (in_visited other vis) eqn:Ev; [|destruct (_are_connected crossing other) eqn:Ec].
    + (* already marked *)
      cbn [rbind].
      destruct (IH vis grp before Htodo Hfuel Hbefore)
        as (nw & E & H1 & H2 & H3 & H4 & H5).
      exists nw. split; [exact E|]. split; [exact H1|]. split; [exact H2|].
      split; [exact H3|]. split; [exact H4|].
      intros o [<- | Ho] Hc; [|exact (H5 o Ho Hc)].
      apply In_rev_ids. right. apply in_visited_In. exact Ev.
    + (* the recursive call *)
      destruct (IHd other vis grp Hother Hfuel) as (new1 & E1 & P1 & P2 & P3 & P4).
      rewrite E1. cbn [rbind]. rewrite Ev in P3.
      destruct P3 as (rest1 & -> & Hl1).
      set (new1 := other :: rest1) in *.
      set (vis1 := rev (map id new1) ++ vis) in *.
      assert (Hsub : forall x, In x vis -> In x vis1)
        by (intros x Hx; apply In_rev_ids; right; exact Hx).
      assert (Hfuel1 : (length (unvisited cs vis1) < depth')%nat).
      { pose proof (unvisited_le cs vis vis1 Hsub). lia. }
      destruct (IH vis1 (grp ++ new1) (before ++ new1) Htodo Hfuel1
                  ltac:(apply in_or_app; left; exact Hbefore))
        as (nw & E & H1 & H2 & H3 & H4 & H5).
      exists (new1 ++ nw).
      assert (Evis : rev (map id (new1 ++ nw)) ++ vis = rev (map id nw) ++ vis1).
      { unfold vis1. rewrite map_app, rev_app_distr, <- app_assoc. reflexivity. }
      rewrite Evis, app_assoc. split; [exact E|].
      split; [|split; [|split; [|split]]].
      * intros c Hc. apply in_app_or in Hc. destruct Hc as [Hc | Hc].
        -- exact (P1 c Hc).
        -- destruct (H1 c Hc) as [Ha Hb]. split; [exact Ha|].
           intros Hv. apply Hb, Hsub, Hv.
      * rewrite map_app. apply NoDup_app; [exact P2 | exact H2|].
        intros a Ha Hb. apply in_map_iff in Hb. destruct Hb as (c & <- & Hc).
        destruct (H1 c Hc) as [_ Hn]. apply Hn. apply In_rev_ids. left. exact Ha.
      * apply linked_app; [|exact H3].
        unfold new1. cbn [linked]. split.
        -- exists crossing. split; [exact Hbefore | exact Ec].
        -- apply (linked_mono rest1 [other]); [|exact Hl1].
           intros x [<- | []]. apply in_or_app. right. left. reflexivity.
      * intros v o Hv Ho Hc. apply in_app_or in Hv. destruct Hv as [Hv | Hv].
        -- apply In_rev_ids. right. exact (P4 v o Hv Ho Hc).
        -- exact (H4 v o Hv Ho Hc).
      * intros o [<- | Ho] Hc; [|exact (H5 o Ho Hc)].
        apply In_rev_ids. right. apply In_rev_ids. left.
        unfold new1. left. reflexivity.
    + (* not connected *)
      cbn [rbind].
      destruct (IH vis grp before Htodo Hfuel Hbefore)
        as (nw & E & H1 & H2 & H3 & H4 & H5).
      exists nw. split; [exact E|]. split; [exact H1|]. split; [exact H2|].
      split; [exact H3|]. split; [exact H4|].
      intros o [<- | Ho] Hc; [congruence | exact (H5 o Ho Hc)].
Qed.

Lemma dfs_spec (cs : list Ref) :
  forall (depth : nat) (crossing : Ref) (visited : list nat) (group : list Ref),
  In crossing cs -> (length (unvisited cs visited) < depth)%nat ->
  exists new,
    _dfs_connected depth cs crossing (visited, group)
    = Ok (rev (map id new) ++ visited, group ++ new) /\
    dfs_post cs crossing visited group new.
Proof.
  induction depth as [|depth' IHd]; intros crossing visited group Hin Hfuel; [lia|].
  rewrite _dfs_connected_unfold. unfold dfs_post.
  destruct (in_visited crossing visited) eqn:Ev.
  - exists []. cbn. rewrite app_nil_r. repeat split; try constructor;
      intros; contradiction.
  - assert (Hn : ~ In (id crossing) visited) by (apply in_visited_not_In; exact Ev).
    assert (Hfuel' : (length (unvisited cs (id crossing :: visited)) < depth')%nat).
    { pose proof (unvisited_lt cs visited (id crossing :: visited) crossing
                    ltac:(intros x Hx; right; exact Hx) Hin Hn
                    ltac:(left; reflexivity)). lia. }
    destruct (dfs_loop depth' cs crossing IHd cs (id crossing :: visited)
                (group ++ [crossing]) [crossing] (incl_refl cs) Hfuel'
                ltac:(left; reflexivity))
      as (nw & E & H1 & H2 & H3 & H4 & H5).
    exists (crossing :: nw).
    assert (Evis : rev (map id (crossing :: nw)) ++ visited
                   = rev (map id nw) ++ id crossing :: visited).
    { cbn [map rev]. rewrite <- app_assoc. reflexivity. }
    rewrite Evis. rewrite <- app_assoc in E. cbn [app] in E.
    split; [exact E|].
    split; [|split; [|split]].
    + intros c [<- | Hc]; [auto|].
      destruct (H1 c Hc) as [Ha Hb]. split; [exact Ha|].
      intros Hv. apply Hb. right. exact Hv.
    + cbn [map]. constructor; [|exact H2].
      intros Hc. apply in_map_iff in Hc. destruct Hc as (c & Eid & Hc).
      destruct (H1 c Hc) as [_ Hb]. apply Hb. left. symmetry. exact Eid.
    + exists nw. auto.
    + intros v o [<- | Hv] Ho Hc; [exact (H5 o Ho Hc) | exact (H4 v o Hv Ho Hc)].
Qed.

(** The body of the loop of [find_connected_crossings]. *)
Definition groups_body (depth : nat) (cs : list Ref)
  : list nat * list (list Ref) -> Ref -> result (list nat * list (list Ref)) :=
  fun '(visited, groups) crossing =>
    if in_visited crossing visited then Ok (visited, groups)
    else
      rbind (_dfs_connected depth cs crossing (visited, []))
        (fun '(visited, group) =>
      if (2 <=? length group)%nat
      then Ok (visited, groups ++ [group])
      else Ok (visited, groups)).

Lemma groups_body_eq (depth : nat) (cs : list Ref) (crossing : Ref)
    (visited : list nat) (groups : list (list Ref)) :
  groups_body depth cs (visited, groups) crossing
  = if in_visited crossing visited then Ok (visited, groups)
    else
      rbind (_dfs_connected depth cs crossing (visited, []))
        (fun '(visited, group) =>
      if (2 <=? length group)%nat
      then Ok (visited, groups ++ [group])
      else Ok (visited, groups)).
Proof. reflexivity. Qed.

Lemma find_connected_crossings_unfold (depth : nat) (cs : list Ref) :
  find_connected_crossings depth cs
  = rbind (FortressLocator.for_each cs ([], []) (groups_body depth cs))
      (fun '(_, groups) => Ok groups).
Proof. destruct cs; reflexivity. Qed.

(** A group is a list of at least two entries of the input, each but the
    first connected to an entry before it. *)
Definition connected_group (cs : list Ref) (g : list Ref) : Prop :=
  (2 <= length g)%nat /\
  (forall c, In c g -> In c cs) /\
  exists first rest, g = first :: rest /\ linked [first] rest.

Definition groups_sound (cs : list Ref) (vis : list nat) (groups : list (list Ref))
  : Prop :=
  (forall g, In g groups -> connected_group cs g) /\
  NoDup (map id (concat groups)) /\
  (forall c, In c (concat groups) -> In (id c) vis).

(** Two entries with the same identity are the same object. *)
Definition same_object (cs : list Ref) : Prop :=
  forall a b, In a cs -> In b cs -> id a = id b -> a = b.

Definition groups_closed (cs : list Ref) (vis : list nat) (groups : list (list Ref))
  : Prop :=
  (forall v o, In v cs -> In o cs -> In (id v) vis ->
     _are_connected v o = true -> In (id o) vis) /\
  (forall c c', In c cs -> In c' cs -> id c <> id c' ->
     _are_connected c c' = true -> In (id c) vis ->
     exists g, In g groups /\ In c g /\ In c' g).

Lemma two_members {A : Type} (a b : A) (l : list A) :
  In a l -> In b l -> a <> b -> (2 <= length l)%nat.
Proof.
  destruct l as [|x [|y l]]; cbn [In length]; intros Ha Hb Hne.
  - contradiction.
  - destruct Ha as [<- | []]. destruct Hb as [<- | []]. congruence.
  - lia.
Qed.

Lemma groups_step_sound (cs : list Ref) (crossing : Ref) (vis : list nat)
    (groups : list (list Ref)) (new : list Ref) :
  in_visited crossing vis = false ->
  dfs_post cs crossing vis [] new ->
  groups_sound cs vis groups ->
  groups_sound cs (rev (map id new) ++ vis)
    (if (2 <=? length new)%nat then groups ++ [new] else groups).
Proof.
  intros Ev (P1 & P2 & P3 & P4) (S1 & S2 & S3). rewrite Ev in P3.
  destruct P3 as (rest & Enew & Hl).
  destruct (2 <=? length new)%nat eqn:E2.
  - apply Nat.leb_le in E2. split; [|split].
    + intros g Hg. apply in_app_or in Hg. destruct Hg as [Hg | [<- | []]].
      * exact (S1 g Hg).
      * split; [exact E2|]. split; [intros c Hc; apply (P1 c Hc)|].
        exists crossing, rest. auto.
    + rewrite concat_app. cbn [concat]. rewrite app_nil_r, map_app.
      apply NoDup_app; [exact S2 | exact P2|].
      intros a Ha Hb. apply in_map_iff in Ha. destruct Ha as (c & <- & Hc).
      apply in_map_iff in Hb. destruct Hb as (c2 & Eid & Hc2).
      destruct (P1 c2 Hc2) as [_ Hn]. apply Hn. rewrite Eid. exact (S3 c Hc).
    + intros c Hc. rewrite concat_app in Hc. cbn [concat] in Hc.
      rewrite app_nil_r in Hc. apply In_rev_ids.
      apply in_app_or in Hc. destruct Hc as [Hc | Hc].
      * right. exact (S3 c Hc).
      * left. apply in_map. exact Hc.
  - split; [exact S1|]. split; [exact S2|].
    intros c Hc. apply In_rev_ids. right. exact (S3 c Hc).
Qed.

Lemma groups_step_closed (cs : list Ref) (crossing : Ref) (vis : list nat)
    (groups : list (list Ref)) (new : list Ref) :
  same_object cs ->
  dfs_post cs crossing vis [] new ->
  groups_closed cs vis groups ->
  groups_closed cs (rev (map id new) ++ vis)
    (if (2 <=? length new)%nat then groups ++ [new] else groups).
Proof.
  intros Hobj (P1 & P2 & P3 & P4) (C1 & C2).
  assert (Hnew : forall v, In v cs -> In (id v) (map id new) -> In v new).
  { intros v Hv Hid. apply in_map_iff in Hid. destruct Hid as (v' & Eid & Hv').
    destruct (P1 v' Hv') as [Hcs _].
    rewrite <- (Hobj v' v Hcs Hv Eid). exact Hv'. }
  split.
  - intros v o Hv Ho Hid Hc. apply In_rev_ids in Hid. destruct Hid as [Hid | Hid].
    + exact (P4 v o (Hnew v Hv Hid) Ho Hc).
    + apply In_rev_ids. right. exact (C1 v o Hv Ho Hid Hc).
  - intros c c' Hc Hc' Hne Hconn Hid.
    apply In_rev_ids in Hid. destruct Hid as [Hid | Hid].
    + assert (Hcn : In c new) by exact (Hnew c Hc Hid).
      assert (Hcn' : In c' new).
      { pose proof (P4 c c' Hcn Hc' Hconn) as Hv. apply In_rev_ids in Hv.
        destruct Hv as [Hv | Hv]; [exact (Hnew c' Hc' Hv)|].
        exfalso. destruct (P1 c Hcn) as [_ Hn]. apply Hn.
        apply (C1 c' c Hc' Hc Hv). rewrite _are_connected_sym. exact Hconn. }
      assert (H2 : (2 <= length new)%nat).
      { apply (two_members c c' new Hcn Hcn'). intros E. apply Hne. rewrite E.
        reflexivity. }
      apply Nat.leb_le in H2. rewrite H2.
      exists new. split; [apply in_or_app; right; left; reflexivity|]. auto.
    + destruct (C2 c c' Hc Hc' Hne Hconn Hid) as (g & Hg & H1 & H2).
      exists g. split; [|auto].
      destruct (2 <=? length new)%nat; [apply in_or_app; left; exact Hg | exact Hg].
Qed.

Lemma groups_loop (depth : nat) (cs : list Ref) :
  (length cs < depth)%nat ->
  forall (todo : list Ref) (vis : list nat) (groups : list (list Ref)),
  incl todo cs ->
  exists vis' groups',
    FortressLocator.for_each todo (vis, groups) (groups_body depth cs)
    = Ok (vis', groups') /\
    (forall o, In o todo -> In (id o) vis') /\
    (forall x, In x vis -> In x vis') /\
    (groups_sound cs vis groups -> groups_sound cs vis' groups') /\
    (same_object cs -> groups_closed cs vis groups -> groups_closed cs vis' groups').
Proof.
  intros Hdepth. induction todo as [|crossing todo IH]; intros vis groups Hincl.
  - exists vis, groups. cbn. split; [reflexivity|]. split; [intros o []|]. auto.
  - assert (Hin : In crossing cs) by (apply Hincl; left; reflexivity).
    assert (Htodo : incl todo cs) by (intros x Hx; apply Hincl; right; exact Hx).
    cbn [FortressLocator.for_each]. rewrite groups_body_eq.
    destruct (in_visited crossing vis) eqn:Ev.
    + cbn [rbind]. destruct (IH vis groups Htodo) as (vis' & groups' & E & H1 & H2 & H3 & H4).
      exists vis', groups'. split; [exact E|]. split; [|auto].
      intros o [<- | Ho]; [|exact (H1 o Ho)].
      apply H2. apply in_visited_In. exact Ev.
    + assert (Hfuel : (length (unvisited cs vis) < depth)%nat).
      { pose proof (unvisited_length cs vis). lia. }
      destruct (dfs_spec cs depth crossing vis [] Hin Hfuel) as (new & E1 & Hpost).
      rewrite E1. cbn [rbind app].
      set (vis1 := rev (map id new) ++ vis).
      set (groups1 := if (2 <=? length new)%nat then groups ++ [new] else groups).
      assert (Estep : (if (2 <=? length new)%nat
                       then Ok (vis1, groups ++ [new]) else Ok (vis1, groups))
                      = Ok (vis1, groups1)).
      { unfold groups1. destruct (2 <=? length new)%nat; reflexivity. }
      rewrite Estep. cbn [rbind].
      destruct (IH vis1 groups1 Htodo) as (vis' & groups' & E & H1 & H2 & H3 & H4).
      exists vis', groups'. split; [exact E|].
      assert (Hsub : forall x, In x vis -> In x vis1)
        by (intros x Hx; apply In_rev_ids; right; exact Hx).
      split; [|split; [|split]].
      * intros o [<- | Ho]; [|exact (H1 o Ho)].
        apply H2. apply In_rev_ids. left.
        destruct Hpost as (_ & _ & P3 & _). rewrite Ev in P3.
        destruct P3 as (rest & -> & _). left. reflexivity.
      * intros x Hx. apply H2, Hsub, Hx.
      * intros Hs. apply H3.
        exact (groups_step_sound cs crossing vis groups new Ev Hpost Hs).
      * intros Hobj Hc. apply (H4 Hobj).
        exact (groups_step_closed cs crossing vis groups new Hobj Hpost Hc).
Qed.

(** X24.  With a recursion budget above the number of crossings,
    [find_connected_crossings] returns (it does not exhaust the budget), and
    its groups are sound: every group has at least two members, all from the
    input, every member but the first is connected to a member before it, and
    no object occurs twice, in one group or in two. *)
Theorem find_connected_crossings_sound (depth : nat) (cs : list Ref) :
  (length cs < depth)%nat ->
  exists groups,
    find_connected_crossings depth cs = Ok groups /\
    (forall g, In g groups -> connected_group cs g) /\
    NoDup (map id (concat groups)).
Proof.
  intros Hdepth. rewrite find_connected_crossings_unfold.
  destruct (groups_loop depth cs Hdepth cs [] [] (incl_refl cs))
    as (vis' & groups' & E & _ & _ & Hs & _).
  rewrite E. cbn [rbind]. exists groups'. split; [reflexivity|].
  destruct Hs as (S1 & S2 & _); [|auto].
  split; [intros g []|]. split; [constructor | intros c []].
Qed.

Lemma find_connected_crossings_sound_witness :
  exists groups,
    find_connected_crossings 5 quad_example = Ok groups /\
    (forall g, In g groups -> connected_group quad_example g) /\
    NoDup (map id (concat groups)).
Proof.
  apply (find_connected_crossings_sound 5 quad_example). cbn. lia.
Defined.

(** X25.  The groups are closed under connection: when the entries of the
    input are told apart by their identity and the recursion budget is above
    their number, two different entries that [_are_connected] relates lie in
    one common group.  ([_are_connected] is symmetric, so the order of the
    two does not matter.) *)
Theorem find_connected_crossings_closed (depth : nat) (cs : list Ref)
    (groups : list (list Ref)) (c c' : Ref) :
  same_object cs -> (length cs < depth)%nat ->
  find_connected_crossings depth cs = Ok groups ->
  In c cs -> In c' cs -> id c <> id c' ->
  _are_connected c c' = true ->
  _are_connected c' c = true /\
  exists g, In g groups /\ In c g /\ In c' g.
Proof.
  intros Hobj Hdepth Hrun Hc Hc' Hne Hconn.
  split; [rewrite _are_connected_sym; exact Hconn|].
  rewrite find_connected_crossings_unfold in Hrun.
  destruct (groups_loop depth cs Hdepth cs [] [] (incl_refl cs))
    as (vis' & groups' & E & Hall & _ & _ & Hcl).
  rewrite E in Hrun. cbn [rbind] in Hrun. injection Hrun as <-.
  destruct (Hcl Hobj) as [_ C2].
  - split; [intros v o _ _ []|]. intros a b _ _ _ _ [].
  - exact (C2 c c' Hc Hc' Hne Hconn (Hall c Hc)).
Qed.

Lemma find_connected_crossings_closed_witness :
  exists groups,
    find_connected_crossings 5 quad_example = Ok groups /\
    exists g,
      In g groups /\
      In (mkRef 0 (mkPiece BRIDGE_CROSSING (mkBox 0 64 0 18 73 18) NORTH 1)) g /\
      In (mkRef 1 (mkPiece BRIDGE_CROSSING (mkBox 19 64 0 37 73 18) NORTH 2)) g.
Proof.
  eexists. split; [vm_compute; reflexivity|].
  refine (proj2 (find_connected_crossings_closed 5 quad_example _
                   (mkRef 0 (mkPiece BRIDGE_CROSSING (mkBox 0 64 0 18 73 18) NORTH 1))
                   (mkRef 1 (mkPiece BRIDGE_CROSSING (mkBox 19 64 0 37 73 18) NORTH 2))
                   _ _ _ _ _ _ _)).
  - intros a b Ha Hb E. cbn [quad_example In] in Ha, Hb.
    repeat match goal with H : _ \/ _ |- _ => destruct H as [H | H] end;
      try contradiction; subst; try reflexivity; discriminate.
  - cbn. lia.
  - vm_compute. reflexivity.
  - left. reflexivity.
  - right. left. reflexivity.
  - cbn. discriminate.
  - vm_compute. reflexivity.
Defined.

Lemma NoDup_app_disjoint {A : Type} (l1 l2 : list A) (a : A) :
  NoDup (l1 ++ l2) -> In a l1 -> In a l2 -> False.
Proof.
  intros Hnd H1 H2. apply in_split in H2. destruct H2 as (l2a & l2b & ->).
  rewrite app_assoc in Hnd. apply NoDup_remove_2 in Hnd. apply Hnd.
  apply in_or_app. left. apply in_or_app. left. exact H1.
Qed.

Lemma group_unique (groups : list (list Ref)) (g1 g2 : list Ref) (c : Ref) :
  NoDup (map id (concat groups)) ->
  In g1 groups -> In g2 groups -> In c g1 -> In c g2 -> g1 = g2.
Proof.
  induction groups as [|g gs IH]; [intros _ []|].
  cbn [concat]. rewrite map_app. intros Hnd H1 H2 Hc1 Hc2.
  assert (Hcross : forall g', In g' gs -> In c g -> In c g' -> False).
  { intros g' Hg' Ha Hb. apply (NoDup_app_disjoint _ _ (id c) Hnd).
    - apply in_map. exact Ha.
    - apply in_map. apply in_concat. exists g'. auto. }
  destruct H1 as [<- | H1], H2 as [<- | H2].
  - reflexivity.
  - exfalso. exact (Hcross g2 H2 Hc1 Hc2).
  - exfalso. exact (Hcross g1 H1 Hc2 Hc1).
  - apply IH; try assumption. apply NoDup_app_remove_l in Hnd. exact Hnd.
Qed.

Lemma arranged_connected (tl tr bl br : Ref) :
  footprint19 tl -> footprint19 tr -> footprint19 bl -> footprint19 br ->
  arranged tl tr bl br ->
  _are_connected tl tr = true /\ _are_connected tl bl = true /\
  _are_connected tr br = true.
Proof.
  intros [Kx Kz] [Rx Rz] [Dx Dz] [Gx Gz].
  intros ((A1 & A2 & A3) & (B1 & B2 & B3) & (C1 & C2 & C3 & C4) & _).
  unfold _are_connected, _is_adjacent_x, _is_adjacent_z.
  split; [|split]; apply orb_true_iff.
  - left.
    replace (min_z (box tl) <=? max_z (box tr)) with true by (symmetry; apply Z.leb_le; lia).
    replace (max_z (box tl) >=? min_z (box tr)) with true
      by (symmetry; rewrite Z.geb_leb; apply Z.leb_le; lia).
    cbn [andb negb]. apply Z.leb_le. lia.
  - right.
    replace (min_x (box tl) <=? max_x (box bl)) with true by (symmetry; apply Z.leb_le; lia).
    replace (max_x (box tl) >=? min_x (box bl)) with true
      by (symmetry; rewrite Z.geb_leb; apply Z.leb_le; lia).
    cbn [andb negb]. apply Z.leb_le. lia.
  - right.
    replace (min_x (box tr) <=? max_x (box br)) with true by (symmetry; apply Z.leb_le; lia).
    replace (max_x (box tr) >=? min_x (box br)) with true
      by (symmetry; rewrite Z.geb_leb; apply Z.leb_le; lia).
    cbn [andb negb]. apply Z.leb_le. lia.
Qed.

(** X26.  The two analyses of [analyze_fortress_crossings] agree: when the
    crossings have 19 x 19 footprints and are told apart by their identity,
    and the recursion budget is above their number, the four members of
    every cluster reported under ['quad_crossings'] lie together in one of
    the groups reported under ['connected_groups']. *)
Theorem analyze_fortress_crossings_quad_in_group (depth : nat) (cs : list Ref)
    (a : Analysis) (quad : QuadCrossing) :
  same_object cs -> Forall footprint19 cs -> (length cs < depth)%nat ->
  analyze_fortress_crossings depth cs = Ok a ->
  In quad (quad_crossings a) ->
  has_quad a = true /\
  total_crossings a = length cs /\
  exists g, In g (connected_groups a) /\
    forall c, In c (crossings quad) -> In c g.
Proof.
  intros Hobj Hfp Hdepth Hrun Hquad.
  unfold analyze_fortress_crossings in Hrun.
  rewrite find_connected_crossings_unfold in Hrun.
  destruct (groups_loop depth cs Hdepth cs [] [] (incl_refl cs))
    as (vis' & groups' & E & Hall & _ & Hs & Hcl).
  rewrite E in Hrun. cbn [rbind] in Hrun. injection Hrun as <-.
  cbn [has_quad total_crossings connected_groups quad_crossings] in *.
  split; [|split; [reflexivity|]].
  { destruct (find_quad_crossings cs); [contradiction | reflexivity]. }
  destruct Hs as (_ & Hnd & _).
  { split; [intros g []|]. split; [constructor | intros c []]. }
  destruct (Hcl Hobj) as [_ C2].
  { split; [intros v o _ _ []|]. intros x y _ _ _ _ []. }
  destruct (find_quad_crossings_from_corner cs quad Hquad) as (tl & Htl & Hq).
  destruct (_find_quad_from_corner_arranged cs tl quad Hfp Htl Hq)
    as (tr & bl & br & Ecs & Htr & Hbl & Hbr & Harr & _).
  assert (Ftl : footprint19 tl) by (eapply Forall_forall in Hfp; eassumption).
  assert (Ftr : footprint19 tr) by (eapply Forall_forall in Hfp; eassumption).
  assert (Fbl : footprint19 bl) by (eapply Forall_forall in Hfp; eassumption).
  assert (Fbr : footprint19 br) by (eapply Forall_forall in Hfp; eassumption).
  destruct (arranged_connected tl tr bl br Ftl Ftr Fbl Fbr Harr) as (K1 & K2 & K3).
  destruct Harr as ((A1 & A2 & A3) & (B1 & B2 & B3) & (C1 & C2' & C3 & C4) & _).
  destruct Ftl as [Kx Kz], Ftr as [Rx Rz], Fbl as [Dx Dz], Fbr as [Gx Gz].
  assert (N1 : id tl <> id tr).
  { intros Eid. pose proof (Hobj tl tr Htl Htr Eid) as Eq. rewrite <- Eq in A1. lia. }
  assert (N2 : id tl <> id bl).
  { intros Eid. pose proof (Hobj tl bl Htl Hbl Eid) as Eq. rewrite <- Eq in B1. lia. }
  assert (N3 : id tr <> id br).
  { intros Eid. pose proof (Hobj tr br Htr Hbr Eid) as Eq. rewrite <- Eq in C3. lia. }
  destruct (C2 tl tr Htl Htr N1 K1 (Hall tl Htl)) as (g1 & Hg1 & G1a & G1b).
  destruct (C2 tl bl Htl Hbl N2 K2 (Hall tl Htl)) as (g2 & Hg2 & G2a & G2b).
  destruct (C2 tr br Htr Hbr N3 K3 (Hall tr Htr)) as (g3 & Hg3 & G3a & G3b).
  pose proof (group_unique groups' g1 g2 tl Hnd Hg1 Hg2 G1a G2a) as E12.
  pose proof (group_unique groups' g1 g3 tr Hnd Hg1 Hg3 G1b G3a) as E13.
  subst g2 g3. exists g1. split; [exact Hg1|].
  rewrite Ecs. intros c [<- | [<- | [<- | [<- | []]]]]; assumption.
Qed.

Lemma analyze_fortress_crossings_quad_in_group_witness :
  exists a quad,
    analyze_fortress_crossings 5 quad_example = Ok a /\
    quad_crossings a = [quad] /\
    exists g, In g (connected_groups a) /\
      forall c, In c (crossings quad) -> In c g.
Proof.
  eexists _, _. split; [vm_compute; reflexivity|]. split; [reflexivity|].
  refine (proj2 (proj2 (analyze_fortress_crossings_quad_in_group 5 quad_example
                          _ _ _ _ _ _ _))).
  - intros a b Ha Hb E. cbn [quad_example In] in Ha, Hb.
    repeat match goal with H : _ \/ _ |- _ => destruct H as [H | H] end;
      try contradiction; subst; try reflexivity; discriminate.
  - repeat constructor.
  - cbn. lia.
  - vm_compute. reflexivity.
  - left. reflexivity.
Defined.

End CrossingDetectorExtra.

(* ===================================================================== *)
(** * The pipeline of main.py *)
(* ===================================================================== *)

Module MainExtra.
Import FortressLocator FortressGenerator CrossingDetector Main.
Import FortressGeneratorProps CrossingDetectorProps.
Import FortressGeneratorExtra CrossingDetectorExtra.

(** ** The crossings handed to the detector *)

Definition is_crossing (p : StructurePiece) : bool :=
  match piece_type p with
  | BRIDGE_CROSSING | START_PIECE => true
  | _ => false
  end.

Lemma objects_from_nth (ps : list StructurePiece) :
  forall (n : nat) (c : Ref),
  In c (objects_from n ps) ->
  (n <= id c)%nat /\ nth_error ps (id c - n) = Some (obj c).
Proof.
  induction ps as [|p ps IH]; intros n c; cbn [objects_from]; [intros []|].
  intros [<- | Hin].
  - cbn [id obj]. rewrite Nat.sub_diag. split; [lia | reflexivity].
  - destruct (IH (S n) c Hin) as [Hle Hnth]. split; [lia|].
    replace (id c - n)%nat with (S (id c - S n)) by lia. exact Hnth.
Qed.

Lemma objects_from_ids (ps : list StructurePiece) :
  forall n : nat, map id (objects_from n ps) = seq n (length ps).
Proof.
  induction ps as [|p ps IH]; intros n; cbn [objects_from map length seq]; [reflexivity|].
  cbn [id]. rewrite IH. reflexivity.
Qed.

Lemma objects_from_obj (ps : list StructurePiece) :
  forall n : nat, map obj (objects_from n ps) = ps.
Proof.
  induction ps as [|p ps IH]; intros n; cbn [objects_from map]; [reflexivity|].
  cbn [obj]. rewrite IH. reflexivity.
Qed.

Lemma map_filter_comm {A B : Type} (f : A -> B) (g : B -> bool) (l : list A) :
  map f (filter (fun x => g (f x)) l) = filter g (map f l).
Proof.
  induction l as [|a l IH]; [reflexivity|]. cbn [filter map].
  destruct (g (f a)); cbn [map]; rewrite IH; reflexivity.
Qed.

Lemma NoDup_map_filter {A B : Type} (f : A -> B) (g : A -> bool) (l : list A) :
  NoDup (map f l) -> NoDup (map f (filter g l)).
Proof.
  induction l as [|a l IH]; cbn [map filter]; [auto|].
  intros Hnd. inversion Hnd as [|x xs Hn Hnd']; subst.
  destruct (g a); [|auto]. cbn [map]. constructor; [|auto].
  intros Hin. apply Hn. apply in_map_iff in Hin. destruct Hin as (y & E & Hy).
  apply filter_In in Hy. apply in_map_iff. exists y. tauto.
Qed.

Lemma crossing_objects_obj (ps : list StructurePiece) :
  map obj (crossing_objects ps) = get_bridge_crossings ps.
Proof.
  unfold crossing_objects, get_bridge_crossings.
  rewrite (map_filter_comm obj
             (fun p => match piece_type p with
                       | BRIDGE_CROSSING | START_PIECE => true
                       | _ => false
                       end)).
  rewrite objects_from_obj. reflexivity.
Qed.

Lemma crossing_objects_In (ps : list StructurePiece) (c : Ref) :
  In c (crossing_objects ps) ->
  nth_error ps (id c) = Some (obj c) /\ is_crossing (obj c) = true.
Proof.
  unfold crossing_objects. intros Hin. apply filter_In in Hin.
  destruct Hin as [Hin Hc]. destruct (objects_from_nth ps 0 c Hin) as [_ Hnth].
  rewrite Nat.sub_0_r in Hnth. auto.
Qed.

Lemma crossing_objects_NoDup (ps : list StructurePiece) :
  NoDup (map id (crossing_objects ps)).
Proof.
  unfold crossing_objects. apply NoDup_map_filter.
  rewrite objects_from_ids. apply seq_NoDup.
Qed.

Lemma crossing_objects_same_object (ps : list StructurePiece) :
  same_object (crossing_objects ps).
Proof.
  intros a b Ha Hb E.
  destruct (crossing_objects_In ps a Ha) as [Na _].
  destruct (crossing_objects_In ps b Hb) as [Nb _].
  rewrite E in Na. rewrite Na in Nb. injection Nb as Eo.
  destruct a, b. cbn in *. congruence.
Qed.

(** What the detector can rely on about its input. *)
Record crossings_ok (cs : list Ref) : Prop := mkCrossingsOk {
  ok_nodup : NoDup (map id cs);
  ok_object : same_object cs;
  ok_length : (length cs <= 5)%nat;
  ok_box : forall c, In c cs -> extents (box c) = (19, 10, 19);
  ok_disjoint : forall a b, In a cs -> In b cs -> id a <> id b ->
      intersects (box a) (box b) = false
}.

Lemma crossing_extents (fuel : nat) (world_seed cx cz : Z)
    (ps : list StructurePiece) (p : StructurePiece) :
  generate fuel world_seed cx cz = Ok ps -> In p ps -> is_crossing p = true ->
  extents (bounding_box p) = (19, 10, 19).
Proof.
  intros Hrun Hin Hc. destruct (generate_unfold _ _ _ _ _ Hrun) as [g' E].
  destruct (boxes_inv_run _ _ _ _ _ _ _ E) as (d & rest & -> & Hrest).
  destruct Hin as [<- | Hin].
  - rewrite start_piece_box. unfold extents. cbn [min_x min_y min_z max_x max_y max_z].
    apply triple_eq; lia.
  - rewrite Forall_forall in Hrest. destruct (Hrest p Hin) as (_ & Hs & _).
    unfold sized in Hs. unfold is_crossing in Hc.
    destruct (piece_type p); try discriminate; cbn in Hs;
      destruct (direction p); exact Hs.
Qed.

Lemma generate_crossings_ok (fuel : nat) (world_seed cx cz : Z)
    (ps : list StructurePiece) :
  generate fuel world_seed cx cz = Ok ps ->
  crossings_ok (crossing_objects ps).
Proof.
  intros Hrun. constructor.
  - apply crossing_objects_NoDup.
  - apply crossing_objects_same_object.
  - rewrite <- (length_map obj), crossing_objects_obj.
    destruct (generate_unfold _ _ _ _ _ Hrun) as [g' E].
    destruct (weights_inv_run _ _ _ _ _ _ _ E) as [(_ & Hcap & Hstart) ->].
    pose proof (get_bridge_crossings_count (pieces g')) as Hc.
    assert (H4 : count_type BRIDGE_CROSSING (pieces g') <= 4).
    { apply (Hcap false (mkWeight BRIDGE_CROSSING 10 4 false 0)).
      - right. left. reflexivity.
      - reflexivity. }
    lia.
  - intros c Hc. destruct (crossing_objects_In ps c Hc) as [Hn Ht].
    apply (crossing_extents fuel world_seed cx cz ps); [exact Hrun | | exact Ht].
    eapply nth_error_In. exact Hn.
  - intros a b Ha Hb Hne.
    destruct (crossing_objects_In ps a Ha) as [Na _].
    destruct (crossing_objects_In ps b Hb) as [Nb _].
    destruct (generate_unfold _ _ _ _ _ Hrun) as [g' E].
    destruct (generate_from_inv _ _ _ _ _ _ _ E) as (HI & _ & ->).
    exact (inv_disjoint _ HI (id a) (id b) (obj a) (obj b) Hne Na Nb).
Qed.

Lemma ok_footprint (c : Ref) :
  extents (box c) = (19, 10, 19) ->
  footprint19 c /\ max_y (box c) - min_y (box c) = 9.
Proof.
  unfold extents, footprint19. intros E. injection E as E1 E2 E3. lia.
Qed.

Lemma crossings_ok_footprint (cs : list Ref) :
  crossings_ok cs -> Forall footprint19 cs.
Proof.
  intros Hok. apply Forall_forall. intros c Hc.
  apply (ok_footprint c (ok_box cs Hok c Hc)).
Qed.

(** ** At most one cluster in a fortress *)

Section TwoQuads.
Variable cs : list Ref.
Hypothesis Hok : crossings_ok cs.

Lemma ok_max (c : Ref) :
  In c cs ->
  max_x (box c) = min_x (box c) + 18 /\ max_y (box c) = min_y (box c) + 9 /\
  max_z (box c) = min_z (box c) + 18.
Proof.
  intros Hc. pose proof (ok_box cs Hok c Hc) as E. unfold extents in E.
  injection E as E1 E2 E3. lia.
Qed.

Lemma same_cell_same_id (a b : Ref) :
  In a cs -> In b cs ->
  min_x (box a) = min_x (box b) -> min_y (box a) = min_y (box b) ->
  min_z (box a) = min_z (box b) ->
  id a = id b.
Proof.
  intros Ha Hb Ex Ey Ez. destruct (Nat.eq_dec (id a) (id b)) as [E | Hne]; [exact E|].
  exfalso. pose proof (ok_disjoint cs Hok a b Ha Hb Hne) as Hd.
  destruct (ok_max a Ha) as (A1 & A2 & A3). destruct (ok_max b Hb) as (B1 & B2 & B3).
  unfold intersects in Hd. rewrite ?Z.geb_leb in Hd.
  repeat rewrite (proj2 (Z.leb_le _ _)) in Hd by lia.
  discriminate.
Qed.

Lemma arranged_cells (tl tr bl br : Ref) :
  In tl cs -> In tr cs -> In bl cs -> In br cs ->
  arranged tl tr bl br ->
  (min_x (box tr) = min_x (box tl) + 19 /\ min_z (box tr) = min_z (box tl)) /\
  (min_x (box bl) = min_x (box tl) /\ min_z (box bl) = min_z (box tl) + 19) /\
  (min_x (box br) = min_x (box tl) + 19 /\ min_z (box br) = min_z (box tl) + 19) /\
  min_y (box tr) = min_y (box tl) /\ min_y (box bl) = min_y (box tl) /\
  min_y (box br) = min_y (box tl).
Proof.
  intros Htl Htr Hbl Hbr
    ((A1 & A2 & A3) & (B1 & B2 & B3) & (C1 & C2 & C3 & C4) & (Y1 & Y2 & Y3 & Y4 & Y5 & Y6)).
  destruct (ok_max tl Htl) as (T1 & T2 & T3).
  lia.
Qed.

Lemma six_identities (a a' b1 b2 b3 b4 : Ref) :
  In a cs -> In a' cs -> In b1 cs -> In b2 cs -> In b3 cs -> In b4 cs ->
  NoDup (map id [b1; b2; b3; b4]) ->
  id a <> id a' ->
  ~ In (id a) (map id [b1; b2; b3; b4]) ->
  ~ In (id a') (map id [b1; b2; b3; b4]) ->
  False.
Proof.
  intros Ha Ha' H1 H2 H3 H4 Hnd Hne Ho Ho'.
  assert (Hnd6 : NoDup (id a :: id a' :: map id [b1; b2; b3; b4])).
  { constructor; [|constructor; assumption].
    intros [E | Hin]; [apply Hne; symmetry; exact E | exact (Ho Hin)]. }
  assert (Hincl : incl (id a :: id a' :: map id [b1; b2; b3; b4]) (map id cs)).
  { intros x Hx. cbn [map In] in Hx.
    destruct Hx as [<- | [<- | [<- | [<- | [<- | [<- | []]]]]]]; apply in_map; assumption. }
  pose proof (NoDup_incl_length Hnd6 Hincl) as Hlen.
  rewrite length_map in Hlen. cbn [length map] in Hlen.
  pose proof (ok_length cs Hok). lia.
Qed.

Lemma arranged_ids (tl tr bl br : Ref) :
  In tl cs -> In tr cs -> In bl cs -> In br cs ->
  arranged tl tr bl br ->
  NoDup (map id [tl; tr; bl; br]).
Proof.
  intros Htl Htr Hbl Hbr Harr.
  destruct (arranged_cells tl tr bl br Htl Htr Hbl Hbr Harr)
    as ((X1 & Z1) & (X2 & Z2) & (X3 & Z3) & _).
  cbn [map].
  assert (N12 : id tl <> id tr).
  { intros E. pose proof (ok_object cs Hok tl tr Htl Htr E) as Eq. rewrite <- Eq in X1. lia. }
  assert (N13 : id tl <> id bl).
  { intros E. pose proof (ok_object cs Hok tl bl Htl Hbl E) as Eq. rewrite <- Eq in Z2. lia. }
  assert (N14 : id tl <> id br).
  { intros E. pose proof (ok_object cs Hok tl br Htl Hbr E) as Eq. rewrite <- Eq in X3. lia. }
  assert (N23 : id tr <> id bl).
  { intros E. pose proof (ok_object cs Hok tr bl Htr Hbl E) as Eq. rewrite <- Eq in X2. lia. }
  assert (N24 : id tr <> id br).
  { intros E. pose proof (ok_object cs Hok tr br Htr Hbr E) as Eq. rewrite <- Eq in Z3. lia. }
  assert (N34 : id bl <> id br).
  { intros E. pose proof (ok_object cs Hok bl br Hbl Hbr E) as Eq. rewrite <- Eq in X3. lia. }
  repeat constructor; cbn [In]; intuition congruence.
Qed.

End TwoQuads.

Lemma NoDup4 {A : Type} (x1 x2 x3 x4 : A) :
  NoDup [x1; x2; x3; x4] ->
  x1 <> x2 /\ x1 <> x3 /\ x1 <> x4 /\ x2 <> x3 /\ x2 <> x4 /\ x3 <> x4.
Proof.
  intros H. inversion H as [|? ? H1 H']; subst. inversion H' as [|? ? H2 H'']; subst.
  inversion H'' as [|? ? H3 _]; subst. cbn [In] in *.
  repeat split; intros E; subst; tauto.
Qed.

(** Two 2 x 2 arrangements among at most five pairwise disjoint crossings
    have the same members. *)
Lemma two_quads_same (cs : list Ref) (a1 a2 a3 a4 b1 b2 b3 b4 : Ref) :
  crossings_ok cs ->
  In a1 cs -> In a2 cs -> In a3 cs -> In a4 cs ->
  In b1 cs -> In b2 cs -> In b3 cs -> In b4 cs ->
  arranged a1 a2 a3 a4 -> arranged b1 b2 b3 b4 ->
  map id [a1; a2; a3; a4] = map id [b1; b2; b3; b4].
Proof.
  intros Hok Ha1 Ha2 Ha3 Ha4 Hb1 Hb2 Hb3 Hb4 HA HB.
  pose proof (arranged_ids cs Hok a1 a2 a3 a4 Ha1 Ha2 Ha3 Ha4 HA) as NA.
  pose proof (arranged_ids cs Hok b1 b2 b3 b4 Hb1 Hb2 Hb3 Hb4 HB) as NB.
  destruct (arranged_cells cs Hok a1 a2 a3 a4 Ha1 Ha2 Ha3 Ha4 HA)
    as ((AX2 & AZ2) & (AX3 & AZ3) & (AX4 & AZ4) & AY2 & AY3 & AY4).
  destruct (arranged_cells cs Hok b1 b2 b3 b4 Hb1 Hb2 Hb3 Hb4 HB)
    as ((BX2 & BZ2) & (BX3 & BZ3) & (BX4 & BZ4) & BY2 & BY3 & BY4).
  cbn [map] in NA. destruct (NoDup4 _ _ _ _ NA) as (N12 & N13 & N14 & N23 & N24 & N34).
  set (idsB := map id [b1; b2; b3; b4]) in *.
  assert (J : forall a, In a cs -> In (id a) idsB ->
            min_y (box a) = min_y (box b1) /\
            (min_x (box a) = min_x (box b1) \/ min_x (box a) = min_x (box b1) + 19) /\
            (min_z (box a) = min_z (box b1) \/ min_z (box a) = min_z (box b1) + 19)).
  { intros a Ha Hin. unfold idsB in Hin. cbn [map In] in Hin.
    destruct Hin as [E | [E | [E | [E | []]]]].
    - rewrite <- (ok_object cs Hok b1 a Hb1 Ha E). lia.
    - rewrite <- (ok_object cs Hok b2 a Hb2 Ha E). lia.
    - rewrite <- (ok_object cs Hok b3 a Hb3 Ha E). lia.
    - rewrite <- (ok_object cs Hok b4 a Hb4 Ha E). lia. }
  assert (Hsix : forall a a', In a cs -> In a' cs -> id a <> id a' ->
            ~ In (id a) idsB -> ~ In (id a') idsB -> False).
  { intros a a' Ha Ha'. exact (six_identities cs Hok a a' b1 b2 b3 b4 Ha Ha'
                                 Hb1 Hb2 Hb3 Hb4 NB). }
  assert (Hcell : min_x (box a1) = min_x (box b1) /\ min_y (box a1) = min_y (box b1) /\
                  min_z (box a1) = min_z (box b1)).
  { destruct (in_dec Nat.eq_dec (id a1) idsB) as [I1 | O1];
    destruct (in_dec Nat.eq_dec (id a2) idsB) as [I2 | O2];
    destruct (in_dec Nat.eq_dec (id a3) idsB) as [I3 | O3];
    destruct (in_dec Nat.eq_dec (id a4) idsB) as [I4 | O4];
    try (exfalso; exact (Hsix a1 a2 Ha1 Ha2 N12 O1 O2));
    try (exfalso; exact (Hsix a1 a3 Ha1 Ha3 N13 O1 O3));
    try (exfalso; exact (Hsix a1 a4 Ha1 Ha4 N14 O1 O4));
    try (exfalso; exact (Hsix a2 a3 Ha2 Ha3 N23 O2 O3));
    try (exfalso; exact (Hsix a2 a4 Ha2 Ha4 N24 O2 O4));
    try (exfalso; exact (Hsix a3 a4 Ha3 Ha4 N34 O3 O4));
    try (apply (J a1 Ha1) in I1; destruct I1 as (Y1 & DX1 & DZ1));
    try (apply (J a2 Ha2) in I2; destruct I2 as (Y2 & DX2 & DZ2));
    try (apply (J a3 Ha3) in I3; destruct I3 as (Y3 & DX3 & DZ3));
    try (apply (J a4 Ha4) in I4; destruct I4 as (Y4 & DX4 & DZ4));
    clear J Hsix NA NB HA HB;
    (split;
     [ repeat match goal with H : min_z _ = _ \/ _ |- _ => clear H end; lia
     | split;
       [ repeat match goal with H : _ \/ _ |- _ => clear H end; lia
       | repeat match goal with H : min_x _ = _ \/ _ |- _ => clear H end; lia ] ]). }
  destruct Hcell as (Ex & Ey & Ez).
  cbn [map].
  rewrite (same_cell_same_id cs Hok a1 b1 Ha1 Hb1) by lia.
  rewrite (same_cell_same_id cs Hok a2 b2 Ha2 Hb2) by lia.
  rewrite (same_cell_same_id cs Hok a3 b3 Ha3 Hb3) by lia.
  rewrite (same_cell_same_id cs Hok a4 b4 Ha4 Hb4) by lia.
  reflexivity.
Qed.

Lemma find_quad_crossings_distinct (cs : list Ref) :
  distinct_id_sets (find_quad_crossings cs).
Proof.
  assert (Hnil : distinct_id_sets []).
  { intros i j a b _ Ha. destruct i; discriminate. }
  rewrite find_quad_crossings_fold. destruct (length cs <? 4)%nat; [exact Hnil|].
  set (entries := map (fun c => (get_center (obj c), c)) cs).
  generalize entries at 2. intros todo. generalize (@nil QuadCrossing) Hnil.
  induction todo as [|e todo IH]; intros acc Hacc; cbn [fold_left]; [exact Hacc|].
  apply IH. apply (quad_step_distinct entries acc e Hacc).
Qed.

Lemma id_set_eqb_refl (l : list nat) : id_set_eqb l l = true.
Proof.
  assert (H : forallb (fun i => existsb (Nat.eqb i) l) l = true).
  { apply forallb_forall. intros x Hx. apply existsb_exists.
    exists x. split; [exact Hx | apply Nat.eqb_refl]. }
  unfold id_set_eqb. rewrite H. reflexivity.
Qed.

(** The shape of a cluster found among the crossings of a fortress. *)
Definition fortress_quad (ps : list StructurePiece) (quad : QuadCrossing) : Prop :=
  exists tl tr bl br,
    crossings quad = [tl; tr; bl; br] /\
    (forall c, In c [tl; tr; bl; br] ->
       nth_error ps (id c) = Some (obj c) /\ is_crossing (obj c) = true) /\
    NoDup (map id [tl; tr; bl; br]) /\
    arranged tl tr bl br /\
    extents (quad_bounding_box quad) = (38, 10, 38).

Lemma quad_of_ok (cs : list Ref) (quad : QuadCrossing) :
  crossings_ok cs -> In quad (find_quad_crossings cs) ->
  exists tl tr bl br,
    crossings quad = [tl; tr; bl; br] /\
    (In tl cs /\ In tr cs /\ In bl cs /\ In br cs) /\
    arranged tl tr bl br /\
    extents (quad_bounding_box quad) = (38, 10, 38).
Proof.
  intros Hok Hquad.
  destruct (find_quad_crossings_from_corner cs quad Hquad) as (tl & Htl & Hq).
  destruct (_find_quad_from_corner_arranged cs tl quad (crossings_ok_footprint cs Hok)
              Htl Hq)
    as (tr & bl & br & Ecs & Htr & Hbl & Hbr & Harr & Ebox).
  exists tl, tr, bl, br. split; [exact Ecs|]. split; [auto|]. split; [exact Harr|].
  destruct (arranged_cells cs Hok tl tr bl br Htl Htr Hbl Hbr Harr)
    as (_ & _ & (X4 & Z4) & _).
  destruct (ok_max cs Hok tl Htl) as (T1 & T2 & T3).
  destruct (ok_max cs Hok br Hbr) as (B1 & B2 & B3).
  rewrite Ebox. unfold extents. cbn [min_x min_y min_z max_x max_y max_z].
  apply triple_eq; lia.
Qed.

Lemma at_most_one_quad (cs : list Ref) :
  crossings_ok cs -> (length (find_quad_crossings cs) <= 1)%nat.
Proof.
  intros Hok.
  pose proof (find_quad_crossings_distinct cs) as Hd.
  pose proof (fun q => quad_of_ok cs q Hok) as Hin.
  destruct (find_quad_crossings cs) as [|q1 [|q2 rest]]; cbn [length]; try lia.
  exfalso.
  destruct (Hin q1 (or_introl eq_refl))
    as (a1 & a2 & a3 & a4 & EA & (Ha1 & Ha2 & Ha3 & Ha4) & HA & _).
  destruct (Hin q2 (or_intror (or_introl eq_refl)))
    as (b1 & b2 & b3 & b4 & EB & (Hb1 & Hb2 & Hb3 & Hb4) & HB & _).
  pose proof (Hd 0%nat 1%nat q1 q2 ltac:(lia) eq_refl eq_refl) as Hne.
  unfold ids in Hne. rewrite EA, EB in Hne.
  rewrite (two_quads_same cs a1 a2 a3 a4 b1 b2 b3 b4 Hok) in Hne by assumption.
  rewrite id_set_eqb_refl in Hne. discriminate.
Qed.

(** X27.  Every cluster the detector reports for a generated fortress
    consists of four different pieces of that fortress, each a
    BridgeCrossing or the start piece, arranged 2 x 2, and its bounding box
    measures 38 x 10 x 38 blocks. *)
Theorem fortress_quads_shape (fuel : nat) (world_seed cx cz : Z)
    (ps : list StructurePiece) :
  generate fuel world_seed cx cz = Ok ps ->
  Forall (fortress_quad ps) (find_quad_crossings (crossing_objects ps)).
Proof.
  intros Hrun. pose proof (generate_crossings_ok _ _ _ _ _ Hrun) as Hok.
  apply Forall_forall. intros quad Hquad.
  destruct (quad_of_ok _ quad Hok Hquad)
    as (tl & tr & bl & br & Ecs & (Htl & Htr & Hbl & Hbr) & Harr & Ebox).
  exists tl, tr, bl, br. split; [exact Ecs|]. split; [|split; [|split]].
  - intros c [<- | [<- | [<- | [<- | []]]]]; apply crossing_objects_In; assumption.
  - exact (arranged_ids _ Hok tl tr bl br Htl Htr Hbl Hbr Harr).
  - exact Harr.
  - exact Ebox.
Qed.

Lemma fortress_quads_shape_witness :
  exists ps,
    generate 400 53 0 0 = Ok ps /\
    (length (find_quad_crossings (crossing_objects ps)) = 1)%nat /\
    Forall (fortress_quad ps) (find_quad_crossings (crossing_objects ps)).
Proof.
  eexists. split; [vm_compute; reflexivity|]. split; [vm_compute; reflexivity|].
  apply (fortress_quads_shape 400 53 0 0).
  vm_compute. reflexivity.
Defined.

(** X28.  A generated fortress holds at most one cluster: the detector,
    run on the crossings of a complete run, returns at most one entry, and
    only when the fortress has at least four crossings. *)
Theorem fortress_at_most_one_quad (fuel : nat) (world_seed cx cz : Z)
    (ps : list StructurePiece) :
  generate fuel world_seed cx cz = Ok ps ->
  (length (find_quad_crossings (crossing_objects ps)) <= 1)%nat /\
  (find_quad_crossings (crossing_objects ps) <> [] ->
   (4 <= length (get_bridge_crossings ps) <= 5)%nat).
Proof.
  intros Hrun. pose proof (generate_crossings_ok _ _ _ _ _ Hrun) as Hok.
  split; [exact (at_most_one_quad _ Hok)|].
  intros Hne. rewrite <- crossing_objects_obj, length_map.
  split; [|exact (ok_length _ Hok)].
  unfold find_quad_crossings in Hne.
  destruct (length (crossing_objects ps) <? 4)%nat eqn:E; [congruence|].
  apply Nat.ltb_ge in E. exact E.
Qed.

Lemma fortress_at_most_one_quad_witness :
  exists ps,
    generate 400 53 0 0 = Ok ps /\
    find_quad_crossings (crossing_objects ps) <> [] /\
    (length (find_quad_crossings (crossing_objects ps)) <= 1)%nat /\
    (find_quad_crossings (crossing_objects ps) <> [] ->
     (4 <= length (get_bridge_crossings ps) <= 5)%nat).
Proof.
  eexists. split; [vm_compute; reflexivity|]. split; [vm_compute; discriminate|].
  apply (fortress_at_most_one_quad 400 53 0 0).
  vm_compute. reflexivity.
Defined.

(** ** The search over a range *)

(** What one fortress contributes to the result list. *)
Definition fortress_results (fuel depth : nat) (world_seed : Z) (chunk : Z * Z)
  : result (list QuadResult) :=
  let '(chunk_x, chunk_z) := chunk in
  rbind (generate fuel world_seed chunk_x chunk_z) (fun pieces =>
  let crossings := crossing_objects pieces in
  rbind (analyze_fortress_crossings depth crossings) (fun analysis =>
  if has_quad analysis then
    Ok (map (fun quad =>
               mkResult (chunk_x, chunk_z) (chunk_x * 16, chunk_z * 16) quad
                        (total_crossings analysis))
            (quad_crossings analysis))
  else Ok [])).

Lemma for_each_ext {A B : Type} (f g : B -> A -> result B) (l : list A) :
  (forall acc a, f acc a = g acc a) ->
  forall acc, for_each l acc f = for_each l acc g.
Proof.
  intros Hfg. induction l as [|a l IH]; intros acc; cbn [for_each]; [reflexivity|].
  rewrite Hfg. destruct (g acc a); cbn [rbind]; auto.
Qed.

Lemma find_quad_crossings_for_seed_unfold (fuel depth : nat)
    (world_seed search_range center_x center_z : Z) :
  find_quad_crossings_for_seed fuel depth world_seed search_range center_x center_z
  = rbind (find_fortresses_in_range fuel world_seed (Z.shiftr center_x 4)
             (Z.shiftr center_z 4) (Z.shiftr search_range 4)) (fun fortresses =>
    for_each fortresses [] (fun results chunk =>
      rbind (fortress_results fuel depth world_seed chunk) (fun rs =>
      Ok (results ++ rs)))).
Proof.
  unfold find_quad_crossings_for_seed.
  destruct (find_fortresses_in_range _ _ _ _ _) as [fortresses | | |];
    cbn [rbind]; try reflexivity.
  apply for_each_ext. intros results [chunk_x chunk_z].
  unfold fortress_results.
  destruct (generate fuel world_seed chunk_x chunk_z) as [ps | | |];
    cbn [rbind]; try reflexivity.
  destruct (analyze_fortress_crossings depth (crossing_objects ps)) as [a | | |];
    cbn [rbind]; try reflexivity.
  destruct (has_quad a); cbn [rbind]; [reflexivity|].
  rewrite app_nil_r. reflexivity.
Qed.

Lemma results_loop {A : Type} (F : A -> result (list QuadResult))
    (Q : A -> QuadResult -> Prop) (l : list A) :
  (forall a rs, In a l -> F a = Ok rs ->
     (length rs <= 1)%nat /\ Forall (Q a) rs) ->
  forall acc res,
  for_each l acc (fun results a => rbind (F a) (fun rs => Ok (results ++ rs)))
  = Ok res ->
  exists tail, res = acc ++ tail /\ (length tail <= length l)%nat /\
    Forall (fun r => exists a, In a l /\ Q a r) tail.
Proof.
  induction l as [|a l IH]; intros HF acc res; cbn [for_each].
  - intros E. injection E as <-. exists []. rewrite app_nil_r.
    split; [reflexivity|]. split; [apply Nat.le_refl | constructor].
  - destruct (F a) as [rs | | |] eqn:Ea; cbn [rbind]; try discriminate.
    intros E.
    destruct (IH (fun a' rs' Hin => HF a' rs' (or_intror Hin)) _ _ E)
      as (tail & -> & Hlen & Hall).
    destruct (HF a rs (or_introl eq_refl) Ea) as [Hl Hq].
    exists (rs ++ tail). rewrite app_assoc. split; [reflexivity|].
    split; [rewrite length_app; cbn [length]; lia|].
    apply Forall_app. split.
    + apply Forall_forall. intros r Hr. rewrite Forall_forall in Hq.
      exists a. split; [left; reflexivity | exact (Hq r Hr)].
    + apply Forall_forall. intros r Hr. rewrite Forall_forall in Hall.
      destruct (Hall r Hr) as (a' & Ha' & Hq'). exists a'. split; [right; exact Ha' | exact Hq'].
Qed.

(** One entry of the result list, for the fortress at [chunk]. *)
Definition result_of (chunk : Z * Z) (r : QuadResult) : Prop :=
  fortress_chunk r = chunk /\
  fortress_block r = (fst chunk * 16, snd chunk * 16) /\
  (4 <= result_total_crossings r <= 5)%nat /\
  extents (quad_bounding_box (quad_crossing r)) = (38, 10, 38).

Lemma fortress_results_ok (fuel depth : nat) (world_seed : Z) (chunk : Z * Z)
    (rs : list QuadResult) :
  fortress_results fuel depth world_seed chunk = Ok rs ->
  (length rs <= 1)%nat /\ Forall (result_of chunk) rs.
Proof.
  destruct chunk as [chunk_x chunk_z]. unfold fortress_results.
  destruct (generate fuel world_seed chunk_x chunk_z) as [ps | | |] eqn:Eg;
    cbn [rbind]; try discriminate.
  pose proof (generate_crossings_ok _ _ _ _ _ Eg) as Hok.
  unfold analyze_fortress_crossings.
  destruct (find_connected_crossings depth (crossing_objects ps)) as [groups | | |];
    cbn [rbind]; try discriminate.
  cbn [has_quad quad_crossings total_crossings].
  pose proof (at_most_one_quad _ Hok) as Hone.
  pose proof (fun q => quad_of_ok _ q Hok) as Hq.
  assert (Hlen : find_quad_crossings (crossing_objects ps) <> [] ->
                 (4 <= length (crossing_objects ps))%nat).
  { unfold find_quad_crossings.
    destruct (length (crossing_objects ps) <? 4)%nat eqn:E; [congruence|].
    apply Nat.ltb_ge in E. intros _. exact E. }
  destruct (0 <? length (find_quad_crossings (crossing_objects ps)))%nat;
    intros E; injection E as <-; [|split; [cbn; lia | constructor]].
  rewrite length_map. split; [exact Hone|].
  apply Forall_forall. intros r Hr. apply in_map_iff in Hr.
  destruct Hr as (quad & <- & Hquad).
  unfold result_of. cbn [fortress_chunk fortress_block quad_crossing
                           result_total_crossings fst snd].
  split; [reflexivity|]. split; [reflexivity|]. split.
  - split; [|exact (ok_length _ Hok)].
    apply Hlen. intros Enil. rewrite Enil in Hquad. contradiction.
  - destruct (Hq quad Hquad) as (tl & tr & bl & br & _ & _ & _ & Ebox). exact Ebox.
Qed.

(** X29.  [find_quad_crossings_for_seed], for a search window inside the
    32-bit chunk range: the result has at most one entry per fortress found
    in the window; every entry names a chunk within the window that the
    locator classifies Fortress, gives the block coordinates of that chunk's
    corner, counts four or five crossings, and carries a cluster of
    38 x 10 x 38 blocks. *)
Theorem find_quad_crossings_for_seed_sound (fuel depth : nat)
    (world_seed search_range center_x center_z : Z)
    (results : list QuadResult) :
  let ccx := Z.shiftr center_x 4 in
  let ccz := Z.shiftr center_z 4 in
  let radius := Z.shiftr search_range 4 in
  FortressLocatorProps.chunk_coordinate (ccx - radius) /\
  FortressLocatorProps.chunk_coordinate (ccx + radius) ->
  FortressLocatorProps.chunk_coordinate (ccz - radius) /\
  FortressLocatorProps.chunk_coordinate (ccz + radius) ->
  find_quad_crossings_for_seed (S fuel) depth world_seed search_range
    center_x center_z = Ok results ->
  exists fortresses,
    find_fortresses_in_range (S fuel) world_seed ccx ccz radius = Ok fortresses /\
    (length results <= length fortresses)%nat /\
    Forall (fun r =>
              exists chunk_x chunk_z,
                result_of (chunk_x, chunk_z) r /\
                Z.abs (chunk_x - ccx) <= radius /\
                Z.abs (chunk_z - ccz) <= radius /\
                _is_fortress_at_chunk (S fuel) world_seed chunk_x chunk_z = Ok true)
           results.
Proof.
  intros ccx ccz radius _ _ Hrun.
  rewrite find_quad_crossings_for_seed_unfold in Hrun.
  fold ccx ccz radius in Hrun.
  destruct (find_fortresses_in_range (S fuel) world_seed ccx ccz radius)
    as [fortresses | | |] eqn:Ef; cbn [rbind] in Hrun; try discriminate.
  exists fortresses. split; [reflexivity|].
  destruct (results_loop (fortress_results (S fuel) depth world_seed) result_of
              fortresses
              (fun a rs _ E => fortress_results_ok (S fuel) depth world_seed a rs E)
              [] results Hrun)
    as (tail & -> & Hlen & Hall).
  cbn [app]. split; [exact Hlen|].
  apply Forall_forall. intros r Hr. rewrite Forall_forall in Hall.
  destruct (Hall r Hr) as ([chunk_x chunk_z] & Hin & Hres).
  exists chunk_x, chunk_z. split; [exact Hres|].
  apply (FortressLocatorExtra.In_find_fortresses fuel world_seed ccx ccz radius
           (chunk_x, chunk_z) fortresses Ef) in Hin.
  destruct Hin as (rx & rz & _ & _ & _ & H1 & H2 & Hf). cbn [fst snd] in *. auto.
Qed.

Lemma find_quad_crossings_for_seed_sound_witness :
  exists results,
    find_quad_crossings_for_seed 400 10 23 64 16 0 = Ok results /\
    (length results = 1)%nat /\
    exists fortresses,
      find_fortresses_in_range 400 23 1 0 4 = Ok fortresses /\
      (length results <= length fortresses)%nat /\
      Forall (fun r =>
                exists chunk_x chunk_z,
                  result_of (chunk_x, chunk_z) r /\
                  Z.abs (chunk_x - 1) <= 4 /\
                  Z.abs (chunk_z - 0) <= 4 /\
                  _is_fortress_at_chunk 400 23 chunk_x chunk_z = Ok true)
             results.
Proof.
  eexists. split; [vm_compute; reflexivity|]. split; [reflexivity|].
  apply (find_quad_crossings_for_seed_sound 399 10 23 64 16 0).
  - unfold FortressLocatorProps.chunk_coordinate. cbn. lia.
  - unfold FortressLocatorProps.chunk_coordinate. cbn. lia.
  - vm_compute. reflexivity.
Defined.

End MainExtra.
